(** * Deep-research orchestrator: a shallow embedding and its properties

    The development follows [app/api/deep-report/route.ts] (the
    deep-report route and, after it, the deep-search route with
    [deepResearch]), [app/api/report/route.ts] (the report route, with the
    second copy of [retryJsonParse]) and the configuration [CONFIG].

    - JavaScript strings are sequences of UTF-16 code units, [list N].
    - The regular-expression replacements of the source are written as
      scanning functions over such sequences, one per [.replace] call.
    - [JSON.parse] is a recursive-descent parser for the JSON grammar; its
      outcome is shown not to depend on the fuel it is given.
    - Asynchronous, effectful code is written in a state-and-exception
      monad over the module state ([totalJinaRequests]), the state of the
      outside world (search engine, content extractor, language model,
      rate limiters, timers) and a trace of what the code did.  The
      capabilities of the world are arbitrary functions of its state, so
      that a property proved for every world holds whatever the services
      answer.
    - The sub-queries of an invocation run one after the other, as the
      concurrency limit of 1 makes them.  The fetches of one batch are
      started together and take turns from one [await] to the next, in an
      order that the world decides; what is proved of a batch is proved
      for every such order.
    - The two report routes are written in a monad of their own, which
      records the calls they make; the text of their prompts is left
      open.
    - Numbers are integers ([Z]): breadth, depth and the counts given to
      [slice]. *)

From Stdlib Require Import String Ascii DecimalString.
From Stdlib Require Import List ZArith NArith Bool Lia Permutation.
Import ListNotations.

Set Implicit Arguments.
Set Warnings "-register-all,-notation-for-abbreviation".

(** ** JavaScript strings *)

Module Js.

Definition char := N.
Definition str := list char.

(** A string literal of the source, code unit by code unit. *)
Definition lit (s : string) : str :=
  List.map N_of_ascii (list_ascii_of_string s).

Definition QUOTE : char := 34%N.
Definition BACKSLASH : char := 92%N.
Definition SLASH : char := 47%N.
Definition COMMA : char := 44%N.
Definition COLON : char := 58%N.
Definition LBRACE : char := 123%N.
Definition RBRACE : char := 125%N.
Definition LBRACKET : char := 91%N.
Definition RBRACKET : char := 93%N.
Definition BACKTICK : char := 96%N.
Definition LF : char := 10%N.
Definition CR : char := 13%N.
Definition TAB : char := 9%N.
Definition BOM : char := 65279%N.

Definition str_eq_dec : forall a b : str, {a = b} + {a <> b} :=
  list_eq_dec N.eq_dec.

Fixpoint eqb (a b : str) : bool :=
  match a, b with
  | [], [] => true
  | x :: a', y :: b' => N.eqb x y && eqb a' b'
  | _, _ => false
  end.

Fixpoint startsWith (p s : str) : bool :=
  match p, s with
  | [], _ => true
  | x :: p', y :: s' => N.eqb x y && startsWith p' s'
  | _ :: _, [] => false
  end.

(** [String.prototype.includes]. *)
Fixpoint includes (s p : str) : bool :=
  startsWith p s ||
  match s with
  | [] => false
  | _ :: s' => includes s' p
  end.

Fixpoint dropWhile (f : char -> bool) (s : str) : str :=
  match s with
  | [] => []
  | c :: s' => if f c then dropWhile f s' else s
  end.

Fixpoint takeWhile (f : char -> bool) (s : str) : str :=
  match s with
  | [] => []
  | c :: s' => if f c then c :: takeWhile f s' else []
  end.

(** The regular-expression class [\s], which is also the set of code units
    removed by [String.prototype.trim]. *)
Definition isSpace (c : char) : bool :=
  ((9 <=? c) && (c <=? 13) || (c =? 32) || (c =? 160) || (c =? 5760)
   || (8192 <=? c) && (c <=? 8202) || (c =? 8232) || (c =? 8233)
   || (c =? 8239) || (c =? 8287) || (c =? 12288) || (c =? 65279))%N.

Definition trimStart (s : str) : str := dropWhile isSpace s.
Definition trimEnd (s : str) : str := rev (dropWhile isSpace (rev s)).
Definition trim (s : str) : str := trimEnd (trimStart s).

(** [Array.prototype.join] on an array of strings. *)
Fixpoint join (sep : str) (l : list str) : str :=
  match l with
  | [] => []
  | [x] => x
  | x :: l' => x ++ sep ++ join sep l'
  end.

(** [Array.prototype.slice(0, n)] for an integer [n]: a negative end
    counts from the end of the array. *)
Definition slice0 {A} (l : list A) (n : Z) : list A :=
  if (n <? 0)%Z then firstn (Z.to_nat (Z.of_nat (length l) + n)) l
  else firstn (Z.to_nat n) l.

(** The decimal text of an integer, as a template literal prints it. *)
Definition ofZ (z : Z) : str :=
  lit (NilZero.string_of_int (Z.to_int z)).

End Js.

(** ** JSON values and [JSON.parse] *)

Module Json.
Import Js.

(** A number keeps the text it was written with: its value is the double
    nearest to that text, which no property below inspects.  An object is
    the list of its members in source order; a repeated key keeps its last
    value on lookup, as the property of the parsed object does. *)
Inductive value : Type :=
| JNull
| JBool (b : bool)
| JNumber (lexeme : str)
| JString (s : str)
| JArray (items : list value)
| JObject (members : list (str * value)).

Definition isWs (c : char) : bool :=
  ((c =? 32) || (c =? 9) || (c =? 10) || (c =? 13))%N.

Definition skipWs (s : str) : str := dropWhile isWs s.

Definition isDigit (c : char) : bool := ((48 <=? c) && (c <=? 57))%N.

Definition hexVal (c : char) : option N :=
  if isDigit c then Some (c - 48)%N
  else if ((97 <=? c) && (c <=? 102))%N then Some (c - 87)%N
  else if ((65 <=? c) && (c <=? 70))%N then Some (c - 55)%N
  else None.

Definition hex4 (a b c d : char) : option char :=
  match hexVal a, hexVal b, hexVal c, hexVal d with
  | Some x, Some y, Some z, Some w => Some (((x * 16 + y) * 16 + z) * 16 + w)%N
  | _, _, _, _ => None
  end.

(** The characters of a string literal after its opening quote, up to and
    including the closing quote. *)
Fixpoint parseChars (s : str) : option (str * str) :=
  match s with
  | [] => None
  | c :: rest =>
    if (c =? QUOTE)%N then Some ([], rest)
    else if (c =? BACKSLASH)%N then
      match rest with
      | [] => None
      | e :: rest' =>
        let continue (u : char) (r : option (str * str)) :=
          match r with
          | Some (t, r') => Some (u :: t, r')
          | None => None
          end in
        if (e =? QUOTE)%N then continue QUOTE (parseChars rest')
        else if (e =? BACKSLASH)%N then continue BACKSLASH (parseChars rest')
        else if (e =? SLASH)%N then continue SLASH (parseChars rest')
        else if (e =? 98)%N then continue 8%N (parseChars rest')
        else if (e =? 102)%N then continue 12%N (parseChars rest')
        else if (e =? 110)%N then continue LF (parseChars rest')
        else if (e =? 114)%N then continue CR (parseChars rest')
        else if (e =? 116)%N then continue TAB (parseChars rest')
        else if (e =? 117)%N then
          match rest' with
          | h1 :: h2 :: h3 :: h4 :: rest'' =>
            match hex4 h1 h2 h3 h4 with
            | Some u => continue u (parseChars rest'')
            | None => None
            end
          | _ => None
          end
        else None
      end
    else if (c <? 32)%N then None
    else
      match parseChars rest with
      | Some (t, r') => Some (c :: t, r')
      | None => None
      end
  end.

(** One or more digits. *)
Definition parseDigits (s : str) : option (str * str) :=
  match takeWhile isDigit s with
  | [] => None
  | ds => Some (ds, dropWhile isDigit s)
  end.

(** A number: an optional minus sign; then a single zero, or a non-zero
    digit followed by digits; then optionally a point and one or more
    digits; then optionally an exponent mark, a sign and one or more
    digits. *)
Definition parseNumber (s : str) : option (str * str) :=
  let (sign, s1) :=
    match s with
    | c :: r => if (c =? 45)%N then ([c], r) else ([], s)
    | [] => ([], s)
    end in
  let int :=
    match s1 with
    | c :: r =>
      if (c =? 48)%N then Some ([c], r)
      else if isDigit c then Some (c :: takeWhile isDigit r, dropWhile isDigit r)
      else None
    | [] => None
    end in
  match int with
  | None => None
  | Some (i, s2) =>
    let frac :=
      match s2 with
      | c :: r =>
        if (c =? 46)%N then
          match parseDigits r with
          | Some (ds, r') => Some (c :: ds, r')
          | None => None
          end
        else Some ([], s2)
      | [] => Some ([], s2)
      end in
    match frac with
    | None => None
    | Some (f, s3) =>
      let exp :=
        match s3 with
        | c :: r =>
          if ((c =? 101) || (c =? 69))%N then
            let (sg, r1) :=
              match r with
              | d :: r' => if ((d =? 43) || (d =? 45))%N then ([d], r') else ([], r)
              | [] => ([], r)
              end in
            match parseDigits r1 with
            | Some (ds, r') => Some (c :: sg ++ ds, r')
            | None => None
            end
          else Some ([], s3)
        | [] => Some ([], s3)
        end in
      match exp with
      | None => None
      | Some (e, s4) => Some (sign ++ i ++ f ++ e, s4)
      end
    end
  end.

(** A value, the elements of an array after its first bracket, and the
    members of an object after its first brace.  The first argument bounds
    the number of nested calls. *)
Fixpoint parseValue (fuel : nat) (s : str) : option (value * str) :=
  match fuel with
  | O => None
  | S f =>
    match skipWs s with
    | [] => None
    | c :: rest =>
      if (c =? LBRACE)%N then
        match skipWs rest with
        | d :: rest' =>
          if (d =? RBRACE)%N then Some (JObject [], rest')
          else
            match parseMembers f (d :: rest') with
            | Some (ms, r) => Some (JObject ms, r)
            | None => None
            end
        | [] => None
        end
      else if (c =? LBRACKET)%N then
        match skipWs rest with
        | d :: rest' =>
          if (d =? RBRACKET)%N then Some (JArray [], rest')
          else
            match parseElements f (d :: rest') with
            | Some (vs, r) => Some (JArray vs, r)
            | None => None
            end
        | [] => None
        end
      else if (c =? QUOTE)%N then
        match parseChars rest with
        | Some (t, r) => Some (JString t, r)
        | None => None
        end
      else if (c =? 45)%N || isDigit c then
        match parseNumber (c :: rest) with
        | Some (n, r) => Some (JNumber n, r)
        | None => None
        end
      else if startsWith (lit "true") (c :: rest) then
        Some (JBool true, skipn 4 (c :: rest))
      else if startsWith (lit "false") (c :: rest) then
        Some (JBool false, skipn 5 (c :: rest))
      else if startsWith (lit "null") (c :: rest) then
        Some (JNull, skipn 4 (c :: rest))
      else None
    end
  end

with parseElements (fuel : nat) (s : str) : option (list value * str) :=
  match fuel with
  | O => None
  | S f =>
    match parseValue f s with
    | None => None
    | Some (v, r) =>
      match skipWs r with
      | c :: r' =>
        if (c =? COMMA)%N then
          match parseElements f r' with
          | Some (vs, r'') => Some (v :: vs, r'')
          | None => None
          end
        else if (c =? RBRACKET)%N then Some ([v], r')
        else None
      | [] => None
      end
    end
  end

with parseMembers (fuel : nat) (s : str) : option (list (str * value) * str) :=
  match fuel with
  | O => None
  | S f =>
    match skipWs s with
    | q :: r0 =>
      if (q =? QUOTE)%N then
        match parseChars r0 with
        | None => None
        | Some (k, r1) =>
          match skipWs r1 with
          | c :: r2 =>
            if (c =? COLON)%N then
              match parseValue f r2 with
              | None => None
              | Some (v, r3) =>
                match skipWs r3 with
                | d :: r4 =>
                  if (d =? COMMA)%N then
                    match parseMembers f r4 with
                    | Some (ms, r5) => Some ((k, v) :: ms, r5)
                    | None => None
                    end
                  else if (d =? RBRACE)%N then Some ([(k, v)], r4)
                  else None
                | [] => None
                end
              end
            else None
          | [] => None
          end
        end
      else None
    | [] => None
    end
  end.

(** [JSON.parse]: one value, surrounded by optional white space and nothing
    else.  [None] is the [SyntaxError].  Every nested call of the parser
    consumes input first, so the length of the text bounds the nesting. *)
Definition parse (s : str) : option value :=
  match parseValue (S (length s)) s with
  | Some (v, r) =>
    match skipWs r with
    | [] => Some v
    | _ :: _ => None
    end
  | None => None
  end.

(** Property lookup [obj.key] on a parsed value; [None] is [undefined]. *)
Fixpoint lookup (k : str) (ms : list (str * value)) : option value :=
  match ms with
  | [] => None
  | (k', v) :: ms' =>
    match lookup k ms' with
    | Some v' => Some v'
    | None => if eqb k k' then Some v else None
    end
  end.

Definition get (v : value) (k : str) : option value :=
  match v with
  | JObject ms => lookup k ms
  | _ => None
  end.

End Json.

(** ** The JSON repair of [retryJsonParse] *)

Module Repair.
Import Js.

Definition MAX_RETRIES : nat := 2.

(** The class of the look-ahead in the first replacement: a quote, a
    backslash, a slash, or one of b, f, n, r, t. *)
Definition isEscapeLetter (c : char) : bool :=
  ((c =? QUOTE) || (c =? BACKSLASH) || (c =? SLASH) || (c =? 98)
   || (c =? 102) || (c =? 110) || (c =? 114) || (c =? 116))%N.

(** First replacement, labelled Fix invalid escapes in the source: a
    backslash that is not followed by one of the escape letters is doubled.
    The pattern is global with a negative look-ahead, which holds at the
    end of the text. *)
Fixpoint fixInvalidEscapes (s : str) : str :=
  match s with
  | [] => []
  | c :: rest =>
    if (c =? BACKSLASH)%N then
      match rest with
      | d :: _ =>
        if isEscapeLetter d then c :: fixInvalidEscapes rest
        else BACKSLASH :: BACKSLASH :: fixInvalidEscapes rest
      | [] => [BACKSLASH; BACKSLASH]
      end
    else c :: fixInvalidEscapes rest
  end.

(** Second replacement, labelled Fix unescaped quotes: every quote whose
    preceding code unit in the scanned text is not a backslash (a negative
    look-behind) is replaced by a backslash and a quote. *)
Fixpoint escapeQuotesAfter (prev : option char) (s : str) : str :=
  match s with
  | [] => []
  | c :: rest =>
    let afterBackslash :=
      match prev with
      | Some p => (p =? BACKSLASH)%N
      | None => false
      end in
    if (c =? QUOTE)%N && negb afterBackslash
    then BACKSLASH :: QUOTE :: escapeQuotesAfter (Some c) rest
    else c :: escapeQuotesAfter (Some c) rest
  end.

Definition escapeQuotes (s : str) : str := escapeQuotesAfter None s.

(** Code units other than the quote and the backslash. *)
Definition isPlain (c : char) : bool :=
  negb ((c =? QUOTE) || (c =? BACKSLASH))%N.

(** The text from its first quote or backslash on. *)
Definition tailFrom (s : str) : str := dropWhile isPlain s.

Definition okHead (s : str) : bool :=
  match s with
  | [] => true
  | c :: _ => (c =? BACKSLASH)%N
  end.

(** Whether the first quote or backslash of the text, if there is one, is
    a backslash. *)
Definition okTail (s : str) : bool := okHead (tailFrom s).

(** Whether the code unit before the current one is a backslash. *)
Definition afterBackslash (prev : option char) : bool :=
  match prev with
  | Some p => (p =? BACKSLASH)%N
  | None => false
  end.

(** Whether every quote of [s] has a backslash just before it, [prev]
    being the code unit before [s]. *)
Fixpoint quotesEscaped (prev : option char) (s : str) : bool :=
  match s with
  | [] => true
  | c :: rest =>
    (if (c =? QUOTE)%N
     then match prev with
          | Some p => (p =? BACKSLASH)%N
          | None => false
          end
     else true)
    && quotesEscaped (Some c) rest
  end.

Definition isLineBreak (c : char) : bool := ((c =? LF) || (c =? CR))%N.

(** [.replace(/[\n\r]+/g, '\\n')]: each run of line breaks becomes the two
    code units backslash, n. *)
Fixpoint escapeLineBreaksIn (inRun : bool) (s : str) : str :=
  match s with
  | [] => []
  | c :: rest =>
    if isLineBreak c then
      if inRun then escapeLineBreaksIn true rest
      else BACKSLASH :: 110%N :: escapeLineBreaksIn true rest
    else c :: escapeLineBreaksIn false rest
  end.

Definition escapeLineBreaks (s : str) : str := escapeLineBreaksIn false s.

(** [.replace(/\t/g, '\\t')] *)
Fixpoint escapeTabs (s : str) : str :=
  match s with
  | [] => []
  | c :: rest =>
    if (c =? TAB)%N then BACKSLASH :: 116%N :: escapeTabs rest
    else c :: escapeTabs rest
  end.

(** [.replace(/^\uFEFF/, empty)]: a byte-order mark at the start. *)
Definition removeBom (s : str) : str :=
  match s with
  | c :: rest => if (c =? BOM)%N then rest else s
  | [] => []
  end.

(** [.replace(/[\u0000-\u001F]+/g, '')] *)
Definition removeControls (s : str) : str :=
  filter (fun c => negb (c <=? 31)%N) s.

(** [.replace(/```json\s*/, '')]: the first opening fence, with the white
    space after it. *)
Fixpoint removeFenceOpen (s : str) : str :=
  match s with
  | [] => []
  | c :: rest =>
    if startsWith (lit "```json") s
    then dropWhile isSpace (skipn 7 s)
    else c :: removeFenceOpen rest
  end.

(** Whether the whole of [s] matches [\s*```\s*]. *)
Definition isFenceClose (s : str) : bool :=
  let s1 := dropWhile isSpace s in
  startsWith (lit "```") s1 && forallb isSpace (skipn 3 s1).

(** [.replace(/\s*```\s*$/, '')]: the leftmost position from which the
    rest of the text is a closing fence. *)
Fixpoint removeFenceClose (s : str) : str :=
  if isFenceClose s then []
  else
    match s with
    | [] => []
    | c :: rest => c :: removeFenceClose rest
    end.

Definition isCloser (c : char) : bool := ((c =? RBRACKET) || (c =? RBRACE))%N.

(** [.replace(/,\s*([\]}])/g, '$1')]: a comma, white space and a closing
    bracket or brace become the bracket or brace.  [skip] counts the code
    units of the current match that are still to be passed over. *)
Fixpoint removeTrailingCommasFrom (skip : nat) (s : str) : str :=
  match s with
  | [] => []
  | c :: rest =>
    match skip with
    | S k => removeTrailingCommasFrom k rest
    | O =>
      if (c =? COMMA)%N then
        match dropWhile isSpace rest with
        | d :: _ =>
          if isCloser d
          then d :: removeTrailingCommasFrom
                      (S (length (takeWhile isSpace rest))) rest
          else c :: removeTrailingCommasFrom O rest
        | [] => c :: removeTrailingCommasFrom O rest
        end
      else c :: removeTrailingCommasFrom O rest
    end
  end.

Definition removeTrailingCommas (s : str) : str := removeTrailingCommasFrom O s.

(** [/^[\[{]/.test] and [/[\]}]$/.test] *)
Definition startsWithOpener (s : str) : bool :=
  match s with
  | c :: _ => ((c =? LBRACKET) || (c =? LBRACE))%N
  | [] => false
  end.

Definition endsWithCloser (s : str) : bool :=
  match rev s with
  | c :: _ => isCloser c
  | [] => false
  end.

(** The chain of replacements applied to the text before the next
    attempt, and the wrapping in braces that follows it. *)
Definition cleanChain (jsonMatch : str) : str :=
  trim
    (removeTrailingCommas
       (removeFenceClose
          (removeFenceOpen
             (removeControls
                (removeBom
                   (escapeTabs
                      (escapeLineBreaks
                         (escapeQuotes
                            (fixInvalidEscapes jsonMatch))))))))).

Definition cleanJson (jsonMatch : str) : str :=
  let cleanedJson := cleanChain jsonMatch in
  let cleanedJson :=
    if negb (startsWithOpener cleanedJson) then LBRACE :: cleanedJson
    else cleanedJson in
  if negb (endsWithCloser cleanedJson) then cleanedJson ++ [RBRACE]
  else cleanedJson.

(** The outcome of [retryJsonParse]: the parsed value, or the error thrown
    once the attempts are used up.  The message of that error ends with the
    engine's own [SyntaxError] text, which is not part of the model. *)
Inductive outcome : Type :=
| Parsed (v : Json.value)
| Failed (message : str).

Definition failureMessage : str :=
  lit "Failed to parse JSON after " ++ ofZ (Z.of_nat MAX_RETRIES + 1)
  ++ lit " attempts: ".

(** [retryJsonParse(jsonMatch, retryCount)], by recursion on the retries
    that remain, [MAX_RETRIES - retryCount].  The one-second pause and the
    console output before each retry have no bearing on the result. *)
Fixpoint retryJsonParseFrom (remaining : nat) (jsonMatch : str) : outcome :=
  match Json.parse jsonMatch with
  | Some v => Parsed v
  | None =>
    match remaining with
    | S k => retryJsonParseFrom k (cleanJson jsonMatch)
    | O => Failed failureMessage
    end
  end.

Definition retryJsonParse (jsonMatch : str) : outcome :=
  retryJsonParseFrom MAX_RETRIES jsonMatch.

(** How many repair passes a call on [jsonMatch] makes. *)
Fixpoint repairPasses (remaining : nat) (jsonMatch : str) : nat :=
  match Json.parse jsonMatch with
  | Some _ => O
  | None =>
    match remaining with
    | S k => S (repairPasses k (cleanJson jsonMatch))
    | O => O
    end
  end.

End Repair.

(** ** Extracting the JSON object from a language-model response *)

Module Extract.
Import Js.

(** The body of the lazy group [(\{[\s\S]*?\})] after its brace: it ends at
    the first closing brace that is followed by white space and a fence. *)
Fixpoint lazyBody (s : str) : option str :=
  match s with
  | [] => None
  | c :: rest =>
    if (c =? RBRACE)%N && startsWith (lit "```") (dropWhile isSpace rest)
    then Some [RBRACE]
    else
      match lazyBody rest with
      | Some g => Some (c :: g)
      | None => None
      end
  end.

Definition groupAfterSpace (s : str) : option str :=
  match dropWhile isSpace s with
  | c :: rest =>
    if (c =? LBRACE)%N then
      match lazyBody rest with
      | Some g => Some (LBRACE :: g)
      | None => None
      end
    else None
  | [] => None
  end.

(** A match of the fenced pattern starting exactly at the head of [s]: the
    fence, optionally the word json, white space, the group, white space
    and the closing fence. *)
Definition fencedAt (s : str) : option str :=
  if startsWith (lit "```") s then
    let s1 := skipn 3 s in
    let withJson :=
      if startsWith (lit "json") s1 then groupAfterSpace (skipn 4 s1)
      else None in
    match withJson with
    | Some g => Some g
    | None => groupAfterSpace s1
    end
  else None.

(** First pattern of the source: group 1 of the leftmost match of the
    fenced code block. *)
Fixpoint matchFenced (s : str) : option str :=
  match fencedAt s with
  | Some g => Some g
  | None =>
    match s with
    | [] => None
    | _ :: rest => matchFenced rest
    end
  end.

(** Second pattern, [/(\{[\s\S]*\})/]: from the first opening brace to the
    last closing brace after it. *)
Definition matchBraces (s : str) : option str :=
  match dropWhile (fun c => negb (c =? LBRACE)%N) s with
  | [] => None
  | _ :: body =>
    match dropWhile (fun c => negb (c =? RBRACE)%N) (rev body) with
    | [] => None
    | r => Some (LBRACE :: rev r)
    end
  end.

(** [response.match(fenced) || response.match(braces)], then [jsonMatch[1]]. *)
Definition jsonOf (response : str) : option str :=
  match matchFenced response with
  | Some g => Some g
  | None => matchBraces response
  end.

End Extract.

(** ** Exceptions, the outside world and the monad of the route *)

Module Effects.
Import Js.

(** A thrown value: an [Error] with its message, an axios error with the
    status of its response when there is one, or a value that is not an
    instance of [Error]. *)
Inductive exn : Type :=
| Error (message : str)
| AxiosError (status : option Z) (message : str)
| Thrown.

Definition instanceofError (e : exn) : bool :=
  match e with
  | Thrown => false
  | _ => true
  end.

Definition messageOf (e : exn) : str :=
  match e with
  | Error m => m
  | AxiosError _ m => m
  | Thrown => []
  end.

(** [error instanceof Error ? error.message : 'Unknown error'] *)
Definition describe (e : exn) : str :=
  if instanceofError e then messageOf e else lit "Unknown error".

(** [axios.isAxiosError(error) && error.response?.status === 429] *)
Definition isAxios429 (e : exn) : bool :=
  match e with
  | AxiosError (Some s) _ => (s =? 429)%Z
  | _ => false
  end.

(** [error instanceof Error && error.message.includes('rate limit')] *)
Definition isRateLimit (e : exn) : bool :=
  instanceofError e && includes (messageOf e) (lit "rate limit").

Inductive result (A : Type) : Type :=
| Ok (a : A)
| Throw (e : exn).
Arguments Ok {A} a.
Arguments Throw {A} e.

Record DuckDuckResult : Type := {
  url : str;
  title : str;
  description : str
}.

(** An element of [SearchResponse.data]. *)
Record Content : Type := {
  c_url : str;
  markdown : str
}.

Record SerpQuery : Type := {
  query : str;
  researchGoal : str
}.

Inductive limiter : Type := SearchLimiter | FetchContentLimiter.

(** What the code does, in order: its calls to the outside world, and the
    entry of three of its own functions with their arguments. *)
Inductive event : Type :=
| EvDelay
| EvLimit (which : limiter) (key : str)
| EvSearch (q : str)
| EvHttpGet (u : str)
| EvModel (prompt : str)
| EvDeepResearch (q : str) (breadth depth : Z)
| EvFetchJinaContent (u : str)
| EvProcessSerpResult (q : str) (data : list Content).

(** Everything the module takes from outside itself.  The clients of
    [@/lib] are not part of the sources at hand, and the values of [CONFIG]
    are settings, so the behaviours of the former and the values of the
    latter are left open; each capability may depend on and change the
    state [W] of the world.

    The values parsed from a model response have type [any]: the code
    returns them as [SerpQuery[]] and [string[]] with no run-time check.
    [readSerpQuery] and [readString] are that reading of a parsed element
    at its declared type.

    [resumeNext] is the event loop at a point where several fetches of a
    batch are suspended: of that many, counted from the one suspended the
    longest, it tells which one is resumed (the number is taken modulo the
    number of suspended fetches).  Timers and responses decide this, so it
    is left to the world as well. *)
Record Env (W : Type) : Type := {
  rateLimitsEnabled : bool;
  contentFetch : Z;
  generateContent : str -> W -> result str * W;
  searchRatelimit : str -> W -> result bool * W;
  fetchContentRatelimit : str -> W -> result bool * W;
  search : str -> W -> result (list DuckDuckResult) * W;
  axiosGet : str -> W -> result str * W;
  intervalElapsed : W -> bool * W;
  dateNow : W -> Z * W;
  resumeNext : nat -> W -> nat * W;
  readSerpQuery : Json.value -> SerpQuery;
  readString : Json.value -> str
}.

(** The module variable [totalJinaRequests], the world, and the trace. *)
Record State (W : Type) : Type := {
  totalJinaRequests : Z;
  world : W;
  trace : list event
}.

(** A computation returns or throws, in both cases with a new state;
    [None] is reserved for the bounds of the model: the recursion bound
    of [deepResearch], and the number of turns given to the fetches of a
    batch, which is never reached. *)
Definition M (W A : Type) : Type := State W -> option (result A * State W).

Section Monad.
Variable W : Type.
Variable env : Env W.

Definition ret {A} (a : A) : M W A := fun st => Some (Ok a, st).

Definition throw {A} (e : exn) : M W A := fun st => Some (Throw e, st).

Definition bind {A B} (m : M W A) (k : A -> M W B) : M W B :=
  fun st =>
    match m st with
    | None => None
    | Some (Ok a, st') => k a st'
    | Some (Throw e, st') => Some (Throw e, st')
    end.

(** [try { m } catch (e) { h e }] *)
Definition tryCatch {A} (m : M W A) (h : exn -> M W A) : M W A :=
  fun st =>
    match m st with
    | None => None
    | Some (Ok a, st') => Some (Ok a, st')
    | Some (Throw e, st') => h e st'
    end.

Definition emit (e : event) : M W unit :=
  fun st =>
    Some (Ok tt, {| totalJinaRequests := totalJinaRequests st;
                    world := world st;
                    trace := trace st ++ [e] |}).

(** The code is suspended on a timer or on the network: the callback of
    [setInterval(() => { totalJinaRequests = 0 }, 60000)] may run. *)
Definition suspend : M W unit :=
  fun st =>
    let (fired, w) := intervalElapsed env (world st) in
    Some (Ok tt, {| totalJinaRequests :=
                      if fired then 0%Z else totalJinaRequests st;
                    world := w;
                    trace := trace st |}).

(** [await new Promise(resolve => setTimeout(resolve, ms))] *)
Definition delay : M W unit :=
  bind (emit EvDelay) (fun _ => suspend).

(** Awaiting a capability of the world. *)
Definition await {A} (ev : event) (f : W -> result A * W) : M W A :=
  bind (emit ev) (fun _ =>
  fun st =>
    let (r, w) := f (world st) in
    let st' := {| totalJinaRequests := totalJinaRequests st;
                  world := w;
                  trace := trace st |} in
    match suspend st' with
    | Some (_, st'') => Some (r, st'')
    | None => None
    end).

(** The first half of an [await] of a capability: the request is made, and
    the outcome is what the caller finds when it is resumed. *)
Definition request {A} (f : W -> result A * W) : M W (result A) :=
  fun st =>
    let (r, w) := f (world st) in
    Some (Ok r, {| totalJinaRequests := totalJinaRequests st;
                   world := w;
                   trace := trace st |}).

(** The event loop resumes one of [n] suspended computations. *)
Definition pickNext (n : nat) : M W nat :=
  fun st =>
    let (k, w) := resumeNext env n (world st) in
    Some (Ok (k mod n), {| totalJinaRequests := totalJinaRequests st;
                           world := w;
                           trace := trace st |}).

Definition getTotal : M W Z := fun st => Some (Ok (totalJinaRequests st), st).

Definition setTotal (n : Z) : M W unit :=
  fun st =>
    Some (Ok tt, {| totalJinaRequests := n;
                    world := world st;
                    trace := trace st |}).

(** [Date.now()] *)
Definition now : M W Z :=
  fun st =>
    let (t, w) := dateNow env (world st) in
    Some (Ok t, {| totalJinaRequests := totalJinaRequests st;
                   world := w;
                   trace := trace st |}).

End Monad.

Arguments ret {W A} a.
Arguments throw {W A} e.
Arguments bind {W A B} m k.
Arguments tryCatch {W A} m h.
Arguments emit {W} e.
Arguments getTotal {W}.
Arguments setTotal {W} n.
Arguments request {W A} f.

Declare Scope route_scope.
Delimit Scope route_scope with route.
Notation "x <- m ;; k" := (bind m (fun x => k))
  (at level 61, m at next level, right associativity) : route_scope.
Notation "m ;; k" := (bind m (fun _ => k))
  (at level 61, right associativity) : route_scope.

End Effects.

(** ** The deep-search route *)

Module Route.
Import Js Effects.
Local Open Scope route_scope.

Record ProcessedResult : Type := {
  pr_learnings : list str;
  followUpQuestions : list str
}.

Record ResearchResult : Type := {
  learnings : list str;
  visitedUrls : list str;
  errors : list str
}.

(** [Math.ceil(breadth / 2)] on an integer. *)
Definition ceilHalf (breadth : Z) : Z := ((breadth + 1) / 2)%Z.

(** [[...new Set(l)]]: the distinct values of [l], each at the place of
    its first occurrence. *)
Fixpoint spreadSetFrom (seen : list str) (l : list str) : list str :=
  match l with
  | [] => []
  | x :: l' =>
    if existsb (eqb x) seen then spreadSetFrom seen l'
    else x :: spreadSetFrom (x :: seen) l'
  end.

Definition spreadSet (l : list str) : list str := spreadSetFrom [] l.

(** [l.filter(item => item !== null)] *)
Fixpoint nonNull {A} (l : list (option A)) : list A :=
  match l with
  | [] => []
  | Some x :: l' => x :: nonNull l'
  | None :: l' => nonNull l'
  end.

(** lodash [compact] on strings: the empty string is the only falsy one. *)
Definition compact (l : list str) : list str :=
  filter (fun s => match s with [] => false | _ :: _ => true end) l.

Definition quoted (s : str) : str := QUOTE :: s ++ [QUOTE].

Definition serpQueriesPrompt (query : str) (numQueries : Z)
    (learnings : option (list str)) : str :=
  lit "Given the following prompt from the user, generate a list of SERP queries to research the topic. Return a maximum of "
  ++ ofZ numQueries
  ++ lit " queries, but feel free to return less if the original prompt is clear. Make sure each query is unique and not similar to each other. Return the response in JSON format with a "
  ++ quoted (lit "queries")
  ++ lit " array containing objects with "
  ++ quoted (lit "query") ++ lit " and " ++ quoted (lit "researchGoal")
  ++ lit " properties: <prompt>" ++ query ++ lit "</prompt>" ++ [LF; LF]
  ++ match learnings with
     | Some l =>
       lit "Here are some learnings from previous research, use them to generate more specific queries: "
       ++ join [LF] l
     | None => []
     end.

Definition serpResultPrompt (query : str) (contents : list str)
    (numLearnings numFollowUpQuestions : Z) : str :=
  lit "Given the following contents from a SERP search for the query <query>"
  ++ query
  ++ lit "</query>, generate a list of learnings and follow-up questions. Return the response in JSON format with a "
  ++ quoted (lit "learnings") ++ lit " array (max " ++ ofZ numLearnings
  ++ lit " items) and a " ++ quoted (lit "followUpQuestions")
  ++ lit " array (max " ++ ofZ numFollowUpQuestions
  ++ lit " items). The learnings should be concise and information-dense, including any entities, metrics, numbers, or dates."
  ++ [LF; LF] ++ lit "Contents:" ++ [LF]
  ++ join [LF]
       (map (fun content =>
               lit "<content>" ++ [LF] ++ content ++ [LF] ++ lit "</content>")
            contents)
  ++ [LF; LF] ++ lit "Return your response in this exact JSON format:" ++ [LF]
  ++ lit "{" ++ [LF]
  ++ lit "  " ++ quoted (lit "learnings") ++ lit ": [" ++ [LF]
  ++ lit "    " ++ quoted (lit "Learning 1") ++ lit "," ++ [LF]
  ++ lit "    " ++ quoted (lit "Learning 2") ++ lit "," ++ [LF]
  ++ lit "    " ++ quoted (lit "Learning 3") ++ [LF]
  ++ lit "  ]," ++ [LF]
  ++ lit "  " ++ quoted (lit "followUpQuestions") ++ lit ": [" ++ [LF]
  ++ lit "    " ++ quoted (lit "Question 1?") ++ lit "," ++ [LF]
  ++ lit "    " ++ quoted (lit "Question 2?") ++ lit "," ++ [LF]
  ++ lit "    " ++ quoted (lit "Question 3?") ++ [LF]
  ++ lit "  ]" ++ [LF]
  ++ lit "}".

(** The [try] block of [generateSerpQueries] after the response has
    arrived: first up to the check that [parsed.queries] is an array, then
    the [slice].  [None] stands for any of the errors thrown inside the
    block, which its [catch] replaces by one and the same error. *)
Definition queriesArray (response : str) : option (list Json.value) :=
  match Extract.jsonOf response with
  | None => None
  | Some jsonStr =>
    match Json.parse jsonStr with
    | None => None
    | Some parsed =>
      match Json.get parsed (lit "queries") with
      | Some (Json.JArray queries) => Some queries
      | _ => None
      end
    end
  end.

Definition parseQueries (response : str) (numQueries : Z)
    : option (list Json.value) :=
  match queriesArray response with
  | Some queries => Some (slice0 queries numQueries)
  | None => None
  end.

(** The [try] block of [processSerpResult] in the same way. *)
Definition parseLearnings (response : str)
    (numLearnings numFollowUpQuestions : Z)
    : option (list Json.value * list Json.value) :=
  match Extract.jsonOf response with
  | None => None
  | Some jsonStr =>
    match Json.parse jsonStr with
    | None => None
    | Some parsed =>
      match Json.get parsed (lit "learnings"),
            Json.get parsed (lit "followUpQuestions") with
      | Some (Json.JArray ls), Some (Json.JArray fs) =>
        Some (slice0 ls numLearnings, slice0 fs numFollowUpQuestions)
      | _, _ => None
      end
    end
  end.

Section Route.
Variable W : Type.
Variable env : Env W.

Notation M := (Effects.M W).
Notation await := (Effects.await env).
Notation delay := (Effects.delay env).

Definition generateSerpQueries (query : str) (numQueries : Z)
    (learnings : option (list str)) : M (list SerpQuery) :=
  let prompt := serpQueriesPrompt query numQueries learnings in
  response <- await (EvModel prompt) (generateContent env prompt) ;;
  match parseQueries response numQueries with
  | Some queries => ret (map (readSerpQuery env) queries)
  | None => throw (Error (lit "Failed to generate search queries"))
  end.

Definition safeDuckDuckSearch (query : str) : M (list DuckDuckResult) :=
  (if rateLimitsEnabled env then
     success <- await (EvLimit SearchLimiter query) (searchRatelimit env query) ;;
     if negb success
     then throw (Error (lit "DuckDuckGo search rate limit exceeded"))
     else ret tt
   else ret tt) ;;
  delay ;;
  await (EvSearch query) (search env query).

Definition fetchJinaContent (url : str) : M str :=
  emit (EvFetchJinaContent url) ;;
  total <- getTotal ;;
  if (contentFetch env <=? total)%Z
  then throw (Error (lit "Global Jina rate limit exceeded"))
  else
    setTotal (total + 1) ;;
    (if rateLimitsEnabled env then
       success <- await (EvLimit FetchContentLimiter url)
                        (fetchContentRatelimit env url) ;;
       if negb success
       then throw (Error (lit "Jina AI content fetch rate limit exceeded"))
       else ret tt
     else ret tt) ;;
    tryCatch (await (EvHttpGet url) (axiosGet env url))
      (fun error =>
         if isAxios429 error
         then throw (Error (lit "Jina AI content fetch rate limit exceeded"))
         else throw error).

Definition searchMaxRetries : nat := 3.
Definition fetchMaxRetries : nat := 2.

(** The loop [while (retries < maxRetries)] of
    [executeDuckDuckSearchWithRetry], by recursion on
    [maxRetries - retries]. *)
Fixpoint searchLoop (remaining : nat) (query : str)
    : M (list DuckDuckResult) :=
  match remaining with
  | O =>
    throw (Error (lit "DuckDuckGo search failed after "
                  ++ ofZ (Z.of_nat searchMaxRetries) ++ lit " retries"))
  | S k =>
    tryCatch (safeDuckDuckSearch query)
      (fun error =>
         if isRateLimit error then delay ;; searchLoop k query
         else throw error)
  end.

Definition executeDuckDuckSearchWithRetry (query : str)
    : M (list DuckDuckResult) :=
  searchLoop searchMaxRetries query.

(** The same loop in [fetchJinaContentWithRetry]. *)
Fixpoint fetchLoop (remaining : nat) (url : str) : M str :=
  match remaining with
  | O =>
    throw (Error (lit "Jina content fetch failed after "
                  ++ ofZ (Z.of_nat fetchMaxRetries) ++ lit " retries"))
  | S k =>
    tryCatch (fetchJinaContent url)
      (fun error =>
         if isRateLimit error then delay ;; fetchLoop k url
         else throw error)
  end.

Definition fetchJinaContentWithRetry (url : str) : M str :=
  delay ;;
  fetchLoop fetchMaxRetries url.

Definition processSerpResult (query : str) (data : list Content)
    (numLearnings numFollowUpQuestions : Z) : M ProcessedResult :=
  emit (EvProcessSerpResult query data) ;;
  let contents := compact (map markdown data) in
  let prompt :=
    serpResultPrompt query contents numLearnings numFollowUpQuestions in
  response <- await (EvModel prompt) (generateContent env prompt) ;;
  match parseLearnings response numLearnings numFollowUpQuestions with
  | Some (ls, fs) =>
    ret {| pr_learnings := map (readString env) ls;
           followUpQuestions := map (readString env) fs |}
  | None => throw (Error (lit "Failed to process search results"))
  end.

(** *** The fetches of a batch

    [limitedResults.map(async (result) => ...)] calls
    [fetchJinaContentWithRetry] for every result before any of the calls
    goes on: each call runs up to its first [await] and is suspended there.
    From then on the fetches take turns, one of them running from the
    [await] it is suspended at to its next one, all of them on the one
    [totalJinaRequests].

    A suspended fetch is described by the [await] it is at.  At a timer,
    [remaining] is [maxRetries - retries] for the iterations of the loop
    still to come; at the rate limiter and at the request, it is that
    number once the running iteration is over, and [answer] is what the
    awaited promise settles with. *)
Inductive pending : Type :=
| AtTimer (remaining : nat)
| AtLimiter (remaining : nat) (answer : result bool)
| AtGet (remaining : nat) (answer : result str).

(** A fetch between two turns: suspended, or over with what
    [fetchJinaContentWithRetry] returned or threw. *)
Inductive phase : Type :=
| Pending (p : pending)
| Settled (outcome : result str).

(** The [catch] block of the loop of [fetchJinaContentWithRetry], up to
    its [await]. *)
Definition caught (remaining : nat) (error : exn) : M phase :=
  if isRateLimit error
  then emit EvDelay ;; ret (Pending (AtTimer remaining))
  else ret (Settled (Throw error)).

(** [fetchJinaContent] from its [try] block to the [await] in it. *)
Definition requestGet (remaining : nat) (url : str) : M phase :=
  emit (EvHttpGet url) ;;
  answer <- request (axiosGet env url) ;;
  ret (Pending (AtGet remaining answer)).

(** The loop from its test to the first [await] of the iteration. *)
Definition enterLoop (remaining : nat) (url : str) : M phase :=
  match remaining with
  | O =>
    ret (Settled
           (Throw (Error (lit "Jina content fetch failed after "
                          ++ ofZ (Z.of_nat fetchMaxRetries)
                          ++ lit " retries"))))
  | S k =>
    emit (EvFetchJinaContent url) ;;
    total <- getTotal ;;
    if (contentFetch env <=? total)%Z
    then caught k (Error (lit "Global Jina rate limit exceeded"))
    else
      setTotal (total + 1) ;;
      if rateLimitsEnabled env then
        emit (EvLimit FetchContentLimiter url) ;;
        answer <- request (fetchContentRatelimit env url) ;;
        ret (Pending (AtLimiter k answer))
      else requestGet k url
  end.

(** One turn of a suspended fetch: from the [await] it is at to the next
    one, or to the end of [fetchJinaContentWithRetry]. *)
Definition resume (url : str) (p : pending) : M phase :=
  suspend env ;;
  match p with
  | AtTimer remaining => enterLoop remaining url
  | AtLimiter remaining answer =>
    match answer with
    | Ok success =>
      if negb success
      then caught remaining
             (Error (lit "Jina AI content fetch rate limit exceeded"))
      else requestGet remaining url
    | Throw error => caught remaining error
    end
  | AtGet remaining answer =>
    match answer with
    | Ok data => ret (Settled (Ok data))
    | Throw error =>
      caught remaining
        (if isAxios429 error
         then Error (lit "Jina AI content fetch rate limit exceeded")
         else error)
    end
  end.

(** The call of [fetchJinaContentWithRetry], up to its first [await]. *)
Definition startFetch (url : str) : M pending :=
  emit EvDelay ;;
  ret (AtTimer fetchMaxRetries).

(** The turns a fetch can take: one after the first timer and, in each of
    the two iterations, one after the rate limiter, one after the request
    and one after the timer of the [catch] block. *)
Definition fetchTurns : nat := 7.

(** What an element of [contentPromises] is fulfilled with: the content
    of the result, or [null] when fetching it threw. *)
Definition contentOf (result : DuckDuckResult) (outcome : Effects.result str)
    : option Content :=
  match outcome with
  | Ok md => Some {| c_url := url result; markdown := md |}
  | Throw _ => None
  end.

(** A suspended element of [contentPromises]: its index, its result and
    the [await] its fetch is at. *)
Record fetching : Type := {
  f_index : nat;
  f_result : DuckDuckResult;
  f_at : pending
}.

Fixpoint startFetches (index : nat) (limitedResults : list DuckDuckResult)
    : M (list fetching) :=
  match limitedResults with
  | [] => ret []
  | result :: rest =>
    p <- startFetch (url result) ;;
    others <- startFetches (S index) rest ;;
    ret ({| f_index := index; f_result := result; f_at := p |} :: others)
  end.

(** [l] without its element at index [k]. *)
Definition without {A} (k : nat) (l : list A) : list A :=
  firstn k l ++ skipn (S k) l.

(** The turns of the fetches of a batch until all of them are over.
    [suspended] holds the fetches still running, the one suspended the
    longest first; [fulfilled] holds, by index, what the promises that are
    over were fulfilled with. *)
Fixpoint runFetches (fuel : nat) (suspended : list fetching)
    (fulfilled : list (nat * option Content))
    : M (list (nat * option Content)) :=
  match suspended with
  | [] => ret fulfilled
  | first :: _ =>
    match fuel with
    | O => fun _ => None
    | S fuel' =>
      k <- pickNext env (length suspended) ;;
      let f := nth k suspended first in
      let others := without k suspended in
      ph <- resume (url (f_result f)) (f_at f) ;;
      match ph with
      | Pending p =>
        runFetches fuel'
          (others ++ [{| f_index := f_index f;
                         f_result := f_result f;
                         f_at := p |}])
          fulfilled
      | Settled outcome =>
        runFetches fuel' others
          ((f_index f, contentOf (f_result f) outcome) :: fulfilled)
      end
    end
  end.

(** The value of the promise with the given index. *)
Fixpoint valueAt (index : nat) (fulfilled : list (nat * option Content))
    : option Content :=
  match fulfilled with
  | [] => None
  | (i, value) :: rest =>
    if Nat.eqb i index then value else valueAt index rest
  end.

(** [Promise.all]: the values in the order of the promises. *)
Definition promiseAll (n : nat) (fulfilled : list (nat * option Content))
    : list (option Content) :=
  map (fun index => valueAt index fulfilled) (seq 0 n).

Definition spaces (n : nat) : str := repeat 32%N n.

Definition nextQueryOf (serpQuery : SerpQuery)
    (processedResult : ProcessedResult) : str :=
  trim ([LF] ++ spaces 14 ++ lit "Previous research goal: "
        ++ researchGoal serpQuery ++ [LF]
        ++ spaces 14 ++ lit "Follow-up research directions: "
        ++ join [LF] (followUpQuestions processedResult) ++ [LF]
        ++ spaces 12).

(** The type of [deepResearch] with its five named arguments. *)
Definition research : Type :=
  str -> Z -> Z -> list str -> list str -> M ResearchResult.

(** [contentPromises] awaited together and filtered: the fetches are
    started in the order of the results, take their turns as the event
    loop resumes them, and the contents that could be fetched are returned
    in the order of the results. *)
Definition fetchContents (limitedResults : list DuckDuckResult)
    : M (list Content) :=
  suspended <- startFetches 0 limitedResults ;;
  fulfilled <- runFetches (fetchTurns * length suspended) suspended [] ;;
  ret (nonNull (promiseAll (length limitedResults) fulfilled)).

(** What the [try] block of a sub-query returns: a result of its own, or
    the promise of the recursive call.  The block returns that promise
    without awaiting it ([return deepResearch({...})]), so a rejection of
    the recursive call is not seen by the [catch] block of the
    sub-query. *)
Inductive returned : Type :=
| OwnResult (r : ResearchResult)
| RecursiveCall (nextQuery : str) (newBreadth newDepth : Z)
    (allLearnings allUrls : list str).

(** The [try] block of one sub-query from the comment Process results on,
    inside the invocation with the given [breadth], [depth], [learnings]
    and [visitedUrls]. *)
Definition processResults (breadth depth : Z)
    (learnings visitedUrls : list str) (serpQuery : SerpQuery)
    (contents : list Content) : M returned :=
  let newUrls := map c_url contents in
  let newBreadth := ceilHalf breadth in
  let newDepth := (depth - 1)%Z in
  processedResult <-
    processSerpResult (query serpQuery) contents 3 newBreadth ;;
  let allLearnings := learnings ++ pr_learnings processedResult in
  let allUrls := visitedUrls ++ newUrls in
  if (0 <? newDepth)%Z then
    ret (RecursiveCall (nextQueryOf serpQuery processedResult)
                       newBreadth newDepth allLearnings allUrls)
  else
    ret (OwnResult {| learnings := allLearnings;
                      visitedUrls := allUrls;
                      errors := [] |}).

(** The whole [try] block of one sub-query. *)
Definition branchTry (breadth depth : Z)
    (learnings visitedUrls : list str) (serpQuery : SerpQuery)
    : M returned :=
  searchResults <- executeDuckDuckSearchWithRetry (query serpQuery) ;;
  let limitedResults := firstn 5 searchResults in
  contents <- fetchContents limitedResults ;;
  processResults breadth depth learnings visitedUrls serpQuery contents.

Definition branchErrorMsg (serpQuery : SerpQuery) (error : exn) : str :=
  lit "Failed to process query " ++ quoted (query serpQuery) ++ lit ": "
  ++ describe error.

(** The promise of a sub-query settles with what the [try] or [catch]
    block returned: at once for a result, and with the outcome of the
    recursive call for a call; [self] is the function called at
    [return deepResearch({...})]. *)
Definition settle (self : research) (x : returned) : M ResearchResult :=
  match x with
  | OwnResult r => ret r
  | RecursiveCall nextQuery newBreadth newDepth allLearnings allUrls =>
    self nextQuery newBreadth newDepth allLearnings allUrls
  end.

(** One sub-query with its [catch] block.  [errors] is the array declared
    at the top of [deepResearch], which the [catch] block pushes to. *)
Definition branch (self : research) (breadth depth : Z)
    (learnings visitedUrls : list str) (errors : list str)
    (serpQuery : SerpQuery) : M (ResearchResult * list str) :=
  p <- tryCatch
         (x <- branchTry breadth depth learnings visitedUrls serpQuery ;;
          ret (x, errors))
         (fun error =>
            let errorMsg := branchErrorMsg serpQuery error in
            ret (OwnResult {| learnings := [];
                              visitedUrls := [];
                              errors := [errorMsg] |},
                 errors ++ [errorMsg])) ;;
  r <- settle self (fst p) ;;
  ret (r, snd p).

(** [await Promise.all(serpQueries.map(q => limit(...)))] with the
    concurrency limit of 1: the sub-queries run one after the other, in
    order.  When the promise of a sub-query rejects, [Promise.all] rejects
    and so does the invocation; the sub-queries still waiting in the queue
    then run detached from it, which the model leaves out. *)
Fixpoint runBranches (self : research) (breadth depth : Z)
    (learnings visitedUrls : list str) (errors : list str)
    (serpQueries : list SerpQuery) : M (list ResearchResult * list str) :=
  match serpQueries with
  | [] => ret ([], errors)
  | serpQuery :: rest =>
    p <- branch self breadth depth learnings visitedUrls errors serpQuery ;;
    q <- runBranches self breadth depth learnings visitedUrls (snd p) rest ;;
    ret (fst p :: fst q, snd q)
  end.

Definition aggregate (results : list ResearchResult) (errors : list str)
    : ResearchResult :=
  {| learnings := spreadSet (flat_map learnings results);
     visitedUrls := spreadSet (flat_map visitedUrls results);
     errors := errors ++ flat_map Route.errors results |}.

Definition deepResearchBody (self : research) (query : str)
    (breadth depth : Z) (learnings visitedUrls : list str)
    : M ResearchResult :=
  emit (EvDeepResearch query breadth depth) ;;
  serpQueries <-
    tryCatch (generateSerpQueries query breadth (Some learnings))
      (fun _ =>
         throw (Error (lit "Failed to generate initial search queries"))) ;;
  p <- runBranches self breadth depth learnings visitedUrls [] serpQueries ;;
  ret (aggregate (fst p) (snd p)).

(** [deepResearch]; [fuel] bounds the number of nested invocations, the
    outermost one included. *)
Fixpoint deepResearch (fuel : nat) : research :=
  match fuel with
  | O => fun _ _ _ _ _ _ => None
  | S f => deepResearchBody (deepResearch f)
  end.

(** The number of nested invocations a call with [depth] can reach. *)
Definition levels (depth : Z) : nat := Z.to_nat (Z.max 1 depth).

(** *** The handler *)

(** The request: [None] when [request.json()] rejects; otherwise the
    fields the handler reads, an absent or empty [query] being [[]]. *)
Record DeepSearchRequest : Type := {
  rq_query : str;
  searchDepth : option Z;
  searchBreadth : option Z
}.

Record WebPage : Type := {
  id : str;
  wp_url : str;
  name : str;
  snippet : str
}.

Inductive payload : Type :=
| ErrorPayload (error : str)
| ResultPayload (webPages : list WebPage) (learnings errors : list str).

Record Response : Type := {
  status : Z;
  body : payload
}.

(** [learnings[index] || 'No learning available'] *)
Definition snippetOf (learnings : list str) (index : nat) : str :=
  match nth_error learnings index with
  | Some (c :: s) => c :: s
  | _ => lit "No learning available"
  end.

Fixpoint webPagesFrom (index : nat) (learnings urls : list str)
    : M (list WebPage) :=
  match urls with
  | [] => ret []
  | url :: rest =>
    t <- now env ;;
    pages <- webPagesFrom (S index) learnings rest ;;
    ret ({| id := lit "deep-" ++ ofZ t ++ lit "-" ++ ofZ (Z.of_nat index);
            wp_url := url;
            name := url;
            snippet := snippetOf learnings index |} :: pages)
  end.

(** The inner [catch] block, with the values of the variables [learnings]
    and [visitedUrls] of the handler at the time of the throw. *)
Definition onDeepSearchError (learnings visitedUrls : list str) (error : exn)
    : M Response :=
  let errorLearnings := learnings in
  let errorUrls := visitedUrls in
  match errorLearnings with
  | _ :: _ =>
    pages <- webPagesFrom O errorLearnings errorUrls ;;
    ret {| status := 200;
           body := ResultPayload pages errorLearnings [describe error] |}
  | [] =>
    ret {| status := 500;
           body := ErrorPayload (lit "Failed to perform deep search") |}
  end.

(** [const { query, searchDepth = 2, searchBreadth = 4 } = body] *)
Definition depthOf (rq : DeepSearchRequest) : Z :=
  match searchDepth rq with Some d => d | None => 2%Z end.

Definition breadthOf (rq : DeepSearchRequest) : Z :=
  match searchBreadth rq with Some b => b | None => 4%Z end.

(** The rate-limit check of the handler: [success], or [true] when rate
    limiting is not enabled. *)
Definition allowed (query : str) : M bool :=
  if rateLimitsEnabled env
  then await (EvLimit SearchLimiter query) (searchRatelimit env query)
  else ret true.

(** [POST] of the deep-search route.  The variables [learnings] and
    [visitedUrls] are assigned only after [deepResearch] has returned, and
    nothing after that point throws, so the [catch] block sees them
    empty. *)
Definition POST (request : option DeepSearchRequest) : M Response :=
  match request with
  | None =>
    ret {| status := 400; body := ErrorPayload (lit "Invalid request") |}
  | Some rq =>
    let query := rq_query rq in
    let searchDepth := depthOf rq in
    let searchBreadth := breadthOf rq in
    match query with
    | [] =>
      ret {| status := 400;
             body := ErrorPayload (lit "Query parameter is required") |}
    | _ :: _ =>
      tryCatch
        (success <- allowed query ;;
         if negb success then
           ret {| status := 429;
                  body := ErrorPayload (lit "Too many requests") |}
         else
           tryCatch
             (researchResult <-
                deepResearch (levels searchDepth) query
                             searchBreadth searchDepth [] [] ;;
              let learnings := learnings researchResult in
              let visitedUrls := visitedUrls researchResult in
              let errors := errors researchResult in
              pages <- webPagesFrom O learnings visitedUrls ;;
              ret {| status := 200;
                     body := ResultPayload pages learnings errors |})
             (onDeepSearchError [] []))
        (fun _ =>
           ret {| status := 400;
                  body := ErrorPayload (lit "Invalid request") |})
    end
  end.

End Route.

Arguments deepResearch {W} env fuel _ _ _ _ _ _.
Arguments POST {W} env request _.

End Route.

(** ** Concrete worlds

    Small deterministic worlds on which the route can be run.  The model
    always answers a request for search queries with the same three
    queries, the first and the last with the same text, and answers a
    request for learnings with [summary]; the search engine returns two
    results for every query, and the extractor fails on the second. *)

Module Scenario.
Import Js Effects Route.

Definition member (k v : str) : str := quoted k ++ lit ":" ++ quoted v.

Definition queryObject (q g : str) : str :=
  lit "{" ++ member (lit "query") q ++ lit ","
  ++ member (lit "researchGoal") g ++ lit "}".

Definition queriesResponse : str :=
  lit "Here are the queries:" ++ [LF] ++ lit "```json" ++ [LF]
  ++ lit "{ " ++ quoted (lit "queries") ++ lit ": ["
  ++ queryObject (lit "battery recycling") (lit "overview") ++ lit ", "
  ++ queryObject (lit "lithium recovery") (lit "processes") ++ lit ", "
  ++ queryObject (lit "battery recycling") (lit "economics")
  ++ lit "] }" ++ [LF] ++ lit "```".

Definition learningsResponse : str :=
  lit "{" ++ quoted (lit "learnings") ++ lit ": ["
  ++ quoted (lit "Recycling recovers 95% of cobalt") ++ lit ", "
  ++ quoted (lit "Hydrometallurgy dominates") ++ lit "], "
  ++ quoted (lit "followUpQuestions") ++ lit ": ["
  ++ quoted (lit "Which plants exist?") ++ lit "]}".

Definition noJsonResponse : str := lit "I could not find anything useful.".

Definition stringField (v : Json.value) (k : str) : str :=
  match Json.get v k with
  | Some (Json.JString s) => s
  | _ => []
  end.

Definition deadLink : str := lit "https://example.org/gone".

Definition scripted (summary : str) (limiterAllows : bool) (budget : Z)
    : Env unit :=
  {| rateLimitsEnabled := true;
     contentFetch := budget;
     generateContent := fun prompt w =>
       if startsWith (lit "Given the following prompt") prompt
       then (Ok queriesResponse, w)
       else (Ok summary, w);
     searchRatelimit := fun _ w => (Ok limiterAllows, w);
     fetchContentRatelimit := fun _ w => (Ok limiterAllows, w);
     search := fun q w =>
       (Ok [ {| url := lit "https://example.org/" ++ q;
                title := q; description := [] |};
             {| url := deadLink; title := []; description := [] |} ], w);
     axiosGet := fun u w =>
       if eqb u deadLink
       then (Throw (AxiosError (Some 404%Z)
                      (lit "Request failed with status code 404")), w)
       else (Ok (lit "Text of " ++ u), w);
     intervalElapsed := fun w => (false, w);
     dateNow := fun w => (1700000000000%Z, w);
     resumeNext := fun _ w => (O, w);
     readSerpQuery := fun v =>
       {| query := stringField v (lit "query");
          researchGoal := stringField v (lit "researchGoal") |};
     readString := fun v =>
       match v with
       | Json.JString s => s
       | _ => []
       end |}.

(** Everything works. *)
Definition healthy : Env unit := scripted learningsResponse true 20.

(** The model never produces a summary that can be parsed. *)
Definition noSummaries : Env unit := scripted noJsonResponse true 20.

(** The rate limiters refuse every request. *)
Definition throttled : Env unit := scripted learningsResponse false 20.

(** The budget of content requests is 2. *)
Definition exhausted : Env unit := scripted learningsResponse true 2.

(** The first result of the search for lithium recovery. *)
Definition lithiumPage : str := lit "https://example.org/lithium recovery".

Definition busyLink : str := lit "https://example.org/busy".

(** The search engine rejects every request as automated. *)
Definition blocked : Env unit :=
  {| rateLimitsEnabled := rateLimitsEnabled healthy;
     contentFetch := contentFetch healthy;
     generateContent := generateContent healthy;
     searchRatelimit := searchRatelimit healthy;
     fetchContentRatelimit := fetchContentRatelimit healthy;
     search := fun _ w =>
       (Throw (Error (lit "DDG detected an anomaly in the request")), w);
     axiosGet := axiosGet healthy;
     intervalElapsed := intervalElapsed healthy;
     dateNow := dateNow healthy;
     resumeNext := resumeNext healthy;
     readSerpQuery := readSerpQuery healthy;
     readString := readString healthy |}.

(** The extractor answers every request for [busyLink] with status 429. *)
Definition overloaded : Env unit :=
  {| rateLimitsEnabled := rateLimitsEnabled healthy;
     contentFetch := contentFetch healthy;
     generateContent := generateContent healthy;
     searchRatelimit := searchRatelimit healthy;
     fetchContentRatelimit := fetchContentRatelimit healthy;
     search := search healthy;
     axiosGet := fun u w =>
       if eqb u busyLink
       then (Throw (AxiosError (Some 429%Z)
                      (lit "Request failed with status code 429")), w)
       else axiosGet healthy u w;
     intervalElapsed := intervalElapsed healthy;
     dateNow := dateNow healthy;
     resumeNext := resumeNext healthy;
     readSerpQuery := readSerpQuery healthy;
     readString := readString healthy |}.

(** The model cannot produce queries for a follow-up prompt: it answers
    the first request for queries, and no request made one level down. *)
Definition noFollowUps : Env unit :=
  {| rateLimitsEnabled := rateLimitsEnabled healthy;
     contentFetch := contentFetch healthy;
     generateContent := fun prompt w =>
       if includes prompt (lit "Previous research goal")
       then (Ok noJsonResponse, w)
       else generateContent healthy prompt w;
     searchRatelimit := searchRatelimit healthy;
     fetchContentRatelimit := fetchContentRatelimit healthy;
     search := search healthy;
     axiosGet := axiosGet healthy;
     intervalElapsed := intervalElapsed healthy;
     dateNow := dateNow healthy;
     resumeNext := resumeNext healthy;
     readSerpQuery := readSerpQuery healthy;
     readString := readString healthy |}.

Definition start (total : Z) : State unit :=
  {| totalJinaRequests := total; world := tt; trace := [] |}.

Definition topic : str := lit "electric vehicle battery recycling".

(** The text with a stray quote, a raw line break inside a string and a
    trailing comma, and the same text corrected by hand. *)
Definition damagedText : str :=
  lit "{" ++ quoted (lit "title") ++ lit ": "
  ++ [QUOTE] ++ lit "The " ++ [QUOTE] ++ lit "best report" ++ [LF]
  ++ lit "of the year" ++ [QUOTE] ++ lit ", "
  ++ quoted (lit "sections") ++ lit ": [1, 2,]}".

Definition correctedText : str :=
  lit "{" ++ quoted (lit "title") ++ lit ": "
  ++ [QUOTE] ++ lit "The \" ++ [QUOTE] ++ lit "best report\n"
  ++ lit "of the year" ++ [QUOTE] ++ lit ", "
  ++ quoted (lit "sections") ++ lit ": [1, 2]}".

(** The damaged text after one repair pass: every quote of the text,
    those that delimit its keys and strings included, has a backslash
    before it. *)
Definition repairedText : str :=
  lit "{\" ++ [QUOTE] ++ lit "title\" ++ [QUOTE] ++ lit ": \" ++ [QUOTE]
  ++ lit "The \" ++ [QUOTE] ++ lit "best report\nof the year\" ++ [QUOTE]
  ++ lit ", \" ++ [QUOTE] ++ lit "sections\" ++ [QUOTE] ++ lit ": [1, 2]}".

Definition correctedValue : Json.value :=
  Json.JObject
    [ (lit "title",
       Json.JString (lit "The " ++ [QUOTE] ++ lit "best report" ++ [LF]
                     ++ lit "of the year"));
      (lit "sections", Json.JArray [Json.JNumber (lit "1");
                                    Json.JNumber (lit "2")]) ].

(** The message recorded for a sub-query whose summary could not be
    parsed, and the messages of the three sub-queries. *)
Definition summaryFailure (q : str) : str :=
  lit "Failed to process query " ++ quoted q
  ++ lit ": Failed to process search results".

Definition threeFailures : list str :=
  [ summaryFailure (lit "battery recycling");
    summaryFailure (lit "lithium recovery");
    summaryFailure (lit "battery recycling") ].

Definition threeQueries : list SerpQuery :=
  [ {| query := lit "battery recycling"; researchGoal := lit "overview" |};
    {| query := lit "lithium recovery"; researchGoal := lit "processes" |};
    {| query := lit "battery recycling"; researchGoal := lit "economics" |} ].

(** A request for one level of research with breadth 3. *)
Definition shallowRequest : DeepSearchRequest :=
  {| rq_query := topic; searchDepth := Some 1%Z; searchBreadth := Some 3%Z |}.

Fixpoint countAttempts (u : str) (evs : list event) : nat :=
  match evs with
  | [] => O
  | EvFetchJinaContent u' :: evs' =>
    if eqb u u' then S (countAttempts u evs') else countAttempts u evs'
  | _ :: evs' => countAttempts u evs'
  end.

End Scenario.

(** ** Describing runs *)

Module Run.
Import Js Effects Route.

(** The errors thrown by the two wrappers when their attempts are used
    up, and by [fetchJinaContent] when the global counter is. *)
Definition searchExhausted : exn :=
  Error (lit "DuckDuckGo search failed after 3 retries").

Definition fetchExhausted : exn :=
  Error (lit "Jina content fetch failed after 2 retries").

Definition globalBudgetExceeded : exn :=
  Error (lit "Global Jina rate limit exceeded").

(** The error of [safeDuckDuckSearch] when its rate limiter refuses. *)
Definition searchRateLimitExceeded : exn :=
  Error (lit "DuckDuckGo search rate limit exceeded").

Section Run.
Variable W : Type.
Variable env : Env W.

(** [st'] is reached from [st] by adding events, each of which
    satisfies [P]. *)
Definition extends (P : event -> Prop) (st st' : State W) : Prop :=
  exists evs, trace st' = trace st ++ evs /\ Forall P evs.

(** From every state the computation comes to an end, by returning or by
    throwing, and the events it adds satisfy [P]. *)
Definition finishes {A} (P : event -> Prop) (m : M W A) : Prop :=
  forall st, exists r st', m st = Some (r, st') /\ extends P st st'.

(** From every state the computation returns, with a value that
    satisfies [Q], and the events it adds satisfy [P]. *)
Definition returns {A} (P : event -> Prop) (Q : A -> Prop) (m : M W A)
    : Prop :=
  forall st, exists a st', m st = Some (Ok a, st') /\ extends P st st' /\ Q a.

(** A condition on the breadth and depth of the invocations of
    [deepResearch] in a trace; other events are unconstrained. *)
Definition invocations (R : Z -> Z -> Prop) (ev : event) : Prop :=
  match ev with
  | EvDeepResearch _ b d => R b d
  | _ => True
  end.

(** The breadth and depth [k] levels below an invocation with [breadth]
    and [depth], for the [k] that such an invocation can reach. *)
Definition below (breadth depth b' d' : Z) : Prop :=
  exists k : nat,
    (Z.of_nat k < Z.max 1 depth)%Z
    /\ d' = (depth - Z.of_nat k)%Z
    /\ b' = Nat.iter k ceilHalf breadth.

(** The state in which an invocation goes on after its first line. *)
Definition entered (q : str) (breadth depth : Z) (st : State W) : State W :=
  {| totalJinaRequests := totalJinaRequests st;
     world := world st;
     trace := trace st ++ [EvDeepResearch q breadth depth] |}.

(** The [try] block of every sub-query of the list throws, the sub-queries
    being run in order from the first state to the second. *)
Inductive allBranchesFail (breadth depth : Z)
    (learnings visitedUrls : list str)
    : list SerpQuery -> State W -> State W -> Prop :=
| allFail_nil st :
    allBranchesFail breadth depth learnings visitedUrls [] st st
| allFail_cons serpQuery rest st e st1 st2 :
    branchTry env breadth depth learnings visitedUrls serpQuery st
      = Some (Throw e, st1) ->
    allBranchesFail breadth depth learnings visitedUrls rest st1 st2 ->
    allBranchesFail breadth depth learnings visitedUrls
      (serpQuery :: rest) st st2.

(** The fetch of [url], suspended at [p], is over with [outcome] after
    some turns of its own.  Each turn is taken where the one before it
    ended or later, other code having run in between; the first is taken
    at [st] or later, and the last ends at [st'] or earlier. *)
Inductive settles (url : str) (st' : State W)
    : State W -> pending -> result str -> Prop :=
| settles_now st s p outcome s1 :
    extends (fun _ => True) st s ->
    resume env url p s = Some (Ok (Settled outcome), s1) ->
    extends (fun _ => True) s1 st' ->
    settles url st' st p outcome
| settles_later st s p p' s1 outcome :
    extends (fun _ => True) st s ->
    resume env url p s = Some (Ok (Pending p'), s1) ->
    settles url st' s1 p' outcome ->
    settles url st' st p outcome.

(** The contents a batch goes on with when the fetches of its results are
    over with the given outcomes: the fetched ones, in the order of the
    results. *)
Definition contentsOf (limitedResults : list DuckDuckResult)
    (outcomes : list (result str)) : list Content :=
  nonNull (map (fun p => contentOf (fst p) (snd p))
               (combine limitedResults outcomes)).

(** The fetch of the result at index [i] threw. *)
Definition failedAt (outcomes : list (result str)) (i : nat) : Prop :=
  exists e, nth_error outcomes i = Some (Throw e).

(** The turns a suspended fetch can still take. *)
Definition turnsLeft (p : pending) : nat :=
  match p with
  | AtTimer remaining => 3 * remaining + 1
  | AtLimiter remaining _ => 3 * remaining + 3
  | AtGet remaining _ => 3 * remaining + 2
  end.

Definition turnsAfter (ph : phase) : nat :=
  match ph with
  | Pending p => turnsLeft p
  | Settled _ => O
  end.

Definition queueTurns (suspended : list fetching) : nat :=
  list_sum (map (fun f => turnsLeft (f_at f)) suspended).

(** The fetches of the results, numbered from [index], as the calls of
    [fetchJinaContentWithRetry] leave them. *)
Definition started (index : nat) (limitedResults : list DuckDuckResult)
    : list fetching :=
  map (fun p => {| f_index := fst p;
                   f_result := snd p;
                   f_at := AtTimer fetchMaxRetries |})
      (combine (seq index (length limitedResults)) limitedResults).

(** A single fetch taking all its turns with nothing else running in
    between. *)
Fixpoint settleAlone (turns : nat) (url : str) (p : pending) : M W str :=
  match turns with
  | O => fun _ => None
  | S n =>
    bind (resume env url p) (fun ph =>
    match ph with
    | Pending p' => settleAlone n url p'
    | Settled (Ok data) => ret data
    | Settled (Throw error) => throw error
    end)
  end.

(** Attempts of [op] in a row, each throwing an error that is taken for a
    rate-limit error and each followed by the wait before the next
    attempt; the list holds the errors in the order they were thrown. *)
Inductive rateLimited {A} (op : M W A)
    : list exn -> State W -> State W -> Prop :=
| limited_nil st : rateLimited op [] st st
| limited_cons e es st st1 st2 st3 :
    op st = Some (Throw e, st1) ->
    isRateLimit e = true ->
    delay env st1 = Some (Ok tt, st2) ->
    rateLimited op es st2 st3 ->
    rateLimited op (e :: es) st st3.

(** The world after a wait. *)
Definition afterWait (w : W) : W := snd (intervalElapsed env w).

(** The loop shared by the two retrying wrappers. *)
Fixpoint retryLoop {A} (op : M W A) (exhausted : exn) (remaining : nat)
    : M W A :=
  match remaining with
  | O => throw exhausted
  | S k =>
    tryCatch op
      (fun error =>
         if isRateLimit error
         then bind (delay env) (fun _ => retryLoop op exhausted k)
         else throw error)
  end.

End Run.
End Run.

(** ** Accounting for what a run does *)

Module Account.
Import Js Effects Route.

(** The kinds of events of a trace. *)
Inductive kind : Type :=
| KDelay
| KLimit
| KSearch
| KHttpGet
| KModel
| KDeepResearch
| KFetchJinaContent
| KProcessSerpResult.

Definition kindOf (ev : event) : kind :=
  match ev with
  | EvDelay => KDelay
  | EvLimit _ _ => KLimit
  | EvSearch _ => KSearch
  | EvHttpGet _ => KHttpGet
  | EvModel _ => KModel
  | EvDeepResearch _ _ _ => KDeepResearch
  | EvFetchJinaContent _ => KFetchJinaContent
  | EvProcessSerpResult _ _ => KProcessSerpResult
  end.

Definition kind_eqb (a b : kind) : bool :=
  match a, b with
  | KDelay, KDelay | KLimit, KLimit | KSearch, KSearch
  | KHttpGet, KHttpGet | KModel, KModel | KDeepResearch, KDeepResearch
  | KFetchJinaContent, KFetchJinaContent
  | KProcessSerpResult, KProcessSerpResult => true
  | _, _ => false
  end.

(** The weight of a list of events, each kind of event having its own. *)
Definition weight (w : kind -> nat) (evs : list event) : nat :=
  list_sum (map (fun ev => w (kindOf ev)) evs).

(** The weighting that counts the events of one kind. *)
Definition only (k : kind) : kind -> nat :=
  fun k' => if kind_eqb k k' then 1%nat else 0%nat.


(** The number of events of a kind in a list of events. *)
Definition count (k : kind) (evs : list event) : nat := weight (only k) evs.

(** The events that [fetchJinaContent] records; every other function of
    the route records events outside this set. *)
Definition ofFetch (ev : event) : bool :=
  match ev with
  | EvFetchJinaContent _ | EvHttpGet _ | EvLimit FetchContentLimiter _ => true
  | _ => false
  end.

(** The most invocations of [deepResearch], and the most sub-queries, in
    a tree of invocations with the given number of levels: an invocation
    with breadth [b] has at most [b] sub-queries, each of which calls
    [deepResearch] at most once, with the breadth halved. *)
Fixpoint maxInvocations (levels : nat) (breadth : Z) : nat :=
  match levels with
  | O => O
  | S l => 1 + Z.to_nat breadth * maxInvocations l (ceilHalf breadth)
  end.

Fixpoint maxSubQueries (levels : nat) (breadth : Z) : nat :=
  match levels with
  | O => O
  | S l => Z.to_nat breadth * (1 + maxSubQueries l (ceilHalf breadth))
  end.

Section Costs.
Variable W : Type.
Variable env : Env W.
Variable w : kind -> nat.

(** A consultation of a rate limiter, made only when rate limiting is
    enabled. *)
Definition limitCost : nat :=
  if rateLimitsEnabled env then w KLimit else O.

(** One attempt of the search and of the content fetch. *)
Definition searchAttemptCost : nat := limitCost + w KDelay + w KSearch.

Definition fetchAttemptCost : nat :=
  w KFetchJinaContent + limitCost + w KHttpGet.

(** The two wrappers: every attempt may be followed by a wait. *)
Definition searchCost : nat :=
  searchMaxRetries * (searchAttemptCost + w KDelay).

Definition fetchCost : nat :=
  w KDelay + fetchMaxRetries * (fetchAttemptCost + w KDelay).

Definition summaryCost : nat := w KProcessSerpResult + w KModel.

(** One sub-query without the recursive call: a search, at most five
    fetches, a summary. *)
Definition subQueryCost : nat := searchCost + 5 * fetchCost + summaryCost.

(** One invocation without its sub-queries. *)
Definition invocationCost : nat := w KDeepResearch + w KModel.

Fixpoint researchCost (levels : nat) (breadth : Z) : nat :=
  match levels with
  | O => O
  | S l =>
    invocationCost
    + Z.to_nat breadth * (subQueryCost + researchCost l (ceilHalf breadth))
  end.

(** A relation between the states before and after a run, graded by a
    bound. *)
Definition graded : Type := nat -> State W -> State W -> Prop.

(** From every state the computation comes to an end, in a state
    related to the first at grade [n]. *)
Definition runs {A} (G : graded) (n : nat) (m : M W A) : Prop :=
  forall st, exists r st', m st = Some (r, st') /\ G n st st'.

(** The events added weigh at most the grade. *)
Definition weighs : graded :=
  fun n st st' =>
    exists evs, trace st' = trace st ++ evs /\ (weight w evs <= n)%nat.

(** The counter of content fetches stays within the configured budget,
    or where it was if that was beyond the budget. *)
Definition capped : graded :=
  fun _ st st' =>
    (totalJinaRequests st'
     <= Z.max (totalJinaRequests st) (Z.max 0 (contentFetch env)))%Z.

(** No rate limiter is consulted. *)
Definition unlimited : graded :=
  fun _ st st' =>
    exists evs, trace st' = trace st ++ evs /\ count KLimit evs = O.

(** Every request sent to the content extractor is paid for by an
    increment of the counter, and the counter does not pass the budget. *)
Definition metered : graded :=
  fun _ st st' =>
    exists evs,
      trace st' = trace st ++ evs
      /\ (Z.of_nat (count KHttpGet evs)
          <= totalJinaRequests st' - totalJinaRequests st)%Z
      /\ (totalJinaRequests st'
          <= Z.max (totalJinaRequests st) (contentFetch env))%Z.

(** *** The fetches of a batch

    The fetches of a batch take turns, so what one of them does is spread
    over the run of the batch.  A suspended fetch is given an allowance
    for what it may still do; a relation between four things, the
    allowances before and after and the states before and after, says that
    a part of a run keeps within the allowances. *)
Definition allowing : Type := nat -> nat -> State W -> State W -> Prop.

(** The sum of the allowances of the suspended fetches. *)
Definition allowance (each : pending -> nat) (suspended : list fetching)
    : nat :=
  list_sum (map (fun f => each (f_at f)) suspended).

(** What a suspended fetch may still add to the weight of the trace: the
    rest of the attempt it is in, the wait after it, and the attempts and
    waits to come. *)
Definition pendingCost (p : pending) : nat :=
  match p with
  | AtTimer remaining => remaining * (fetchAttemptCost + w KDelay)
  | AtLimiter remaining _ =>
    w KHttpGet + w KDelay + remaining * (fetchAttemptCost + w KDelay)
  | AtGet remaining _ =>
    w KDelay + remaining * (fetchAttemptCost + w KDelay)
  end.

(** The events added weigh at most what the allowance went down by. *)
Definition spends : allowing :=
  fun a b st st' =>
    exists evs, trace st' = trace st ++ evs /\ (weight w evs + b <= a)%nat.

(** A fetch that the rate limiter has let through has been counted and
    has not sent its request yet. *)
Definition prepaid (p : pending) : nat :=
  match p with
  | AtLimiter _ (Ok true) => 1%nat
  | _ => O
  end.

(** The requests sent to the content extractor and the prepaid ones are
    paid for by the increments of the counter and the ones prepaid before,
    and the counter does not pass the budget. *)
Definition pays : allowing :=
  fun a b st st' =>
    exists evs,
      trace st' = trace st ++ evs
      /\ (Z.of_nat (count KHttpGet evs + b)
          <= totalJinaRequests st' - totalJinaRequests st + Z.of_nat a)%Z
      /\ (totalJinaRequests st'
          <= Z.max (totalJinaRequests st) (contentFetch env))%Z.

End Costs.

End Account.

(** ** The configuration

    [CONFIG], which the routes import from [@/lib/config], as shipped.
    The function [search.getResultsPerPage] is used by the search route
    only and is left out. *)

Module Config.
Import Js Effects.

Record Model : Type := {
  m_enabled : bool;
  label : str
}.

Record Platform : Type := {
  p_enabled : bool;
  models : list (str * Model)
}.

Record Settings : Type := {
  rateLimits_enabled : bool;
  rateLimits_search : Z;
  rateLimits_contentFetch : Z;
  rateLimits_reportGeneration : Z;
  search_maxSelectableResults : Z;
  search_safeSearch : str;
  search_market : str;
  platforms : list (str * Platform)
}.

Definition CONFIG : Settings :=
  {| rateLimits_enabled := false;
     rateLimits_search := 2;
     rateLimits_contentFetch := 20;
     rateLimits_reportGeneration := 2;
     search_maxSelectableResults := 60;
     search_safeSearch := lit "Moderate";
     search_market := lit "en-US";
     platforms :=
       [ (lit "google",
          {| p_enabled := true;
             models :=
               [ (lit "gemini-flash",
                  {| m_enabled := true; label := lit "Gemini Flash" |});
                 (lit "gemini-flash-thinking",
                  {| m_enabled := true;
                     label := lit "Gemini Flash Thinking" |});
                 (lit "gemini-exp",
                  {| m_enabled := false; label := lit "Gemini Exp" |}) ] |});
         (lit "openai",
          {| p_enabled := false;
             models :=
               [ (lit "gpt-4o",
                  {| m_enabled := false; label := lit "GPT-4o" |});
                 (lit "o1-mini",
                  {| m_enabled := false; label := lit "o1-mini" |});
                 (lit "o1",
                  {| m_enabled := false; label := lit "o1" |}) ] |});
         (lit "anthropic",
          {| p_enabled := false;
             models :=
               [ (lit "sonnet-3.5",
                  {| m_enabled := false; label := lit "Claude 3 Sonnet" |});
                 (lit "haiku-3.5",
                  {| m_enabled := false; label := lit "Claude 3 Haiku" |}) ] |});
         (lit "deepseek",
          {| p_enabled := true;
             models :=
               [ (lit "chat",
                  {| m_enabled := true; label := lit "Chat" |});
                 (lit "reasoner",
                  {| m_enabled := true; label := lit "Reasoner" |}) ] |}) ] |}.

(** An environment of the deep-search route whose configuration is the
    one of [settings], everything else being as in [env]. *)
Definition configured {W} (settings : Settings) (env : Env W) : Env W :=
  {| rateLimitsEnabled := rateLimits_enabled settings;
     contentFetch := rateLimits_contentFetch settings;
     generateContent := generateContent env;
     searchRatelimit := searchRatelimit env;
     fetchContentRatelimit := fetchContentRatelimit env;
     search := search env;
     axiosGet := axiosGet env;
     intervalElapsed := intervalElapsed env;
     dateNow := dateNow env;
     resumeNext := resumeNext env;
     readSerpQuery := readSerpQuery env;
     readString := readString env |}.

End Config.

(** ** A world that recovers

    The state of this world is the number of requests that its rate
    limiters still refuse; everything else is as in the healthy world. *)

Module Recovering.
Import Js Effects.

Definition refusing (n : nat) : result bool * nat :=
  match n with
  | O => (Ok true, O)
  | S k => (Ok false, k)
  end.

Definition world : Env nat :=
  {| rateLimitsEnabled := true;
     contentFetch := 20;
     generateContent := fun prompt n =>
       (fst (generateContent Scenario.healthy prompt tt), n);
     searchRatelimit := fun _ n => refusing n;
     fetchContentRatelimit := fun _ n => refusing n;
     search := fun q n => (fst (search Scenario.healthy q tt), n);
     axiosGet := fun u n => (fst (axiosGet Scenario.healthy u tt), n);
     intervalElapsed := fun n => (false, n);
     dateNow := fun n => (fst (dateNow Scenario.healthy tt), n);
     resumeNext := fun _ n => (O, n);
     readSerpQuery := readSerpQuery Scenario.healthy;
     readString := readString Scenario.healthy |}.

Definition start (refusals : nat) : State nat :=
  {| totalJinaRequests := 0; Effects.world := refusals; trace := [] |}.

End Recovering.

(** ** The report routes: services and monad

    The two report routes call a rate limiter and the clients of four
    providers of language models, wait, and answer.  Their code is written
    in a monad of its own: a computation returns or throws, and records
    the calls it makes.  The routes have no recursion, so every
    computation comes to an end by construction. *)

Module Service.
Import Js Effects.

(** What a route does to the outside world, in order. *)
Inductive call : Type :=
| Wait (ms : Z)
| Limit (key : str)
| GeminiFlashThinking (prompt : str) (maxOutputTokens : Z)
| GeminiExp (prompt : str)
| GeminiFlash (prompt : str)
| OpenAI (model prompt : str) (max_tokens : Z)
| DeepSeek (model prompt : str) (max_tokens : Z)
| Anthropic (model prompt : str) (max_tokens : Z).

(** The calls that ask a language model. *)
Definition asksModel (c : call) : bool :=
  match c with
  | Wait _ | Limit _ => false
  | _ => true
  end.

(** The calls to Gemini Flash, to Gemini Flash Thinking and to DeepSeek,
    and the pauses. *)
Definition flashOrDeepSeek (c : call) : bool :=
  match c with
  | Wait _ | GeminiFlashThinking _ _ | GeminiFlash _ | DeepSeek _ _ _ => true
  | _ => false
  end.

(** The clients.  A Gemini model gives the text of its response.  The
    chat completions of OpenAI and DeepSeek give the [message.content] of
    each of their [choices], which may be [null]; the messages of
    Anthropic give the [text] of each block of [content], which a block may
    lack.  Every client may throw instead. *)
Record Services (W : Type) : Type := {
  reportContentRatelimit : str -> W -> result bool * W;
  geminiFlashThinkingModel : str -> Z -> W -> result str * W;
  geminiModel : str -> W -> result str * W;
  geminiFlashModel : str -> W -> result str * W;
  openai : str -> str -> Z -> W -> result (list (option str)) * W;
  deepseek : str -> str -> Z -> W -> result (list (option str)) * W;
  anthropic : str -> str -> Z -> W -> result (list (option str)) * W
}.

Record State (W : Type) : Type := {
  world : W;
  calls : list call
}.

Definition M (W A : Type) : Type := State W -> result A * State W.

Section Monad.
Variable W : Type.

Definition ret {A} (a : A) : M W A := fun st => (Ok a, st).

Definition throw {A} (e : exn) : M W A := fun st => (Throw e, st).

Definition bind {A B} (m : M W A) (k : A -> M W B) : M W B :=
  fun st =>
    match m st with
    | (Ok a, st') => k a st'
    | (Throw e, st') => (Throw e, st')
    end.

(** [try { m } catch (e) { h e }] *)
Definition tryCatch {A} (m : M W A) (h : exn -> M W A) : M W A :=
  fun st =>
    match m st with
    | (Ok a, st') => (Ok a, st')
    | (Throw e, st') => h e st'
    end.

(** Awaiting a client. *)
Definition await {A} (c : call) (f : W -> result A * W) : M W A :=
  fun st =>
    let (r, w) := f (world st) in
    (r, {| world := w; calls := calls st ++ [c] |}).

(** [await new Promise(resolve => setTimeout(resolve, ms))] *)
Definition wait (ms : Z) : M W unit :=
  fun st => (Ok tt, {| world := world st; calls := calls st ++ [Wait ms] |}).

End Monad.

Arguments ret {W A} a.
Arguments throw {W A} e.
Arguments bind {W A B} m k.
Arguments tryCatch {W A} m h.
Arguments await {W A} c f.
Arguments wait {W} ms.

Declare Scope service_scope.
Delimit Scope service_scope with service.
Notation "x <- m ;; k" := (bind m (fun x => k))
  (at level 61, m at next level, right associativity) : service_scope.
Notation "m ;; k" := (bind m (fun _ => k))
  (at level 61, right associativity) : service_scope.

Local Open Scope service_scope.

(** The calls that a computation adds all satisfy [Q]. *)
Definition calling {W A} (Q : call -> Prop) (m : M W A) : Prop :=
  forall st,
    exists cs, calls (snd (m st)) = calls st ++ cs /\ Forall Q cs.

(** The [TypeError] of reading a property of [undefined].  Its message
    is the engine's; no code of the routes reads it. *)
Definition cannotRead : exn :=
  Error (lit "Cannot read properties of undefined").

(** The rejection of [request.json()] on a body that is not JSON; no
    code of the routes reads it either. *)
Definition notJson : exn := Error (lit "Unexpected end of JSON input").

(** The [TypeError] of creating a property on a value that is not an
    object, in the strict mode of a module. *)
Definition cannotCreate : exn :=
  Error (lit "Cannot create property 'sources'").

(** [a || b] on strings. *)
Definition orElse (a b : str) : str :=
  match a with
  | [] => b
  | _ :: _ => a
  end.

(** [x || ''] on a string that may be [null] or [undefined]. *)
Definition orEmpty (x : option str) : str :=
  match x with
  | Some s => s
  | None => []
  end.

(** [retryJsonParse] of both routes with its pauses: the outcome is the
    one of [Repair.retryJsonParseFrom], reached after a pause of one
    second before every repair pass. *)
Fixpoint retryJsonParseFrom {W} (remaining : nat) (jsonMatch : str)
    : M W Json.value :=
  match Json.parse jsonMatch with
  | Some v => ret v
  | None =>
    match remaining with
    | S k =>
      wait 1000 ;;
      retryJsonParseFrom k (Repair.cleanJson jsonMatch)
    | O => throw (Error Repair.failureMessage)
    end
  end.

Definition retryJsonParse {W} (jsonMatch : str) : M W Json.value :=
  retryJsonParseFrom Repair.MAX_RETRIES jsonMatch.

(** [reportData.sources = sources] and what [NextResponse.json] then
    sends.  On an object the property is set: the member is added at the
    end, where a lookup finds it first.  On an array the property is set
    too, but the JSON text of an array has its elements only.  On any
    other value the assignment throws. *)
Definition assignSources (reportData sources : Json.value)
    : result Json.value :=
  match reportData with
  | Json.JObject members =>
    Ok (Json.JObject (members ++ [(lit "sources", sources)]))
  | Json.JArray items => Ok (Json.JArray items)
  | _ => Throw cannotCreate
  end.

Inductive payload : Type :=
| ErrorBody (error : str)
| ReportBody (reportData : Json.value).

Record Response : Type := {
  status : Z;
  body : payload
}.

Definition failure (code : Z) (error : string) : Response :=
  {| status := code; body := ErrorBody (lit error) |}.

(** The rate-limit check of a handler: [success], or [true] when rate
    limiting is not enabled. *)
Definition allowed {W} (services : Services W) (settings : Config.Settings)
    (key : string) : M W bool :=
  if Config.rateLimits_enabled settings
  then await (Limit (lit key)) (reportContentRatelimit services (lit key))
  else ret true.

(** The part shared by the two handlers, from the answer of the model
    on: the text from the first opening brace to the last closing brace is
    parsed, with repairs, and answered with the sources added. *)
Definition answerWith {W} (response : str) (sources : Json.value)
    : M W Response :=
  match Extract.matchBraces response with
  | None => ret (failure 500 "Invalid report format")
  | Some jsonMatch =>
    tryCatch
      (reportData <- retryJsonParse jsonMatch ;;
       match assignSources reportData sources with
       | Ok sent => ret {| status := 200; body := ReportBody sent |}
       | Throw e => throw e
       end)
      (fun _ =>
         ret (failure 500 "Failed to parse report format after retries"))
  end.

End Service.

(** ** The deep-report route *)

Module DeepReport.
Import Js Effects Service.
Local Open Scope service_scope.

Record Source : Type := {
  s_id : str;
  s_url : str;
  s_name : str
}.

Record Article : Type := {
  a_url : str;
  a_title : str;
  a_content : str
}.

(** The body of the request at its declared type. *)
Record DeepReportRequest : Type := {
  learnings : list str;
  sources : list Source;
  prompt : str;
  model : option str;
  citationStyle : option str;
  wordCount : option str
}.

(** [learnings.map((learning, index) => ...)] from [index] on. *)
Fixpoint articlesFrom (index : nat) (sources : list Source)
    (learnings : list str) : list Article :=
  match learnings with
  | [] => []
  | learning :: rest =>
    {| a_url :=
         match nth_error sources index with
         | Some s => orElse (s_url s) []
         | None => []
         end;
       a_title :=
         match nth_error sources index with
         | Some s => orElse (s_name s) (lit "Learning " ++ ofZ (Z.of_nat index + 1))
         | None => lit "Learning " ++ ofZ (Z.of_nat index + 1)
         end;
       a_content := learning |}
    :: articlesFrom (S index) sources rest
  end.

Definition sourceValue (s : Source) : Json.value :=
  Json.JObject [ (lit "id", Json.JString (s_id s));
                 (lit "url", Json.JString (s_url s));
                 (lit "name", Json.JString (s_name s)) ].

Definition orDefault (x : option str) (d : string) : str :=
  match x with
  | Some s => s
  | None => lit d
  end.

Section DeepReport.
Variable W : Type.
Variable services : Services W.
Variable settings : Config.Settings.

(** [generateSystemPrompt]: the text of the prompt is made of the
    articles, the request and numbers computed in floating point from the
    word count; it is left open here, and what is proved holds for every
    prompt. *)
Variable generateSystemPrompt : list Article -> str -> str -> str -> str.

Notation M := (Service.M W).

Definition POST (request : option DeepReportRequest) : M Response :=
  tryCatch
    (match request with
     | None => throw notJson
     | Some body =>
       let selectedResults := articlesFrom 0 (sources body) (learnings body) in
       success <- allowed services settings "deep-report" ;;
       if negb success then ret (failure 429 "Too many requests")
       else
         let systemPrompt :=
           generateSystemPrompt selectedResults (prompt body)
             (orDefault (citationStyle body) "APA 7th Edition")
             (orDefault (wordCount body) "1500") in
         tryCatch
           (response <-
              await (GeminiFlashThinking systemPrompt 8192)
                (geminiFlashThinkingModel services systemPrompt 8192) ;;
            answerWith response
              (Json.JArray (map sourceValue (sources body))))
           (fun _ => ret (failure 500 "Failed to generate report content"))
     end)
    (fun _ => ret (failure 500 "Failed to generate report")).

End DeepReport.

End DeepReport.

(** ** The report route *)

Module Report.
Import Js Effects Service.
Local Open Scope service_scope.

Definition Article : Type := DeepReport.Article.

(** The body of the request at its declared type; a field that may be
    left out is an option. *)
Record ReportRequest : Type := {
  selectedResults : list Article;
  sources : Json.value;
  prompt : str;
  platformModel : option str;
  citationStyle : option str;
  contentType : option str;
  slideCount : option str;
  wordCount : option str;
  maxTokens : option Z
}.

(** [s.split(sep)] for a separator that is not empty: [skip] counts the
    code units of the separator just found that are still to be passed
    over, and [acc] holds the current piece in reverse. *)
Fixpoint splitFrom (sep : str) (skip : nat) (acc : str) (s : str)
    : list str :=
  match s with
  | [] => [rev acc]
  | c :: rest =>
    match skip with
    | S k => splitFrom sep k acc rest
    | O =>
      if startsWith sep s
      then rev acc :: splitFrom sep (length sep - 1) [] rest
      else splitFrom sep O (c :: acc) rest
    end
  end.

Definition split (sep s : str) : list str := splitFrom sep O [] s.

(** The names that every object inherits from [Object.prototype]. *)
Definition objectPrototypeKeys : list str :=
  [ lit "constructor"; lit "__defineGetter__"; lit "__defineSetter__";
    lit "hasOwnProperty"; lit "__lookupGetter__"; lit "__lookupSetter__";
    lit "isPrototypeOf"; lit "propertyIsEnumerable"; lit "toString";
    lit "valueOf"; lit "__proto__"; lit "toLocaleString" ].

(** [obj[key]] on an object literal: a value of the literal, something
    inherited, or [undefined]. *)
Inductive property (A : Type) : Type :=
| Own (a : A)
| Inherited
| Absent.
Arguments Own {A} a.
Arguments Inherited {A}.
Arguments Absent {A}.

Fixpoint own {A} (obj : list (str * A)) (key : str) : option A :=
  match obj with
  | [] => None
  | (k, a) :: rest => if eqb key k then Some a else own rest key
  end.

Definition getProperty {A} (obj : list (str * A)) (key : str)
    : property A :=
  match own obj key with
  | Some a => Own a
  | None =>
    if existsb (eqb key) objectPrototypeKeys then Inherited else Absent
  end.

(** A string that may be [undefined], as a template literal and a
    property key have it. *)
Definition text (x : option str) : str :=
  match x with
  | Some s => s
  | None => lit "undefined"
  end.

(** [model === name] for a [model] that may be [undefined]. *)
Definition named (model : option str) (name : string) : bool :=
  match model with
  | Some m => eqb m (lit name)
  | None => false
  end.

(** [platformModel] with its default, and the two parts the handler
    takes from it: [platformModel.split('__')[0]] and
    [platformModel.split('__')[1]], the latter [undefined] when there is no
    second part. *)
Definition platformModelOf (body : ReportRequest) : str :=
  match platformModel body with
  | Some p => p
  | None => lit "google-gemini-flash"
  end.

Definition platformOf (body : ReportRequest) : str :=
  nth 0 (split (lit "__") (platformModelOf body)) [].

Definition modelOf (body : ReportRequest) : option str :=
  nth_error (split (lit "__") (platformModelOf body)) 1.

Section Report.
Variable W : Type.
Variable services : Services W.
Variable settings : Config.Settings.

(** The prompt: [generateSystemPrompt] of the handler applied to the
    request, with the replacement that follows it for a presentation.  It
    is made of the articles, the request and numbers read from text and
    computed in floating point; it is left open here, and what is proved
    holds for every prompt. *)
Variable systemPromptOf : ReportRequest -> str.

Notation M := (Service.M W).

Definition generateWithGemini (systemPrompt model : str) (maxTokens : Z)
    : M str :=
  if eqb model (lit "gemini-flash-thinking") then
    await (GeminiFlashThinking systemPrompt maxTokens)
      (geminiFlashThinkingModel services systemPrompt maxTokens)
  else if eqb model (lit "gemini-exp") then
    await (GeminiExp systemPrompt) (geminiModel services systemPrompt)
  else
    await (GeminiFlash systemPrompt) (geminiFlashModel services systemPrompt).

(** [response.choices[0].message.content] *)
Definition generateWithOpenAI (systemPrompt model : str) (maxTokens : Z)
    : M (option str) :=
  choices <- await (OpenAI model systemPrompt maxTokens)
               (openai services model systemPrompt maxTokens) ;;
  match choices with
  | [] => throw cannotRead
  | content :: _ => ret content
  end.

Definition deepSeekMaxRetries : Z := 3.

(** One pass through the [try] block of [generateWithDeepSeek]. *)
Definition deepSeekAttempt (systemPrompt model : str) (maxTokens : Z)
    : M str :=
  choices <- await (DeepSeek model systemPrompt maxTokens)
               (deepseek services model systemPrompt maxTokens) ;;
  match choices with
  | [] => throw cannotRead
  | content :: _ => ret (orEmpty content)
  end.

(** The loop [while (retryCount < maxRetries)] of [generateWithDeepSeek],
    by recursion on [maxRetries - retryCount]. *)
Fixpoint deepSeekLoop (remaining : nat) (retryCount : Z)
    (systemPrompt model : str) (maxTokens : Z) : M str :=
  match remaining with
  | O =>
    throw (Error (lit "Failed to get response from DeepSeek API after all retries"))
  | S k =>
    tryCatch (deepSeekAttempt systemPrompt model maxTokens)
      (fun error =>
         let retryCount := (retryCount + 1)%Z in
         if (retryCount <? deepSeekMaxRetries)%Z then
           wait (2 ^ retryCount * 1000) ;;
           deepSeekLoop k retryCount systemPrompt model maxTokens
         else throw error)
  end.

Definition generateWithDeepSeek (systemPrompt model : str) (maxTokens : Z)
    : M str :=
  deepSeekLoop (Z.to_nat deepSeekMaxRetries) 0 systemPrompt model maxTokens.

(** [response.content[0].text || ''] *)
Definition generateWithAnthropic (systemPrompt model : str) (maxTokens : Z)
    : M str :=
  content <- await (Anthropic model systemPrompt maxTokens)
               (anthropic services model systemPrompt maxTokens) ;;
  match content with
  | [] => throw cannotRead
  | block :: _ => ret (orEmpty block)
  end.

(** A string where the handler has a string or [null]. *)
Definition asNullable (m : M str) : M (option str) :=
  r <- m ;; ret (Some r).

(** [maxTokens || 8192] *)
Definition orDefaultTokens (maxTokens : Z) : Z :=
  if (maxTokens =? 0)%Z then 8192%Z else maxTokens.

(** The [switch (model)] of the handler. *)
Definition generate (systemPrompt : str) (model : option str)
    (maxTokens : Z) : M (option str) :=
  if named model "gemini-flash" then
    asNullable (generateWithGemini systemPrompt (lit "gemini-flash")
            (orDefaultTokens maxTokens))
  else if named model "gemini-flash-thinking" then
    asNullable (generateWithGemini systemPrompt (lit "gemini-flash-thinking")
            (orDefaultTokens maxTokens))
  else if named model "gemini-exp" then
    asNullable (generateWithGemini systemPrompt (lit "gemini-exp")
            (orDefaultTokens maxTokens))
  else if named model "gpt-4o" then
    generateWithOpenAI systemPrompt (lit "gpt-4o") maxTokens
  else if named model "o1-mini" then
    generateWithOpenAI systemPrompt (lit "o1-mini") maxTokens
  else if named model "o1" then
    generateWithOpenAI systemPrompt (lit "o1") maxTokens
  else if named model "sonnet-3.5" then
    asNullable (generateWithAnthropic systemPrompt
            (lit "claude-3-5-sonnet-latest") maxTokens)
  else if named model "haiku-3.5" then
    asNullable (generateWithAnthropic systemPrompt
            (lit "claude-3-5-haiku-latest") maxTokens)
  else if named model "chat" then
    asNullable (generateWithDeepSeek systemPrompt (lit "deepseek-chat") maxTokens)
  else if named model "reasoner" then
    asNullable (generateWithDeepSeek systemPrompt (lit "deepseek-reasoner")
            maxTokens)
  else throw (Error (lit "Invalid platform/model combination")).

(** The checks of the platform and of the model against [CONFIG]:
    the answer that turns the request down, if one does. *)
Definition refusal (platform : str) (model : option str)
    : option Response :=
  let notEnabled :=
    {| status := 400;
       body := ErrorBody (platform ++ lit " platform is not enabled") |} in
  match getProperty (Config.platforms settings) platform with
  | Own platformConfig =>
    if negb (Config.p_enabled platformConfig) then Some notEnabled
    else
      match getProperty (Config.models platformConfig) (text model) with
      | Own modelConfig =>
        if negb (Config.m_enabled modelConfig)
        then Some {| status := 400;
                     body := ErrorBody (text model ++ lit " model is disabled") |}
        else None
      | Inherited =>
        Some {| status := 400;
                body := ErrorBody (text model ++ lit " model is disabled") |}
      | Absent =>
        Some {| status := 400;
                body := ErrorBody (text model ++ lit " model does not exist") |}
      end
  | _ => Some notEnabled
  end.

Definition POST (request : option ReportRequest) : M Response :=
  tryCatch
    (match request with
     | None => throw notJson
     | Some body =>
       let maxTokens :=
         match maxTokens body with
         | Some n => n
         | None => 8192%Z
         end in
       success <- allowed services settings "report" ;;
       if negb success then ret (failure 429 "Too many requests")
       else
         let platform := platformOf body in
         let model := modelOf body in
         match refusal platform model with
         | Some answer => ret answer
         | None =>
           let systemPrompt := systemPromptOf body in
           tryCatch
             (response <- generate systemPrompt model maxTokens ;;
              match response with
              | Some (c :: r) => answerWith (c :: r) (sources body)
              | _ => throw (Error (lit "No response from model"))
              end)
             (fun _ =>
                ret (failure 500 "Failed to generate report content"))
         end
     end)
    (fun _ => ret (failure 500 "Failed to generate report")).

End Report.

End Report.

(** ** A concrete world for the report routes

    Every Gemini model answers with the same report, wrapped in a
    sentence; the other providers are not reachable. *)

Module Desk.
Import Js Effects Service.

Definition reportText : str :=
  lit "{" ++ Route.quoted (lit "title") ++ lit ": "
  ++ Route.quoted (lit "Battery recycling") ++ lit ", "
  ++ Route.quoted (lit "sections") ++ lit ": []}".

Definition answer : str := lit "Here is the report: " ++ reportText.

Definition unreachable : exn := Error (lit "connect ECONNREFUSED").

Definition services : Services unit :=
  {| reportContentRatelimit := fun _ w => (Ok true, w);
     geminiFlashThinkingModel := fun _ _ w => (Ok answer, w);
     geminiModel := fun _ w => (Ok answer, w);
     geminiFlashModel := fun _ w => (Ok answer, w);
     openai := fun _ _ _ w => (Throw unreachable, w);
     deepseek := fun _ _ _ w => (Throw unreachable, w);
     anthropic := fun _ _ _ w => (Throw unreachable, w) |}.

Definition start : State unit := {| world := tt; calls := [] |}.

(** A prompt that is the prompt of the request, for want of the real
    one. *)
Definition promptOf (body : Report.ReportRequest) : str :=
  Report.prompt body.

Definition reportRequest (platformModel : option str)
    : Report.ReportRequest :=
  {| Report.selectedResults := [];
     Report.sources := Json.JArray [];
     Report.prompt := lit "Compare the recycling processes";
     Report.platformModel := platformModel;
     Report.citationStyle := None;
     Report.contentType := None;
     Report.slideCount := None;
     Report.wordCount := None;
     Report.maxTokens := None |}.

End Desk.

(** * Properties *)

Import Js Json Repair Effects Route Run.

(** ** Strings, sets and arithmetic *)

Lemma eqb_eq (a b : str) : eqb a b = true <-> a = b.
Proof.
  revert b; induction a as [|x a IH]; intros [|y b]; simpl;
    try (split; [discriminate | discriminate]); try tauto.
  rewrite andb_true_iff, N.eqb_eq, IH.
  split; [intros [-> ->]; reflexivity | intros E; inversion E; auto].
Qed.

Lemma existsb_eqb_In (x : str) (seen : list str) :
  existsb (eqb x) seen = true <-> In x seen.
Proof.
  rewrite existsb_exists; split.
  - intros (y & Hy & E). apply eqb_eq in E. now subst.
  - intros H. exists x. split; [assumption | now apply eqb_eq].
Qed.

Lemma spreadSetFrom_spec (l seen : list str) :
  NoDup (spreadSetFrom seen l)
  /\ (forall x, In x (spreadSetFrom seen l) <-> In x l /\ ~ In x seen).
Proof.
  revert seen; induction l as [|x l IH]; intros seen; simpl.
  - split; [constructor | intros x; tauto].
  - destruct (existsb (eqb x) seen) eqn:E.
    + destruct (IH seen) as [ND M]. split; [assumption|].
      apply existsb_eqb_In in E.
      intros y. rewrite M. split.
      * intros [H1 H2]; auto.
      * intros [[<- | H1] H2]; [contradiction | auto].
    + assert (Hx : ~ In x seen).
      { intros H. apply existsb_eqb_In in H. congruence. }
      destruct (IH (x :: seen)) as [ND M]. split.
      * constructor; [|assumption]. rewrite M. simpl. tauto.
      * intros y. simpl. rewrite M. simpl. split.
        -- intros [<- | [H1 H2]]; [tauto|]. split; [tauto|]. tauto.
        -- intros [[<- | H1] H2]; [tauto|].
           destruct (str_eq_dec x y) as [->|N]; [tauto|]. right. tauto.
Qed.

(** The array spread from a [Set] has no value twice and has exactly the
    values of the array the set was made from. *)
Lemma spreadSet_NoDup (l : list str) : NoDup (spreadSet l).
Proof. apply spreadSetFrom_spec. Qed.

Lemma spreadSet_In (l : list str) (x : str) : In x (spreadSet l) <-> In x l.
Proof.
  unfold spreadSet. rewrite (proj2 (spreadSetFrom_spec l [])). simpl. tauto.
Qed.

Lemma spreadSet_nil_inv (l : list str) : l = [] -> spreadSet l = [].
Proof. intros ->. reflexivity. Qed.




Lemma slice0_length {A} (l : list A) (n : Z) :
  (0 <= n)%Z -> (Z.of_nat (length (slice0 l n)) <= n)%Z.
Proof.
  intros H. unfold slice0.
  destruct (n <? 0)%Z eqn:E; [apply Z.ltb_lt in E; lia|].
  rewrite length_firstn. lia.
Qed.

Lemma slice0_firstn {A} (l : list A) (n : Z) :
  (0 <= n)%Z -> slice0 l n = firstn (Z.to_nat n) l.
Proof.
  intros H. unfold slice0.
  destruct (n <? 0)%Z eqn:E; [apply Z.ltb_lt in E; lia | reflexivity].
Qed.

(** ** The parser does not run out of fuel *)


Lemma dropWhile_length (f : char -> bool) (s : str) :
  (length (dropWhile f s) <= length s)%nat.
Proof. induction s as [|c s IH]; simpl; [lia|]. destruct (f c); simpl; lia. Qed.

Lemma skipWs_cons_length (s : str) c rest :
  skipWs s = c :: rest -> (length rest < length s)%nat.
Proof.
  intros H. pose proof (dropWhile_length isWs s) as L.
  unfold skipWs in H. rewrite H in L. simpl in L. lia.
Qed.

Lemma parseChars_consumes (s : str) t r :
  parseChars s = Some (t, r) -> (length r < length s)%nat.
Proof.
  remember (length s) as n eqn:En. revert s t r En.
  induction n as [n IH] using lt_wf_ind. intros s t r En.
  destruct s as [|c rest]; cbn [parseChars]; [intros; discriminate|].
  destruct (c =? QUOTE)%N.
  { intros H. inversion H; subst. simpl. lia. }
  destruct (c =? BACKSLASH)%N.
  - destruct rest as [|e rest']; [intros; discriminate|].
    assert (Hrec : forall u x,
               match parseChars rest' with
               | Some (t0, r') => Some (u :: t0, r')
               | None => None
               end = Some (x, r) -> (length r < n)%nat).
    { intros u x H. destruct (parseChars rest') as [[t0 r']|] eqn:E;
        [|intros; discriminate].
      inversion H; subst.
      apply (IH (length rest')) in E; simpl in *; subst; try lia. }
    repeat match goal with
           | |- (if ?b then _ else _) = _ -> _ =>
             destruct b; [now apply Hrec|]
           end.
    destruct (e =? 117)%N; [|intros; discriminate].
    destruct rest' as [|h1 [|h2 [|h3 [|h4 rest'']]]]; try (intros; discriminate).
    destruct (hex4 h1 h2 h3 h4); [|intros; discriminate].
    destruct (parseChars rest'') as [[t0 r']|] eqn:E; [|intros; discriminate].
    intros H. inversion H; subst.
    apply (IH (length rest'')) in E; simpl in *; subst; try lia.
  - destruct (c <? 32)%N; [intros; discriminate|].
    destruct (parseChars rest) as [[t0 r']|] eqn:E; [|intros; discriminate].
    intros H. inversion H; subst.
    apply (IH (length rest)) in E; simpl in *; subst; try lia.
Qed.

Lemma parseDigits_consumes (s : str) ds r :
  parseDigits s = Some (ds, r) -> (length r <= length s)%nat.
Proof.
  unfold parseDigits. destruct (takeWhile isDigit s); [intros; discriminate|].
  intros H. inversion H; subst. apply dropWhile_length.
Qed.

Lemma parseNumber_consumes (s : str) n r :
  parseNumber s = Some (n, r) -> (length r < length s)%nat.
Proof.
  unfold parseNumber.
  set (sg := match s with
             | c :: r0 => if (c =? 45)%N then ([c], r0) else ([], s)
             | [] => ([], s)
             end).
  assert (Hsg : (length (snd sg) <= length s)%nat).
  { subst sg. destruct s as [|c r0]; simpl; [lia|].
    destruct (c =? 45)%N; simpl; lia. }
  destruct sg as [sign s1]. simpl in Hsg.
  set (int := match s1 with
              | c :: r0 =>
                if (c =? 48)%N then Some ([c], r0)
                else if isDigit c
                     then Some (c :: takeWhile isDigit r0, dropWhile isDigit r0)
                     else None
              | [] => None
              end).
  assert (Hint : forall i s2, int = Some (i, s2) ->
                              (length s2 < length s1)%nat).
  { subst int. intros i s2. destruct s1 as [|c r0]; [intros; discriminate|].
    destruct (c =? 48)%N.
    - intros H. inversion H; subst. simpl. lia.
    - destruct (isDigit c); [|intros; discriminate].
      intros H. inversion H; subst.
      pose proof (dropWhile_length isDigit r0). simpl. lia. }
  destruct int as [[i s2]|]; [|intros; discriminate].
  specialize (Hint i s2 eq_refl).
  set (frac := match s2 with
               | c :: r0 =>
                 if (c =? 46)%N
                 then match parseDigits r0 with
                      | Some (ds, r') => Some (c :: ds, r')
                      | None => None
                      end
                 else Some ([], s2)
               | [] => Some ([], s2)
               end).
  assert (Hfrac : forall f s3, frac = Some (f, s3) ->
                               (length s3 <= length s2)%nat).
  { subst frac. intros f s3. destruct s2 as [|c r0].
    - intros H. inversion H; subst. simpl. lia.
    - destruct (c =? 46)%N.
      + destruct (parseDigits r0) as [[ds r']|] eqn:E; [|intros; discriminate].
        intros H. inversion H; subst.
        apply parseDigits_consumes in E. simpl. lia.
      + intros H. inversion H; subst. lia. }
  destruct frac as [[f s3]|]; [|intros; discriminate].
  specialize (Hfrac f s3 eq_refl).
  match goal with
  | |- match ?e with _ => _ end = _ -> _ => set (exp := e)
  end.
  assert (Hexp : forall e s4, exp = Some (e, s4) ->
                              (length s4 <= length s3)%nat).
  { subst exp. intros e s4. destruct s3 as [|c r0].
    - intros H. inversion H; subst. simpl. lia.
    - destruct ((c =? 101) || (c =? 69))%N.
      + match goal with
        | |- (let (_, _) := ?p in _) = _ -> _ => set (sgn := p)
        end.
        assert (Hsgn : (length (snd sgn) <= length r0)%nat).
        { subst sgn. destruct r0 as [|d r']; simpl; [lia|].
          destruct ((d =? 43) || (d =? 45))%N; simpl; lia. }
        destruct sgn as [sg0 r1]. simpl in Hsgn.
        destruct (parseDigits r1) as [[ds r']|] eqn:E; [|intros; discriminate].
        intros H. inversion H; subst.
        apply parseDigits_consumes in E. simpl. lia.
      + intros H. inversion H; subst. lia. }
  destruct exp as [[e s4]|]; [|intros; discriminate].
  specialize (Hexp e s4 eq_refl).
  intros H. inversion H; subst. lia.
Qed.

(** Walks through the matches of a hypothesis [parse... = Some _], keeping
    an equation for every scrutinee. *)
Ltac walk H :=
  repeat match type of H with
         | match ?x with _ => _ end = Some _ =>
           let E := fresh "E" in
           destruct x eqn:E; cbv beta iota in H; try discriminate H
         | (let (_, _) := ?x in _) = Some _ =>
           let E := fresh "E" in
           destruct x eqn:E; cbv beta iota in H; try discriminate H
         end.

(** Replays the equations kept by [walk] in the goal. *)
Ltac replay :=
  repeat match goal with
         | E : ?x = _ |- context [match ?x with _ => _ end] =>
           rewrite E; cbv beta iota
         end.

(** More fuel does not change a successful parse. *)
Lemma parse_fuel_monotone (f : nat) :
  (forall g s x, (f <= g)%nat ->
                 parseValue f s = Some x -> parseValue g s = Some x)
  /\ (forall g s x, (f <= g)%nat ->
                    parseElements f s = Some x -> parseElements g s = Some x)
  /\ (forall g s x, (f <= g)%nat ->
                    parseMembers f s = Some x -> parseMembers g s = Some x).
Proof.
  induction f as [|f (IHv & IHe & IHm)].
  - repeat split; intros g s x _ H; discriminate H.
  - repeat split; intros g s x Hle H; (destruct g as [|g]; [lia|]);
      assert (Hfg : (f <= g)%nat) by lia;
      cbn [parseValue parseElements parseMembers] in H |- *;
      walk H; replay;
      repeat match goal with
             | E : parseValue f _ = Some _ |- _ =>
               apply (IHv g _ _ Hfg) in E
             | E : parseElements f _ = Some _ |- _ =>
               apply (IHe g _ _ Hfg) in E
             | E : parseMembers f _ = Some _ |- _ =>
               apply (IHm g _ _ Hfg) in E
             end;
      replay; assumption.
Qed.

Lemma startsWith_length (p s : str) :
  startsWith p s = true -> (length p <= length s)%nat.
Proof.
  revert s. induction p as [|x p IH]; intros s H.
  - simpl. lia.
  - destruct s as [|y s]; simpl in H; [discriminate H|].
    apply andb_true_iff in H. destruct H as [_ H].
    apply IH in H. simpl. lia.
Qed.

Ltac learn H :=
  let T := type of H in
  lazymatch goal with
  | _ : T |- _ => fail
  | _ => pose proof H
  end.

(** Collects what is known about the lengths of the rests. *)
Ltac lengths IHv IHe IHm :=
  repeat match goal with
         | E : skipWs _ = _ :: _ |- _ => learn (skipWs_cons_length _ E)
         | E : parseChars _ = Some _ |- _ => learn (parseChars_consumes _ E)
         | E : parseNumber _ = Some _ |- _ => learn (parseNumber_consumes _ E)
         | E : startsWith _ _ = true |- _ => learn (startsWith_length _ _ E)
         | E : parseValue _ _ = Some _ |- _ =>
           first [ learn (proj1 (IHv _ _ _ E))
                 | learn (proj2 (IHv _ _ _ E)) ]
         | E : parseElements _ _ = Some _ |- _ =>
           first [ learn (proj1 (IHe _ _ _ E))
                 | learn (proj2 (IHe _ _ _ E)) ]
         | E : parseMembers _ _ = Some _ |- _ =>
           first [ learn (proj1 (IHm _ _ _ E))
                 | learn (proj2 (IHm _ _ _ E)) ]
         end.

Opaque skipn.

(** A successful parse needs no more fuel than the number of code units
    it consumes, of which there is at least one. *)
Lemma parse_fuel_bound (f : nat) :
  (forall s v r,
      parseValue f s = Some (v, r) ->
      (length r < length s)%nat
      /\ parseValue (length s - length r) s = Some (v, r))
  /\ (forall s vs r,
        parseElements f s = Some (vs, r) ->
        (length r < length s)%nat
        /\ parseElements (length s - length r) s = Some (vs, r))
  /\ (forall s ms r,
        parseMembers f s = Some (ms, r) ->
        (length r < length s)%nat
        /\ parseMembers (length s - length r) s = Some (ms, r)).
Proof.
  induction f as [|f (IHv & IHe & IHm)].
  - split; [|split]; intros s v r H; discriminate H.
  - split; [|split]; intros s v r H;
      cbn [parseValue parseElements parseMembers] in H;
      walk H; inversion H; subst; clear H;
      lengths IHv IHe IHm;
      repeat match goal with
             | Hl : (length (lit _) <= _)%nat |- _ =>
               progress cbn [length lit map list_ascii_of_string] in Hl
             end;
      simpl length in *;
      try rewrite length_skipn in *;
      simpl length in *;
      (split; [lia|]);
      match goal with
      | |- _ (?a - ?b)%nat _ = _ =>
        let k := fresh "k" in
        remember (a - b - 1)%nat as k;
        replace (a - b)%nat with (S k) by lia
      end;
      cbn [parseValue parseElements parseMembers];
      replay;
      repeat match goal with
             | Hx : parseValue ?a ?s' = Some ?x
               |- context [parseValue ?k ?s'] =>
               rewrite (proj1 (parse_fuel_monotone a) k s' x
                          ltac:(simpl length in *; lia) Hx);
               cbv beta iota
             | Hx : parseElements ?a ?s' = Some ?x
               |- context [parseElements ?k ?s'] =>
               rewrite (proj1 (proj2 (parse_fuel_monotone a)) k s' x
                          ltac:(simpl length in *; lia) Hx);
               cbv beta iota
             | Hx : parseMembers ?a ?s' = Some ?x
               |- context [parseMembers ?k ?s'] =>
               rewrite (proj2 (proj2 (parse_fuel_monotone a)) k s' x
                          ltac:(simpl length in *; lia) Hx);
               cbv beta iota
             | _ => progress replay
             end;
      reflexivity.
Qed.

Transparent skipn.

(** The fuel that [parse] gives is enough: no larger fuel changes the
    outcome, whether a value or a syntax error. *)
Lemma parseValue_fuel_enough (f : nat) (s : str) :
  (S (length s) <= f)%nat ->
  parseValue f s = parseValue (S (length s)) s.
Proof.
  intros Hf. destruct (parseValue f s) as [[v r]|] eqn:E.
  - destruct (proj1 (parse_fuel_bound f) _ _ _ E) as [Hlen Hmin].
    symmetry.
    apply (proj1 (parse_fuel_monotone (length s - length r))
             (S (length s)) s (v, r)); [lia | exact Hmin].
  - destruct (parseValue (S (length s)) s) as [x|] eqn:E'; [|reflexivity].
    apply (proj1 (parse_fuel_monotone _) f _ _ Hf) in E'. congruence.
Qed.

(** [JSON.parse] in the model does not depend on its fuel. *)
Lemma parse_any_fuel (f : nat) (s : str) :
  (S (length s) <= f)%nat ->
  parse s
  = match parseValue f s with
    | Some (v, r) =>
      match skipWs r with
      | [] => Some v
      | _ :: _ => None
      end
    | None => None
    end.
Proof. intros H. unfold parse. now rewrite (parseValue_fuel_enough s H). Qed.


(** ** The monad *)

Section Monad_lemmas.
Variable W : Type.
Variable env : Env W.

Notation M := (Effects.M W).

Lemma bind_Ok_inv {A B} (m : M A) (k : A -> M B) st b st' :
  bind m k st = Some (Ok b, st') ->
  exists a st1, m st = Some (Ok a, st1) /\ k a st1 = Some (Ok b, st').
Proof.
  unfold bind. destruct (m st) as [[[a|e] st1]|]; try discriminate.
  intros H. now exists a, st1.
Qed.


Lemma bind_eq {A B} (m : M A) (k : A -> M B) st a st1 :
  m st = Some (Ok a, st1) -> bind m k st = k a st1.
Proof. unfold bind. now intros ->. Qed.

Lemma bind_throw {A B} (m : M A) (k : A -> M B) st e st1 :
  m st = Some (Throw e, st1) -> bind m k st = Some (Throw e, st1).
Proof. unfold bind. now intros ->. Qed.

Lemma tryCatch_ok {A} (m : M A) h st a st1 :
  m st = Some (Ok a, st1) -> tryCatch m h st = Some (Ok a, st1).
Proof. unfold tryCatch. now intros ->. Qed.

Lemma tryCatch_throw {A} (m : M A) h st e st1 :
  m st = Some (Throw e, st1) -> tryCatch m h st = h e st1.
Proof. unfold tryCatch. now intros ->. Qed.

Lemma extends_refl P (st : State W) : extends P st st.
Proof. exists []. split; [now rewrite app_nil_r | constructor]. Qed.

Lemma extends_trans P (st1 st2 st3 : State W) :
  extends P st1 st2 -> extends P st2 st3 -> extends P st1 st3.
Proof.
  intros (e1 & E1 & F1) (e2 & E2 & F2). exists (e1 ++ e2). split.
  - now rewrite E2, E1, app_assoc.
  - apply Forall_app. now split.
Qed.

Lemma extends_weaken (P Q : event -> Prop) (st st' : State W) :
  (forall ev, P ev -> Q ev) -> extends P st st' -> extends Q st st'.
Proof.
  intros PQ (evs & E & F). exists evs. split; [assumption|].
  eapply Forall_impl; eauto.
Qed.

Lemma finishes_weaken {A} (P Q : event -> Prop) (m : M A) :
  (forall ev, P ev -> Q ev) -> finishes P m -> finishes Q m.
Proof.
  intros PQ H st. destruct (H st) as (r & st' & E & X).
  exists r, st'. split; [assumption|]. eapply extends_weaken; eauto.
Qed.

Lemma finishes_ret {A} P (a : A) : finishes P (ret (W:=W) a).
Proof. intros st. exists (Ok a), st. split; [reflexivity | apply extends_refl]. Qed.

Lemma finishes_throw {A} P e : finishes P (throw (W:=W) (A:=A) e).
Proof. intros st. exists (Throw e), st. split; [reflexivity | apply extends_refl]. Qed.

Lemma finishes_emit (P : event -> Prop) ev :
  P ev -> finishes P (emit (W:=W) ev).
Proof.
  intros H st. eexists _, _. split; [reflexivity|].
  exists [ev]. split; [reflexivity | now constructor].
Qed.

Lemma finishes_suspend P : finishes P (suspend env).
Proof.
  intros st. unfold suspend.
  destruct (intervalElapsed env (world st)) as [fired w].
  eexists _, _. split; [reflexivity|].
  exists []. split; [simpl; now rewrite app_nil_r | constructor].
Qed.

Lemma finishes_bind {A B} P (m : M A) (k : A -> M B) :
  finishes P m -> (forall a, finishes P (k a)) -> finishes P (bind m k).
Proof.
  intros Hm Hk st. destruct (Hm st) as (r & st1 & E & X).
  unfold bind. rewrite E. destruct r as [a|e].
  - destruct (Hk a st1) as (r' & st2 & E' & X').
    exists r', st2. split; [assumption|]. eapply extends_trans; eauto.
  - now exists (Throw e), st1.
Qed.

Lemma finishes_tryCatch {A} P (m : M A) (h : exn -> M A) :
  finishes P m -> (forall e, finishes P (h e)) -> finishes P (tryCatch m h).
Proof.
  intros Hm Hh st. destruct (Hm st) as (r & st1 & E & X).
  unfold tryCatch. rewrite E. destruct r as [a|e].
  - now exists (Ok a), st1.
  - destruct (Hh e st1) as (r' & st2 & E' & X').
    exists r', st2. split; [assumption|]. eapply extends_trans; eauto.
Qed.

Lemma finishes_delay (P : event -> Prop) :
  P EvDelay -> finishes P (delay env).
Proof.
  intros H. unfold delay. apply finishes_bind.
  - now apply finishes_emit.
  - intros _. apply finishes_suspend.
Qed.

Lemma finishes_await {A} (P : event -> Prop) ev (f : W -> result A * W) :
  P ev -> finishes P (await env ev f).
Proof.
  intros H. unfold await. apply finishes_bind.
  - now apply finishes_emit.
  - intros _ st. destruct (f (world st)) as [r w].
    match goal with
    | |- context [suspend env ?s] =>
      destruct (finishes_suspend P s) as (r' & st' & E & evs & T & F)
    end.
    rewrite E. exists r, st'. split; [reflexivity|].
    exists evs. split; assumption.
Qed.

Lemma finishes_getTotal P : finishes P (getTotal (W:=W)).
Proof. intros st. eexists _, _. split; [reflexivity | apply extends_refl]. Qed.

Lemma finishes_setTotal P n : finishes P (setTotal (W:=W) n).
Proof.
  intros st. eexists _, _. split; [reflexivity|].
  exists []. split; [simpl; now rewrite app_nil_r | constructor].
Qed.

Lemma finishes_now P : finishes P (now env).
Proof.
  intros st. unfold now. destruct (dateNow env (world st)) as [t w].
  eexists _, _. split; [reflexivity|].
  exists []. split; [simpl; now rewrite app_nil_r | constructor].
Qed.

End Monad_lemmas.

Ltac finish_step :=
  match goal with
  | |- finishes _ (ret _) => apply finishes_ret
  | |- finishes _ (throw _) => apply finishes_throw
  | |- finishes _ (emit _) => apply finishes_emit; exact I
  | |- finishes _ (Effects.delay _) => apply finishes_delay; exact I
  | |- finishes _ (Effects.await _ _ _) => apply finishes_await; exact I
  | |- finishes _ getTotal => apply finishes_getTotal
  | |- finishes _ (setTotal _) => apply finishes_setTotal
  | |- finishes _ (Effects.now _) => apply finishes_now
  | |- finishes _ (bind _ _) => apply finishes_bind; [| intros ?]
  | |- finishes _ (tryCatch _ _) => apply finishes_tryCatch; [| intros ?]
  | |- finishes _ (if ?b then _ else _) => destruct b
  | |- finishes _ (match ?x with _ => _ end) => destruct x
  end.

Ltac finish := repeat finish_step.

(** ** The turns of the fetches of a batch *)

Section Returns.
Variable W : Type.
Variable env : Env W.

Notation M := (Effects.M W).

Lemma returns_ret {A} P (Q : A -> Prop) (a : A) :
  Q a -> returns P Q (ret (W:=W) a).
Proof.
  intros H st. exists a, st.
  split; [reflexivity|]. split; [apply extends_refl | exact H].
Qed.

Lemma returns_bind {A B} P (Q1 : A -> Prop) (Q : B -> Prop)
    (m : M A) (k : A -> M B) :
  returns P Q1 m -> (forall a, Q1 a -> returns P Q (k a)) ->
  returns P Q (bind m k).
Proof.
  intros Hm Hk st. destruct (Hm st) as (a & st1 & E & X & HQ).
  destruct (Hk a HQ st1) as (b & st2 & E' & X' & HQ').
  exists b, st2. unfold bind. rewrite E.
  split; [assumption|]. split; [eapply extends_trans; eauto | assumption].
Qed.

Lemma returns_weaken {A} P (Q1 Q : A -> Prop) (m : M A) :
  returns P Q1 m -> (forall a, Q1 a -> Q a) -> returns P Q m.
Proof.
  intros Hm HQ st. destruct (Hm st) as (a & st1 & E & X & H).
  exists a, st1. auto.
Qed.

Lemma returns_finishes {A} P (Q : A -> Prop) (m : M A) :
  returns P Q m -> finishes P m.
Proof.
  intros Hm st. destruct (Hm st) as (a & st1 & E & X & _).
  now exists (Ok a), st1.
Qed.

Lemma returns_emit (P : event -> Prop) ev :
  P ev -> returns P (fun _ => True) (emit (W:=W) ev).
Proof.
  intros H st. eexists _, _. split; [reflexivity|]. split; [|exact I].
  exists [ev]. split; [reflexivity | now constructor].
Qed.

Lemma returns_suspend P : returns P (fun _ => True) (suspend env).
Proof.
  intros st. unfold suspend.
  destruct (intervalElapsed env (world st)) as [fired w].
  eexists _, _. split; [reflexivity|]. split; [|exact I].
  exists []. split; [simpl; now rewrite app_nil_r | constructor].
Qed.

Lemma returns_request {A} P (f : W -> result A * W) :
  returns P (fun _ => True) (request f).
Proof.
  intros st. unfold request. destruct (f (world st)) as [r w].
  eexists _, _. split; [reflexivity|]. split; [|exact I].
  exists []. split; [simpl; now rewrite app_nil_r | constructor].
Qed.

Lemma returns_pickNext P (n : nat) :
  n <> O -> returns P (fun k => k < n) (pickNext env n).
Proof.
  intros Hn st. unfold pickNext.
  destruct (resumeNext env n (world st)) as [k w].
  eexists _, _. split; [reflexivity|]. split.
  - exists []. split; [simpl; now rewrite app_nil_r | constructor].
  - now apply Nat.mod_upper_bound.
Qed.

Lemma returns_getTotal P : returns P (fun _ => True) (getTotal (W:=W)).
Proof.
  intros st. eexists _, _. split; [reflexivity|].
  split; [apply extends_refl | exact I].
Qed.

Lemma returns_setTotal P n : returns P (fun _ => True) (setTotal (W:=W) n).
Proof.
  intros st. eexists _, _. split; [reflexivity|]. split; [|exact I].
  exists []. split; [simpl; now rewrite app_nil_r | constructor].
Qed.

End Returns.

Ltac turn_step :=
  match goal with
  | |- returns _ _ (ret _) => apply returns_ret
  | |- returns _ _ (bind (emit _) _) =>
    eapply returns_bind; [apply returns_emit; exact I | intros ? _]
  | |- returns _ _ (bind getTotal _) =>
    eapply returns_bind; [apply returns_getTotal | intros ? _]
  | |- returns _ _ (bind (setTotal _) _) =>
    eapply returns_bind; [apply returns_setTotal | intros ? _]
  | |- returns _ _ (bind (request _) _) =>
    eapply returns_bind; [apply returns_request | intros ? _]
  | |- returns _ _ (bind (suspend _) _) =>
    eapply returns_bind; [apply returns_suspend | intros ? _]
  | |- returns _ _ (if ?b then _ else _) => destruct b
  end.

Section Turns.
Variable W : Type.
Variable env : Env W.
Variable R : Z -> Z -> Prop.

Notation P := (invocations R).

Lemma caught_turn k e :
  returns P (fun ph => turnsAfter ph <= 3 * k + 1) (caught (W:=W) k e).
Proof. unfold caught. repeat turn_step; simpl; lia. Qed.

Lemma requestGet_turn k u :
  returns P (fun ph => turnsAfter ph <= 3 * k + 2) (requestGet env k u).
Proof. unfold requestGet. repeat turn_step; simpl; lia. Qed.

Lemma enterLoop_turn n u :
  returns P (fun ph => turnsAfter ph <= 3 * n) (enterLoop env n u).
Proof.
  destruct n as [|k]; simpl.
  - apply returns_ret. simpl. lia.
  - repeat turn_step; try (simpl; lia).
    + eapply returns_weaken; [apply caught_turn|]. simpl. intros; lia.
    + eapply returns_weaken; [apply requestGet_turn|]. simpl. intros; lia.
Qed.

(** A turn leaves a fetch with fewer turns to take. *)
Lemma resume_turn u p :
  returns P (fun ph => turnsAfter ph < turnsLeft p) (resume env u p).
Proof.
  unfold resume. turn_step.
  destruct p as [n | k [success|error] | k [data|error]]; simpl.
  - eapply returns_weaken; [apply enterLoop_turn|]. simpl. intros; lia.
  - destruct (negb success).
    + eapply returns_weaken; [apply caught_turn|]. simpl. intros; lia.
    + eapply returns_weaken; [apply requestGet_turn|]. simpl. intros; lia.
  - eapply returns_weaken; [apply caught_turn|]. simpl. intros; lia.
  - apply returns_ret. simpl. lia.
  - eapply returns_weaken; [apply caught_turn|]. simpl. intros; lia.
Qed.

Lemma startFetches_started index rs :
  returns P (fun suspended => suspended = started index rs)
    (startFetches (W:=W) index rs).
Proof.
  revert index. induction rs as [|r rs IH]; intros index; simpl.
  - now apply returns_ret.
  - unfold startFetch.
    eapply returns_bind.
    + eapply returns_bind; [apply returns_emit; exact I|].
      intros _ _. apply returns_ret with (Q := fun p => p = AtTimer fetchMaxRetries).
      reflexivity.
    + intros p ->. eapply returns_bind; [apply IH|].
      intros others ->. apply returns_ret. reflexivity.
Qed.

End Turns.

Lemma without_split {A} (k : nat) (l : list A) (d : A) :
  k < length l -> l = firstn k l ++ nth k l d :: skipn (S k) l.
Proof.
  revert k. induction l as [|x l IH]; intros [|k] H; simpl in *; try lia.
  - reflexivity.
  - f_equal. apply IH. lia.
Qed.

Lemma without_Permutation {A} (k : nat) (l : list A) (d : A) :
  k < length l -> Permutation l (nth k l d :: without k l).
Proof.
  intros H. rewrite (without_split l d H) at 1.
  symmetry. apply Permutation_middle.
Qed.

Lemma queueTurns_Permutation (l l' : list fetching) :
  Permutation l l' -> queueTurns l = queueTurns l'.
Proof.
  unfold queueTurns. induction 1; simpl; lia.
Qed.

Lemma queueTurns_snoc (l : list fetching) (f : fetching) :
  queueTurns (l ++ [f]) = queueTurns l + turnsLeft (f_at f).
Proof.
  unfold queueTurns. rewrite map_app, list_sum_app. simpl. lia.
Qed.

Lemma turnsLeft_positive (p : pending) : 0 < turnsLeft p.
Proof. destruct p; simpl; lia. Qed.

Section Batch_turns.
Variable W : Type.
Variable env : Env W.
Variable R : Z -> Z -> Prop.

Notation P := (invocations R).

Lemma extends_any (Q : event -> Prop) (st st' : State W) :
  extends Q st st' -> extends (fun _ => True) st st'.
Proof. apply extends_weaken. auto. Qed.

(** A fetch that is over after turns taken from some state on is over
    after the same turns from any earlier state on. *)
Lemma settles_earlier u (st st1 st' : State W) p outcome :
  extends (fun _ => True) st st1 ->
  settles env u st' st1 p outcome -> settles env u st' st p outcome.
Proof.
  intros X H. destruct H as [st1 s p outcome s1 X1 E X2 | st1 s p p' s1 outcome X1 E H].
  - eapply settles_now; [eapply extends_trans; eassumption | eassumption | assumption].
  - eapply settles_later; [eapply extends_trans; eassumption | eassumption | assumption].
Qed.

(** The fetches of a batch take their turns until all of them are over,
    whatever the order in which they are resumed: every promise is
    fulfilled once, with the content or [null] according to the outcome of
    the turns of its own fetch. *)
Lemma runFetches_runs fuel :
  forall suspended fulfilled (st : State W),
    queueTurns suspended <= fuel ->
    exists out st',
      runFetches env fuel suspended fulfilled st = Some (Ok out, st')
      /\ extends P st st'
      /\ Permutation (map fst out)
           (map f_index suspended ++ map fst fulfilled)
      /\ forall i v,
           In (i, v) out ->
           In (i, v) fulfilled
           \/ exists f outcome,
                In f suspended /\ f_index f = i
                /\ v = contentOf (f_result f) outcome
                /\ settles env (url (f_result f)) st' st (f_at f) outcome.
Proof.
  induction fuel as [|fuel IH]; intros suspended fulfilled st Hfuel.
  - destruct suspended as [|first rest].
    + exists fulfilled, st. simpl.
      split; [reflexivity|]. split; [apply extends_refl|].
      split; [reflexivity | auto].
    + exfalso. unfold queueTurns in Hfuel. simpl in Hfuel.
      pose proof (turnsLeft_positive (f_at first)). lia.
  - destruct suspended as [|first rest].
    + exists fulfilled, st. simpl.
      split; [reflexivity|]. split; [apply extends_refl|].
      split; [reflexivity | auto].
    + set (suspended := first :: rest) in *.
      assert (Hn : length suspended <> O) by (subst suspended; simpl; lia).
      destruct (@returns_pickNext W env P _ Hn st) as (k & s & Ek & Xk & Hk).
      set (f := nth k suspended first).
      pose proof (without_Permutation suspended first Hk) as Hperm.
      fold f in Hperm.
      destruct (@resume_turn W env R (url (f_result f)) (f_at f) s)
        as (ph & s1 & Er & Xr & Hturns).
      assert (Hsum : queueTurns suspended
                     = turnsLeft (f_at f) + queueTurns (without k suspended)).
      { rewrite (queueTurns_Permutation Hperm). reflexivity. }
      assert (Hrun : runFetches env (S fuel) suspended fulfilled st
                     = match ph with
                       | Pending p =>
                         runFetches env fuel
                           (without k suspended
                            ++ [{| f_index := f_index f;
                                   f_result := f_result f;
                                   f_at := p |}])
                           fulfilled s1
                       | Settled outcome =>
                         runFetches env fuel (without k suspended)
                           ((f_index f, contentOf (f_result f) outcome)
                            :: fulfilled) s1
                       end).
      { subst suspended. cbn [runFetches]. unfold bind at 1. rewrite Ek.
        cbv zeta. unfold bind at 1. fold f. rewrite Er.
        destruct ph; reflexivity. }
      rewrite Hrun. clear Hrun. clearbody f. clearbody suspended.
      assert (Xs : extends P st s1) by (eapply extends_trans; eassumption).
      destruct ph as [p | outcome]; simpl in Hturns.
      * set (f' := {| f_index := f_index f; f_result := f_result f;
                      f_at := p |}).
        destruct (IH (without k suspended ++ [f']) fulfilled s1)
          as (out & st' & E & X & Hp & Hin).
        { rewrite queueTurns_snoc. simpl. lia. }
        exists out, st'. split; [exact E|].
        split; [eapply extends_trans; eassumption|]. split.
        -- etransitivity; [exact Hp|]. apply Permutation_app_tail.
           rewrite map_app. simpl.
           etransitivity;
             [|symmetry; apply (Permutation_map f_index Hperm)].
           simpl. symmetry. apply Permutation_cons_append.
        -- intros i v Hv. destruct (Hin i v Hv)
             as [Hold | (g & outcome & Hg & Hi & Hc & Hs)];
             [now left | right].
           apply in_app_or in Hg. destruct Hg as [Hg | [<- | []]].
           ++ exists g, outcome. split.
              ** apply (Permutation_in g (Permutation_sym Hperm)).
                 now right.
              ** repeat split; try assumption.
                 eapply settles_earlier; [|exact Hs].
                 eapply extends_any; exact Xs.
           ++ exists f, outcome. split.
              ** apply (Permutation_in f (Permutation_sym Hperm)).
                 now left.
              ** repeat split; try assumption.
                 eapply settles_later;
                   [eapply extends_any; exact Xk | exact Er | exact Hs].
      * destruct (IH (without k suspended)
                     ((f_index f, contentOf (f_result f) outcome)
                      :: fulfilled) s1)
          as (out & st' & E & X & Hp & Hin).
        { lia. }
        exists out, st'. split; [exact E|].
        split; [eapply extends_trans; eassumption|]. split.
        -- etransitivity; [exact Hp|]. simpl. symmetry.
           etransitivity;
             [apply Permutation_app_tail;
              apply (Permutation_map f_index Hperm)|].
           simpl. apply Permutation_middle.
        -- intros i v Hv. destruct (Hin i v Hv)
             as [[Hnew | Hold] | (g & outcome' & Hg & Hi & Hc & Hs)].
           ++ right. inversion Hnew; subst i v. exists f, outcome. split.
              ** apply (Permutation_in f (Permutation_sym Hperm)).
                 now left.
              ** repeat split.
                 eapply settles_now;
                   [eapply extends_any; exact Xk | exact Er
                   | eapply extends_any; exact X].
           ++ now left.
           ++ right. exists g, outcome'. split.
              ** apply (Permutation_in g (Permutation_sym Hperm)).
                 now right.
              ** repeat split; try assumption.
                 eapply settles_earlier; [|exact Hs].
                 eapply extends_any; exact Xs.
Qed.

End Batch_turns.

Lemma started_In index rs f :
  In f (started index rs) ->
  exists i r,
    nth_error rs i = Some r
    /\ f = {| f_index := index + i; f_result := r;
              f_at := AtTimer fetchMaxRetries |}.
Proof.
  unfold started. revert index.
  induction rs as [|r rs IH]; intros index; simpl; [tauto|].
  intros [<- | H].
  - exists O, r. simpl. rewrite Nat.add_0_r. auto.
  - destruct (IH (S index) H) as (i & r' & Hi & ->).
    exists (S i), r'. simpl. split; [assumption|]. f_equal. lia.
Qed.

Lemma started_index index rs :
  map f_index (started index rs) = seq index (length rs).
Proof.
  unfold started. revert index.
  induction rs as [|r rs IH]; intros index; simpl; [reflexivity|].
  f_equal. apply IH.
Qed.

Lemma started_turns index rs :
  queueTurns (started index rs) = fetchTurns * length rs.
Proof.
  unfold started, queueTurns. revert index.
  induction rs as [|r rs IH]; intros index; simpl; [lia|].
  rewrite IH. unfold fetchTurns. lia.
Qed.

Lemma valueAt_In (fulfilled : list (nat * option Content)) i v :
  NoDup (map fst fulfilled) -> In (i, v) fulfilled -> valueAt i fulfilled = v.
Proof.
  induction fulfilled as [|[j w] l IH]; simpl; [tauto|].
  intros Hnd [H | H].
  - inversion H; subst. now rewrite Nat.eqb_refl.
  - inversion Hnd as [|x l' Hnotin Hnd']; subst.
    destruct (Nat.eqb j i) eqn:E.
    + apply Nat.eqb_eq in E. subst j. exfalso. apply Hnotin.
      change i with (fst (i, v)). now apply in_map.
    + now apply IH.
Qed.

Lemma Forall2_by_index {A B} (Rel : A -> B -> Prop) (h : nat -> B)
    (l : list A) (a : nat) :
  (forall i x, nth_error l i = Some x -> Rel x (h (a + i))) ->
  Forall2 Rel l (map h (seq a (length l))).
Proof.
  revert a. induction l as [|x l IH]; intros a H; simpl; constructor.
  - specialize (H O x eq_refl). now rewrite Nat.add_0_r in H.
  - apply IH. intros i y Hy. specialize (H (S i) y Hy).
    now replace (S a + i) with (a + S i) by lia.
Qed.

Lemma Forall2_outcomes {A} (Rel : DuckDuckResult -> A -> Prop)
    (g : DuckDuckResult -> A -> option Content) rs vs :
  Forall2 (fun r v => exists o, v = g r o /\ Rel r o) rs vs ->
  exists os,
    Forall2 Rel rs os
    /\ vs = map (fun p => g (fst p) (snd p)) (combine rs os).
Proof.
  induction 1 as [|r v rs vs (o & -> & Hr) _ (os & Hos & ->)].
  - exists []. split; [constructor | reflexivity].
  - exists (o :: os). split; [now constructor | reflexivity].
Qed.

Section Batch_runs.
Variable W : Type.
Variable env : Env W.
Variable R : Z -> Z -> Prop.

Notation P := (invocations R).

(** The batch of fetches returns, whatever the outcomes of the fetches
    and whatever the order of their turns: with the contents of the
    results whose fetch returned, in the order of the results. *)
Lemma fetchContents_runs rs (st : State W) :
  exists outcomes st',
    Forall2
      (fun r outcome =>
         settles env (url r) st' st (AtTimer fetchMaxRetries) outcome)
      rs outcomes
    /\ fetchContents env rs st = Some (Ok (contentsOf rs outcomes), st')
    /\ extends P st st'.
Proof.
  destruct (@startFetches_started W R O rs st) as (q & s & Eq & Xq & ->).
  destruct (@runFetches_runs W env R (fetchTurns * length (started 0 rs))
              (started 0 rs) [] s)
    as (out & st' & Er & Xr & Hp & Hin).
  { rewrite started_turns. unfold started.
    now rewrite length_map, length_combine, length_seq, Nat.min_id. }
  rewrite started_index, app_nil_r in Hp.
  assert (Hnd : NoDup (map fst out)).
  { apply (Permutation_NoDup (Permutation_sym Hp)), seq_NoDup. }
  assert (Hall : Forall2
            (fun r v =>
               exists o, v = contentOf r o
                 /\ settles env (url r) st' st (AtTimer fetchMaxRetries) o)
            rs (promiseAll (length rs) out)).
  { unfold promiseAll. apply Forall2_by_index. intros i r Hi. simpl.
    assert (Hlt : i < length rs) by (apply nth_error_Some; congruence).
    assert (Hk : In i (map fst out)).
    { apply (Permutation_in i (Permutation_sym Hp)), in_seq. lia. }
    apply in_map_iff in Hk. destruct Hk as ([j v] & Hj & Hv).
    simpl in Hj. subst j.
    rewrite (@valueAt_In out i v Hnd Hv).
    destruct (Hin i v Hv) as [[] | (f & o & Hf & Hfi & -> & Hs)].
    destruct (@started_In O rs f Hf) as (i' & r' & Hi' & ->).
    simpl in *. subst i'. rewrite Hi in Hi'. inversion Hi'; subst r'.
    exists o. split; [reflexivity|].
    eapply settles_earlier; [|exact Hs]. eapply extends_any; exact Xq. }
  apply Forall2_outcomes in Hall. destruct Hall as (outcomes & Hs & Hv).
  exists outcomes, st'. split; [exact Hs|]. split.
  - unfold fetchContents, bind. rewrite Eq, Er. unfold contentsOf.
    now rewrite Hv.
  - eapply extends_trans; eassumption.
Qed.

End Batch_runs.

(** ** A fetch on its own

    The turns of a fetch, taken with nothing in between, are
    [fetchJinaContentWithRetry] as it is written. *)

Section Alone.
Variable W : Type.
Variable env : Env W.

Notation M := (Effects.M W).

Lemma bind_ret_l {A B} (a : A) (k : A -> M B) st : bind (ret a) k st = k a st.
Proof. reflexivity. Qed.

Lemma bind_assoc {A B C} (m : M A) (k : A -> M B) (k' : B -> M C) st :
  bind (bind m k) k' st = bind m (fun a => bind (k a) k') st.
Proof.
  unfold bind. destruct (m st) as [[[a|e] s]|]; reflexivity.
Qed.

Lemma bind_ext {A B} (m : M A) (k k' : A -> M B) st :
  (forall a s, k a s = k' a s) -> bind m k st = bind m k' st.
Proof.
  intros H. unfold bind. destruct (m st) as [[[a|e] s]|]; auto.
Qed.

Lemma tryCatch_ext {A} (m m' : M A) h st :
  (forall s, m s = m' s) -> tryCatch m h st = tryCatch m' h st.
Proof. intros H. unfold tryCatch. now rewrite H. Qed.

Lemma tryCatch_bind {A B} P Q (m : M A) (k : A -> M B) h st :
  returns P Q m ->
  tryCatch (bind m k) h st = bind m (fun a => tryCatch (k a) h) st.
Proof.
  intros Hm. destruct (Hm st) as (a & s & E & _).
  unfold tryCatch, bind. now rewrite E.
Qed.

Lemma catch_catch_await {A} ev (f : W -> result A * W) (h1 h2 : exn -> M A)
    st :
  tryCatch (tryCatch (await env ev f) h1) h2 st
  = bind (emit ev) (fun _ =>
    bind (request f) (fun r =>
    bind (suspend env) (fun _ =>
    match r with
    | Ok a => ret a
    | Throw e => tryCatch (h1 e) h2
    end))) st.
Proof.
  unfold await, tryCatch, bind, emit, request, suspend. simpl.
  destruct (f (world st)) as [r w]. simpl.
  destruct (intervalElapsed env w) as [fired w']. destruct r; reflexivity.
Qed.

Lemma catch_bind_bind_await {A B C} ev (f : W -> result A * W)
    (k1 : A -> M B) (k2 : B -> M C) (h : exn -> M C) st :
  tryCatch (bind (bind (await env ev f) k1) k2) h st
  = bind (emit ev) (fun _ =>
    bind (request f) (fun r =>
    bind (suspend env) (fun _ =>
    match r with
    | Ok a => tryCatch (bind (k1 a) k2) h
    | Throw e => h e
    end))) st.
Proof.
  unfold await, tryCatch, bind, emit, request, suspend. simpl.
  destruct (f (world st)) as [r w]. simpl.
  destruct (intervalElapsed env w) as [fired w']. destruct r; reflexivity.
Qed.

End Alone.

Ltac push_catch :=
  match goal with
  | |- _ = tryCatch (bind (emit _) _) _ _ =>
    rewrite (tryCatch_bind (P := fun _ => True) (Q := fun _ => True))
      by (apply returns_emit; exact I)
  | |- _ = tryCatch (bind getTotal _) _ _ =>
    rewrite (tryCatch_bind (P := fun _ => True) (Q := fun _ => True))
      by apply returns_getTotal
  | |- _ = tryCatch (bind (setTotal _) _) _ _ =>
    rewrite (tryCatch_bind (P := fun _ => True) (Q := fun _ => True))
      by apply returns_setTotal
  end.

Section Alone_turns.
Variable W : Type.
Variable env : Env W.
Variable u : str.

Notation M := (Effects.M W).

(** What follows a turn of a fetch on its own. *)
Notation after n :=
  (fun ph : phase =>
     match ph with
     | Pending p' => settleAlone env n u p'
     | Settled (Ok data) => ret data
     | Settled (Throw error) => throw error
     end).

(** The [catch] block of the loop. *)
Notation handler k :=
  (fun error : exn =>
     if isRateLimit error
     then bind (delay env) (fun _ => fetchLoop env k u)
     else throw error).

Notation rateLimitExceeded :=
  (Error (lit "Jina AI content fetch rate limit exceeded")).

(** [fetchJinaContent] from its [try] block on. *)
Notation getContent :=
  (tryCatch (await env (EvHttpGet u) (axiosGet env u))
     (fun error =>
        if isAxios429 error then throw rateLimitExceeded else throw error)).

Section Iteration.
Variable k : nat.
Hypothesis timer :
  forall n (st : State W),
    3 * k + 1 <= n ->
    settleAlone env n u (AtTimer k) st
    = bind (suspend env) (fun _ => fetchLoop env k u) st.

Lemma caught_alone n e (st : State W) :
  3 * k + 1 <= n ->
  bind (caught k e) (after n) st = handler k e st.
Proof.
  intros Hn. unfold caught. destruct (isRateLimit e); [|reflexivity].
  rewrite bind_assoc. unfold delay. rewrite bind_assoc.
  apply bind_ext. intros _ s. rewrite bind_ret_l. now apply timer.
Qed.

Lemma requestGet_alone n (st : State W) :
  3 * k + 2 <= n ->
  bind (requestGet env k u) (after n) st
  = tryCatch getContent (handler k) st.
Proof.
  intros Hn. destruct n as [|n]; [lia|].
  rewrite catch_catch_await.
  unfold requestGet. rewrite bind_assoc. apply bind_ext. intros _ s.
  rewrite bind_assoc. apply bind_ext. intros answer s1.
  rewrite bind_ret_l. cbn [settleAlone]. unfold resume.
  rewrite bind_assoc. apply bind_ext. intros _ s2.
  destruct answer as [data | error].
  - reflexivity.
  - rewrite caught_alone by lia.
    unfold tryCatch. destruct (isAxios429 error); reflexivity.
Qed.

Lemma limiter_alone n (st : State W) :
  3 * k + 3 <= n ->
  bind (emit (EvLimit FetchContentLimiter u)) (fun _ =>
  bind (request (fetchContentRatelimit env u)) (fun answer =>
  settleAlone env n u (AtLimiter k answer))) st
  = tryCatch
      (bind
         (bind (await env (EvLimit FetchContentLimiter u)
                  (fetchContentRatelimit env u))
            (fun success =>
               if negb success then throw rateLimitExceeded else ret tt))
         (fun _ => getContent))
      (handler k) st.
Proof.
  intros Hn. destruct n as [|n]; [lia|].
  rewrite catch_bind_bind_await.
  apply bind_ext. intros _ s. apply bind_ext. intros answer s1.
  cbn [settleAlone]. unfold resume.
  rewrite bind_assoc. apply bind_ext. intros _ s2.
  destruct answer as [success | error].
  - destruct (negb success).
    + now rewrite caught_alone by lia.
    + rewrite requestGet_alone by lia. reflexivity.
  - now rewrite caught_alone by lia.
Qed.

Lemma enterLoop_alone n (st : State W) :
  3 * k + 3 <= n ->
  bind (enterLoop env (S k) u) (after n) st = fetchLoop env (S k) u st.
Proof.
  intros Hn. cbn [fetchLoop enterLoop]. unfold fetchJinaContent.
  push_catch. rewrite bind_assoc. apply bind_ext. intros _ s.
  push_catch. rewrite ?bind_assoc. apply bind_ext. intros total s1.
  destruct (contentFetch env <=? total)%Z.
  - now rewrite caught_alone by lia.
  - push_catch. rewrite ?bind_assoc. apply bind_ext. intros _ s2.
    destruct (rateLimitsEnabled env).
    + rewrite <- (@limiter_alone n s2 Hn).
      rewrite ?bind_assoc. apply bind_ext. intros _ s3.
      rewrite ?bind_assoc. apply bind_ext. intros answer s4.
      now rewrite bind_ret_l.
    + rewrite requestGet_alone by lia. reflexivity.
Qed.

End Iteration.

(** A fetch at a timer goes through the rest of the loop. *)
Lemma timer_alone k :
  forall n (st : State W),
    3 * k + 1 <= n ->
    settleAlone env n u (AtTimer k) st
    = bind (suspend env) (fun _ => fetchLoop env k u) st.
Proof.
  induction k as [|k IH]; intros n st Hn;
    (destruct n as [|n]; [lia|]); cbn [settleAlone]; unfold resume;
    rewrite bind_assoc; apply bind_ext; intros _ s.
  - reflexivity.
  - apply enterLoop_alone; [exact IH | lia].
Qed.

(** [fetchJinaContentWithRetry] is its own turns taken in a row. *)
Lemma fetchJinaContentWithRetry_alone (st : State W) :
  fetchJinaContentWithRetry env u st
  = bind (startFetch u) (fun p => settleAlone env fetchTurns u p) st.
Proof.
  unfold fetchJinaContentWithRetry, startFetch, delay.
  rewrite !bind_assoc. apply bind_ext. intros _ s.
  rewrite bind_ret_l. symmetry. apply timer_alone.
  unfold fetchMaxRetries, fetchTurns. lia.
Qed.

End Alone_turns.

(** ** Every function of the route comes to an end *)

Section Finishes.
Variable W : Type.
Variable env : Env W.
Variable R : Z -> Z -> Prop.

Notation P := (invocations R).

Lemma generateSerpQueries_finishes q n l :
  finishes P (generateSerpQueries env q n l).
Proof. unfold generateSerpQueries. finish. Qed.

Lemma safeDuckDuckSearch_finishes q : finishes P (safeDuckDuckSearch env q).
Proof. unfold safeDuckDuckSearch. finish. Qed.

Lemma fetchJinaContent_finishes u : finishes P (fetchJinaContent env u).
Proof. unfold fetchJinaContent. finish. Qed.

Lemma searchLoop_finishes n q : finishes P (searchLoop env n q).
Proof.
  induction n as [|n IH]; simpl; finish; try assumption.
  apply safeDuckDuckSearch_finishes.
Qed.

Lemma fetchLoop_finishes n u : finishes P (fetchLoop env n u).
Proof.
  induction n as [|n IH]; simpl; finish; try assumption.
  apply fetchJinaContent_finishes.
Qed.

Lemma executeDuckDuckSearchWithRetry_finishes q :
  finishes P (executeDuckDuckSearchWithRetry env q).
Proof. apply searchLoop_finishes. Qed.

Lemma fetchJinaContentWithRetry_finishes u :
  finishes P (fetchJinaContentWithRetry env u).
Proof. unfold fetchJinaContentWithRetry. finish. apply fetchLoop_finishes. Qed.

Lemma processSerpResult_finishes q data n m :
  finishes P (processSerpResult env q data n m).
Proof. unfold processSerpResult. finish. Qed.

Lemma fetchContents_finishes rs : finishes P (fetchContents env rs).
Proof.
  intros st.
  destruct (@fetchContents_runs W env R rs st) as (outcomes & st' & _ & E & X).
  now exists (Ok (contentsOf rs outcomes)), st'.
Qed.

Lemma branchTry_finishes b d L U sq :
  finishes P (branchTry env b d L U sq).
Proof.
  unfold branchTry.
  apply finishes_bind; [apply executeDuckDuckSearchWithRetry_finishes|].
  intros rs. apply finishes_bind; [apply fetchContents_finishes|].
  intros contents. unfold processResults.
  apply finishes_bind; [apply processSerpResult_finishes|].
  intros pr. destruct (0 <? d - 1)%Z; apply finishes_ret.
Qed.

(** What the [try] block of a sub-query can return: a result without
    errors, or a call with the halved breadth and the decremented depth,
    the latter being positive. *)
Lemma branchTry_returns b d L U sq (st : State W) x st' :
  branchTry env b d L U sq st = Some (Ok x, st') ->
  match x with
  | OwnResult r => errors r = []
  | RecursiveCall _ b' d' _ _ =>
    b' = ceilHalf b /\ d' = (d - 1)%Z /\ (0 < d - 1)%Z
  end.
Proof.
  unfold branchTry, processResults. intros H.
  apply bind_Ok_inv in H. destruct H as (rs & s1 & _ & H).
  apply bind_Ok_inv in H. destruct H as (cs & s2 & _ & H).
  apply bind_Ok_inv in H. destruct H as (pr & s3 & _ & H).
  destruct (0 <? d - 1)%Z eqn:E; inversion H; subst; simpl.
  - apply Z.ltb_lt in E. auto.
  - reflexivity.
Qed.

(** One sub-query, case by case. *)
Lemma branch_eq (self : research W) b d L U errors sq (st : State W) :
  branch env self b d L U errors sq st
  = match branchTry env b d L U sq st with
    | None => None
    | Some (Ok x, st1) =>
      match settle self x st1 with
      | None => None
      | Some (Ok r, st2) => Some (Ok (r, errors), st2)
      | Some (Throw e, st2) => Some (Throw e, st2)
      end
    | Some (Throw e, st1) =>
      Some (Ok ({| learnings := [];
                   visitedUrls := [];
                   errors := [branchErrorMsg sq e] |},
                errors ++ [branchErrorMsg sq e]), st1)
    end.
Proof.
  unfold branch, bind, tryCatch.
  destruct (branchTry env b d L U sq st) as [[[x|e] st1]|];
    simpl; try reflexivity;
    destruct (settle self x st1) as [[[r|e'] st2]|]; reflexivity.
Qed.

(** A sub-query comes to an end as soon as the recursive calls it can make
    do: those with the halved breadth and the decremented depth, when that
    depth is positive. *)
Lemma branch_finishes (self : research W) b d L U errors sq :
  ((0 < d - 1)%Z ->
   forall q' L' U', finishes P (self q' (ceilHalf b) (d - 1)%Z L' U')) ->
  finishes P (branch env self b d L U errors sq).
Proof.
  intros Hself st. rewrite branch_eq.
  destruct (branchTry_finishes b d L U sq st) as (r & st1 & E & X).
  rewrite E. destruct r as [x|e].
  - pose proof E as Hx; apply branchTry_returns in Hx.
    destruct x as [r0 | q' b' d' L' U']; simpl.
    + eexists _, _. split; [reflexivity | exact X].
    + destruct Hx as (-> & -> & Hd).
      destruct (Hself Hd q' L' U' st1) as (r' & st2 & E' & X').
      rewrite E'. destruct r' as [r'|e'];
        eexists _, _; (split; [reflexivity|]);
        eapply extends_trans; eassumption.
  - eexists _, _. split; [reflexivity | exact X].
Qed.

Lemma runBranches_finishes (self : research W) b d L U sqs :
  ((0 < d - 1)%Z ->
   forall q' L' U', finishes P (self q' (ceilHalf b) (d - 1)%Z L' U')) ->
  forall errors, finishes P (runBranches env self b d L U errors sqs).
Proof.
  intros Hself. induction sqs as [|sq sqs IH]; intros errors; simpl.
  - apply finishes_ret.
  - apply finishes_bind; [now apply branch_finishes|].
    intros p. apply finishes_bind; [apply IH|].
    intros q. apply finishes_ret.
Qed.

End Finishes.

Section Recursion.
Variable W : Type.
Variable env : Env W.

Lemma below_step (b d b' d' : Z) :
  (0 < d - 1)%Z -> below (ceilHalf b) (d - 1) b' d' -> below b d b' d'.
Proof.
  intros Hd (k & Hk & Ed & Eb). exists (S k). repeat split.
  - lia.
  - lia.
  - rewrite Eb. symmetry. apply Nat.iter_succ_r.
Qed.

(** With fuel for [levels depth] nested invocations, [deepResearch] comes
    to an end, and every invocation on the way is [below] the first. *)
Lemma deepResearch_finishes (fuel : nat) :
  forall q b d L U,
    (levels d <= fuel)%nat ->
    finishes (invocations (below b d)) (deepResearch env fuel q b d L U).
Proof.
  induction fuel as [|fuel IH]; intros q b d L U Hfuel.
  - unfold levels in Hfuel. lia.
  - simpl. unfold deepResearchBody.
    apply finishes_bind.
    { apply finishes_emit. simpl. exists O. repeat split; simpl; lia. }
    intros _. apply finishes_bind.
    { apply finishes_tryCatch; [apply generateSerpQueries_finishes|].
      intros e. apply finishes_throw. }
    intros sqs. apply finishes_bind; [|intros p; apply finishes_ret].
    apply runBranches_finishes.
    intros Hd q' L' U'.
    eapply finishes_weaken; [|apply IH].
    + intros [ | | | | | q0 b0 d0 | | ]; simpl; auto.
      now apply below_step.
    + unfold levels in *. lia.
Qed.


End Recursion.

(** ** The recursion of [deepResearch] *)



(** The bound is reached: in the healthy world an invocation with depth 2
    does not fit in one level. *)
Example deepResearch_needs_two_levels :
  deepResearch Scenario.healthy 1 Scenario.topic 4%Z 2%Z [] []
               (Scenario.start 0)
  = None.
Proof. vm_compute. reflexivity. Qed.

(** A failure of the query generation one level down is not contained in
    the sub-query that made the recursive call: the call is returned
    without being awaited, its rejection passes by the [catch] block, and
    the outer invocation throws. *)
Example nested_generation_failure_escapes :
  exists st',
    deepResearch Scenario.noFollowUps 2 Scenario.topic 3%Z 2%Z [] []
                 (Scenario.start 0)
    = Some (Throw (Error (lit "Failed to generate initial search queries")),
            st').
Proof. eexists. vm_compute. reflexivity. Qed.

(** ** Aggregation *)

Section Aggregation.
Variable W : Type.
Variable env : Env W.

Lemma deepResearch_Ok_inv fuel q b d L U (st : State W) r st' :
  deepResearch env fuel q b d L U st = Some (Ok r, st') ->
  exists results errors, r = aggregate results errors.
Proof.
  destruct fuel as [|fuel]; [discriminate|]. simpl.
  unfold deepResearchBody. intros H.
  apply bind_Ok_inv in H. destruct H as (u & s0 & _ & H).
  apply bind_Ok_inv in H. destruct H as (sqs & s1 & _ & H).
  apply bind_Ok_inv in H. destruct H as (p & s2 & _ & H).
  inversion H; subst. now exists (fst p), (snd p).
Qed.

End Aggregation.

(** C2.  Whatever the query, breadth, depth and seed, in every world: a
    result returned by [deepResearch] has no string twice in [learnings]
    and no URL twice in [visitedUrls]. *)
Theorem deepResearch_no_duplicates
    (W : Type) (env : Env W) (fuel : nat) (q : str) (b d : Z)
    (L U : list str) (st : State W) (r : ResearchResult) (st' : State W) :
  deepResearch env fuel q b d L U st = Some (Ok r, st') ->
  NoDup (learnings r) /\ NoDup (visitedUrls r).
Proof.
  intros H. apply deepResearch_Ok_inv in H.
  destruct H as (results & errors & ->). simpl.
  split; apply spreadSet_NoDup.
Qed.

Lemma deepResearch_no_duplicates_witness :
  exists r st',
    deepResearch Scenario.healthy 2 Scenario.topic 4%Z 2%Z [] []
                 (Scenario.start 0) = Some (Ok r, st')
    /\ NoDup (learnings r) /\ NoDup (visitedUrls r).
Proof.
  eexists. eexists. split.
  - vm_compute. reflexivity.
  - eapply (@deepResearch_no_duplicates unit Scenario.healthy 2
              Scenario.topic 4%Z 2%Z [] [] (Scenario.start 0)).
    vm_compute. reflexivity.
Defined.

(** ** Failing sub-queries *)

Section Failing_branches.
Variable W : Type.
Variable env : Env W.

Lemma runBranches_allFail (self : research W) b d L U sqs st st' :
  allBranchesFail env b d L U sqs st st' ->
  forall errors,
  exists results msgs,
    runBranches env self b d L U errors sqs st
    = Some (Ok (results, errors ++ msgs), st')
    /\ length msgs = length sqs
    /\ flat_map learnings results = []
    /\ flat_map visitedUrls results = []
    /\ flat_map Route.errors results = msgs.
Proof.
  induction 1 as [st | sq rest st e st1 st2 Hsq Hrest IH]; intros errors.
  - exists [], []. simpl. now rewrite app_nil_r.
  - destruct (IH (errors ++ [branchErrorMsg sq e]))
      as (results & msgs & E & Hlen & HL & HU & HE).
    eexists (_ :: results), (branchErrorMsg sq e :: msgs).
    simpl. unfold bind at 1. rewrite branch_eq, Hsq.
    unfold bind at 1. simpl snd. rewrite E. simpl.
    rewrite <- app_assoc. simpl.
    repeat split; try assumption.
    + now rewrite Hlen.
    + now rewrite HE.
Qed.

(** When every sub-query of an invocation fails, the invocation returns
    no learnings and no URLs, and each failure twice: once from the array
    [errors] that the [catch] block pushes to, once from the result that
    the same block returns. *)
Lemma all_failed_invocation (self : research W) q b d L U st sqs st1 st2 :
  generateSerpQueries env q b (Some L) (entered q b d st)
  = Some (Ok sqs, st1) ->
  allBranchesFail env b d L U sqs st1 st2 ->
  exists msgs,
    deepResearchBody env self q b d L U st
    = Some (Ok {| learnings := []; visitedUrls := [];
                  errors := msgs ++ msgs |}, st2)
    /\ length msgs = length sqs.
Proof.
  intros Hgen Hfail.
  destruct (runBranches_allFail self Hfail []) as
    (results & msgs & E & Hlen & HL & HU & HE).
  exists msgs. split; [|assumption].
  unfold deepResearchBody. unfold bind at 1. simpl.
  fold (entered q b d st).
  unfold bind at 1. erewrite tryCatch_ok by exact Hgen.
  unfold bind at 1. rewrite E. simpl.
  unfold aggregate. simpl. now rewrite HL, HU, HE.
Qed.

End Failing_branches.

(** C3.  In the world whose model never produces a usable summary, an
    invocation with depth 1 and breadth 3 gets three sub-queries and all
    three fail at the summary.  The result has no learnings and no URLs,
    and its [errors] holds the three messages twice over, six entries. *)
Theorem three_failed_branches_give_six_errors :
  exists st',
    deepResearch Scenario.noSummaries 1 Scenario.topic 3%Z 1%Z [] []
                 (Scenario.start 0)
    = Some (Ok {| learnings := [];
                  visitedUrls := [];
                  errors := Scenario.threeFailures ++ Scenario.threeFailures |},
            st')
    /\ length (Scenario.threeFailures ++ Scenario.threeFailures) = 6%nat.
Proof. eexists. split; [vm_compute; reflexivity | reflexivity]. Qed.

(** C10.  An invocation whose sub-queries all fail returns empty
    [learnings] and [visitedUrls] whatever seed it was given: the seed
    [L], [U] of the caller is not carried into the result. *)
Theorem seed_discarded_when_all_branches_fail
    (W : Type) (env : Env W) (self : research W) (q : str) (b d : Z)
    (L U : list str) (st : State W) (sqs : list SerpQuery)
    (st1 st2 : State W) :
  generateSerpQueries env q b (Some L) (entered q b d st)
  = Some (Ok sqs, st1) ->
  allBranchesFail env b d L U sqs st1 st2 ->
  exists r,
    deepResearchBody env self q b d L U st = Some (Ok r, st2)
    /\ learnings r = []
    /\ visitedUrls r = [].
Proof.
  intros Hgen Hfail.
  destruct (all_failed_invocation self q st Hgen Hfail) as (msgs & E & _).
  eexists. split; [exact E|]. split; reflexivity.
Qed.

Lemma seed_discarded_when_all_branches_fail_witness :
  exists st1 st2 r,
    generateSerpQueries Scenario.noSummaries Scenario.topic 3%Z
      (Some [lit "Cobalt is scarce"])
      (entered Scenario.topic 3%Z 1%Z (Scenario.start 0))
    = Some (Ok Scenario.threeQueries, st1)
    /\ allBranchesFail Scenario.noSummaries 3%Z 1%Z
         [lit "Cobalt is scarce"] [lit "https://example.org/cobalt"]
         Scenario.threeQueries st1 st2
    /\ deepResearch Scenario.noSummaries 1 Scenario.topic 3%Z 1%Z
         [lit "Cobalt is scarce"] [lit "https://example.org/cobalt"]
         (Scenario.start 0)
       = Some (Ok r, st2)
    /\ learnings r = []
    /\ visitedUrls r = [].
Proof.
  assert (Hgen : exists st1,
             generateSerpQueries Scenario.noSummaries Scenario.topic 3%Z
               (Some [lit "Cobalt is scarce"])
               (entered Scenario.topic 3%Z 1%Z (Scenario.start 0))
             = Some (Ok Scenario.threeQueries, st1)).
  { eexists. vm_compute. reflexivity. }
  destruct Hgen as (st1 & Hgen).
  assert (Hfail : exists st2,
             allBranchesFail Scenario.noSummaries 3%Z 1%Z
               [lit "Cobalt is scarce"] [lit "https://example.org/cobalt"]
               Scenario.threeQueries st1 st2).
  { inversion Hgen as [E]. clear Hgen. subst st1.
    eexists. unfold Scenario.threeQueries.
    eapply allFail_cons; [vm_compute; reflexivity|].
    eapply allFail_cons; [vm_compute; reflexivity|].
    eapply allFail_cons; [vm_compute; reflexivity|].
    apply allFail_nil. }
  destruct Hfail as (st2 & Hfail).
  destruct (@seed_discarded_when_all_branches_fail unit Scenario.noSummaries
              (deepResearch Scenario.noSummaries 0) Scenario.topic 3%Z 1%Z
              [lit "Cobalt is scarce"] [lit "https://example.org/cobalt"]
              (Scenario.start 0) Scenario.threeQueries st1 st2 Hgen Hfail)
    as (r & E & HL & HU).
  exists st1, st2, r. repeat split; assumption.
Defined.

(** ** The retrying wrappers *)

Section Retry.
Variable W : Type.
Variable env : Env W.

Lemma searchLoop_retryLoop n q (st : State W) :
  searchLoop env n q st
  = retryLoop env (safeDuckDuckSearch env q) searchExhausted n st.
Proof.
  revert st. induction n as [|n IH]; intros st; simpl; [reflexivity|].
  unfold tryCatch.
  destruct (safeDuckDuckSearch env q st) as [[[a|e] st1]|]; try reflexivity.
  destruct (isRateLimit e); [|reflexivity].
  unfold bind. destruct (delay env st1) as [[[[]|e'] st2]|]; try reflexivity.
  apply IH.
Qed.

Lemma fetchLoop_retryLoop n u (st : State W) :
  fetchLoop env n u st
  = retryLoop env (fetchJinaContent env u) fetchExhausted n st.
Proof.
  revert st. induction n as [|n IH]; intros st; simpl; [reflexivity|].
  unfold tryCatch.
  destruct (fetchJinaContent env u st) as [[[a|e] st1]|]; try reflexivity.
  destruct (isRateLimit e); [|reflexivity].
  unfold bind. destruct (delay env st1) as [[[[]|e'] st2]|]; try reflexivity.
  apply IH.
Qed.

Lemma retryLoop_step {A} (op : M W A) ex k st e st1 st2 :
  op st = Some (Throw e, st1) ->
  isRateLimit e = true ->
  delay env st1 = Some (Ok tt, st2) ->
  retryLoop env op ex (S k) st = retryLoop env op ex k st2.
Proof.
  intros Hop Hrl Hd. simpl. unfold tryCatch. rewrite Hop, Hrl.
  unfold bind. now rewrite Hd.
Qed.

(** The attempts are used up: the loop throws its own error. *)
Lemma retryLoop_exhausted {A} (op : M W A) ex es st st' :
  rateLimited env op es st st' ->
  retryLoop env op ex (length es) st = Some (Throw ex, st').
Proof.
  induction 1 as [st | e es st st1 st2 st3 Hop Hrl Hd Hrest IH].
  - reflexivity.
  - simpl length.
    now rewrite (@retryLoop_step _ op ex (length es) _ _ _ _ Hop Hrl Hd).
Qed.

(** An error that is not taken for a rate-limit error ends the loop at
    once, after however many rate-limited attempts. *)
Lemma retryLoop_fatal {A} (op : M W A) ex es k st st1 e st2 :
  rateLimited env op es st st1 ->
  op st1 = Some (Throw e, st2) ->
  isRateLimit e = false ->
  retryLoop env op ex (length es + S k) st = Some (Throw e, st2).
Proof.
  intros Hn Hop Hfatal.
  induction Hn as [st | e0 es st st0 st0' st3 Hop0 Hrl Hd Hrest IH].
  - simpl. unfold tryCatch. now rewrite Hop, Hfatal.
  - simpl length. simpl plus.
    rewrite (@retryLoop_step _ op ex (length es + S k) _ _ _ _ Hop0 Hrl Hd).
    now apply IH.
Qed.

Lemma retryLoop_success {A} (op : M W A) ex es k st st1 a st2 :
  rateLimited env op es st st1 ->
  op st1 = Some (Ok a, st2) ->
  retryLoop env op ex (length es + S k) st = Some (Ok a, st2).
Proof.
  intros Hn Hop.
  induction Hn as [st | e0 es st st0 st0' st3 Hop0 Hrl Hd Hrest IH].
  - simpl. unfold tryCatch. now rewrite Hop.
  - simpl length. simpl plus.
    rewrite (@retryLoop_step _ op ex (length es + S k) _ _ _ _ Hop0 Hrl Hd).
    now apply IH.
Qed.

Lemma rateLimited_errors {A} (op : M W A) es st st' :
  rateLimited env op es st st' ->
  Forall (fun e => isRateLimit e = true) es.
Proof. induction 1; constructor; assumption. Qed.

(** A wait during which the counter is not reset. *)
Lemma delay_without_reset (st : State W) :
  fst (intervalElapsed env (world st)) = false ->
  delay env st
  = Some (Ok tt, {| totalJinaRequests := totalJinaRequests st;
                    world := afterWait env (world st);
                    trace := trace st ++ [EvDelay] |}).
Proof.
  intros H. unfold delay, bind, emit, suspend, afterWait. simpl.
  destruct (intervalElapsed env (world st)) as [fired w]. simpl in *.
  now subst.
Qed.

(** With the counter used up, an attempt fails before anything else
    happens. *)
Lemma fetchJinaContent_exhausted u (st : State W) :
  (contentFetch env <= totalJinaRequests st)%Z ->
  fetchJinaContent env u st
  = Some (Throw globalBudgetExceeded,
          {| totalJinaRequests := totalJinaRequests st;
             world := world st;
             trace := trace st ++ [EvFetchJinaContent u] |}).
Proof.
  intros H. unfold fetchJinaContent, bind, emit, getTotal. simpl.
  apply Z.leb_le in H. now rewrite H.
Qed.

End Retry.

(** C4, as the code has it.  When the global counter is used up, an
    attempt of [fetchJinaContent] fails at once with the global-budget
    error: no rate limiter and no network is called and the counter is left
    as it is.  That error is taken for a rate-limit error like the per-key
    ones, so it is retried: when the counter is not reset during the waits,
    [fetchJinaContentWithRetry] waits, makes its two attempts with a wait
    after each, and fails with its own error. *)
Theorem exhausted_budget_is_retried
    (W : Type) (env : Env W) (u : str) (st : State W) :
  (contentFetch env <= totalJinaRequests st)%Z ->
  fst (intervalElapsed env (world st)) = false ->
  fst (intervalElapsed env (afterWait env (world st))) = false ->
  fst (intervalElapsed env (afterWait env (afterWait env (world st))))
  = false ->
  fetchJinaContent env u st
  = Some (Throw globalBudgetExceeded,
          {| totalJinaRequests := totalJinaRequests st;
             world := world st;
             trace := trace st ++ [EvFetchJinaContent u] |})
  /\ isRateLimit globalBudgetExceeded = true
  /\ fetchJinaContentWithRetry env u st
     = Some (Throw fetchExhausted,
             {| totalJinaRequests := totalJinaRequests st;
                world := afterWait env (afterWait env (afterWait env (world st)));
                trace := trace st ++ [EvDelay; EvFetchJinaContent u; EvDelay;
                                      EvFetchJinaContent u; EvDelay] |}).
Proof.
  intros Hfull H1 H2 H3.
  split; [now apply fetchJinaContent_exhausted|].
  split; [vm_compute; reflexivity|].
  unfold fetchJinaContentWithRetry.
  erewrite bind_eq by (apply delay_without_reset; exact H1).
  simpl fetchLoop. unfold tryCatch.
  rewrite fetchJinaContent_exhausted by exact Hfull.
  replace (isRateLimit globalBudgetExceeded) with true
    by (vm_compute; reflexivity).
  erewrite bind_eq by (apply delay_without_reset; exact H2).
  rewrite fetchJinaContent_exhausted by exact Hfull.
  replace (isRateLimit globalBudgetExceeded) with true
    by (vm_compute; reflexivity).
  erewrite bind_eq by (apply delay_without_reset; exact H3).
  unfold throw. simpl. repeat rewrite <- app_assoc. reflexivity.
Qed.

Lemma exhausted_budget_is_retried_witness :
  (contentFetch Scenario.healthy
   <= totalJinaRequests (Scenario.start 20))%Z
  /\ fetchJinaContentWithRetry Scenario.healthy (lit "https://example.org/a")
       (Scenario.start 20)
     = Some (Throw fetchExhausted,
             {| totalJinaRequests := 20;
                world := tt;
                trace := [EvDelay;
                          EvFetchJinaContent (lit "https://example.org/a");
                          EvDelay;
                          EvFetchJinaContent (lit "https://example.org/a");
                          EvDelay] |}).
Proof.
  split; [vm_compute; discriminate|].
  apply (@exhausted_budget_is_retried unit Scenario.healthy
           (lit "https://example.org/a") (Scenario.start 20));
    first [reflexivity | vm_compute; discriminate].
Defined.

(** C4 as it was stated does not hold: with the counter used up, the call
    makes two attempts, and the error it fails with is not the
    global-budget error. *)
Lemma exhausted_budget_counterexample :
  (contentFetch Scenario.healthy
   <= totalJinaRequests (Scenario.start 20))%Z
  /\ exists st',
       fetchJinaContentWithRetry Scenario.healthy
         (lit "https://example.org/a") (Scenario.start 20)
       = Some (Throw fetchExhausted, st')
       /\ Scenario.countAttempts (lit "https://example.org/a") (trace st')
          = 2%nat
       /\ fetchExhausted <> globalBudgetExceeded.
Proof.
  split; [vm_compute; discriminate|].
  eexists. split; [vm_compute; reflexivity|].
  split; [vm_compute; reflexivity | discriminate].
Qed.

(** C6, as the code has it.  When every attempt of the wrapped operation
    fails with an error taken for a rate-limit error until the attempts are
    used up (three for the search, two for the content fetch), the wrapper
    fails with an error of its own, which is none of the errors of the
    operation.  An error that is not taken for a rate-limit error is not
    retried: the wrapper fails with it in the state in which it was
    thrown, whether at the first attempt or after rate-limited ones. *)
Theorem retry_wrappers_throw_their_own_error
    (W : Type) (env : Env W) (q u : str) :
  (forall es st st',
      length es = 3%nat ->
      rateLimited env (safeDuckDuckSearch env q) es st st' ->
      executeDuckDuckSearchWithRetry env q st
      = Some (Throw searchExhausted, st')
      /\ ~ In searchExhausted es)
  /\ (forall es st st0 st',
        length es = 2%nat ->
        delay env st = Some (Ok tt, st0) ->
        rateLimited env (fetchJinaContent env u) es st0 st' ->
        fetchJinaContentWithRetry env u st
        = Some (Throw fetchExhausted, st')
        /\ ~ In fetchExhausted es)
  /\ (forall es st st1 e st2,
        (length es < 3)%nat ->
        rateLimited env (safeDuckDuckSearch env q) es st st1 ->
        safeDuckDuckSearch env q st1 = Some (Throw e, st2) ->
        isRateLimit e = false ->
        executeDuckDuckSearchWithRetry env q st = Some (Throw e, st2))
  /\ (forall es st st0 st1 e st2,
        (length es < 2)%nat ->
        delay env st = Some (Ok tt, st0) ->
        rateLimited env (fetchJinaContent env u) es st0 st1 ->
        fetchJinaContent env u st1 = Some (Throw e, st2) ->
        isRateLimit e = false ->
        fetchJinaContentWithRetry env u st = Some (Throw e, st2)).
Proof.
  assert (Hown : forall (A : Type) (op : M W A) ex es st st',
             isRateLimit ex = false ->
             rateLimited env op es st st' -> ~ In ex es).
  { intros A op ex es st st' Hex Hes Hin.
    apply rateLimited_errors in Hes.
    rewrite Forall_forall in Hes. apply Hes in Hin. congruence. }
  repeat split.
  - unfold executeDuckDuckSearchWithRetry. rewrite searchLoop_retryLoop.
    unfold searchMaxRetries. rewrite <- H. now apply retryLoop_exhausted.
  - eapply Hown; [|eassumption]. vm_compute. reflexivity.
  - unfold fetchJinaContentWithRetry. erewrite bind_eq by eassumption.
    rewrite fetchLoop_retryLoop.
    unfold fetchMaxRetries. rewrite <- H. now apply retryLoop_exhausted.
  - eapply Hown; [|eassumption]. vm_compute. reflexivity.
  - intros es st st1 e st2 Hlen Hes Hop Hfatal.
    unfold executeDuckDuckSearchWithRetry. rewrite searchLoop_retryLoop.
    unfold searchMaxRetries.
    replace 3%nat with (length es + S (2 - length es))%nat by lia.
    eapply retryLoop_fatal; eassumption.
  - intros es st st0 st1 e st2 Hlen Hd Hes Hop Hfatal.
    unfold fetchJinaContentWithRetry. erewrite bind_eq by eassumption.
    rewrite fetchLoop_retryLoop. unfold fetchMaxRetries.
    replace 2%nat with (length es + S (1 - length es))%nat by lia.
    eapply retryLoop_fatal; eassumption.
Qed.

Lemma retry_wrappers_throw_their_own_error_witness :
  (exists st',
      rateLimited Scenario.throttled
        (safeDuckDuckSearch Scenario.throttled Scenario.topic)
        [searchRateLimitExceeded; searchRateLimitExceeded;
         searchRateLimitExceeded]
        (Scenario.start 0) st'
      /\ executeDuckDuckSearchWithRetry Scenario.throttled Scenario.topic
           (Scenario.start 0)
         = Some (Throw searchExhausted, st'))
  /\ (exists e st2,
        safeDuckDuckSearch Scenario.blocked Scenario.topic (Scenario.start 0)
        = Some (Throw e, st2)
        /\ isRateLimit e = false
        /\ executeDuckDuckSearchWithRetry Scenario.blocked Scenario.topic
             (Scenario.start 0)
           = Some (Throw e, st2)).
Proof.
  destruct (@retry_wrappers_throw_their_own_error unit Scenario.throttled
              Scenario.topic Scenario.topic) as (Hsearch & _ & _ & _).
  destruct (@retry_wrappers_throw_their_own_error unit Scenario.blocked
              Scenario.topic Scenario.topic) as (_ & _ & Hfatal & _).
  split.
  - assert (Hes : exists st',
               rateLimited Scenario.throttled
                 (safeDuckDuckSearch Scenario.throttled Scenario.topic)
                 [searchRateLimitExceeded; searchRateLimitExceeded;
                  searchRateLimitExceeded]
                 (Scenario.start 0) st').
    { eexists.
      eapply limited_cons;
        [vm_compute; reflexivity | vm_compute; reflexivity
        | vm_compute; reflexivity |].
      eapply limited_cons;
        [vm_compute; reflexivity | vm_compute; reflexivity
        | vm_compute; reflexivity |].
      eapply limited_cons;
        [vm_compute; reflexivity | vm_compute; reflexivity
        | vm_compute; reflexivity |].
      apply limited_nil. }
    destruct Hes as (st' & Hes). exists st'. split; [exact Hes|].
    exact (proj1 (Hsearch [searchRateLimitExceeded; searchRateLimitExceeded;
                           searchRateLimitExceeded] _ _ eq_refl Hes)).
  - eexists. eexists. split; [vm_compute; reflexivity|].
    split; [vm_compute; reflexivity|].
    apply (Hfatal [] (Scenario.start 0) (Scenario.start 0));
      [simpl; lia | apply limited_nil | vm_compute; reflexivity
      | vm_compute; reflexivity].
Defined.

(** C6 as it was stated does not hold: in the world whose rate limiter
    refuses every request, the three attempts of the search each fail with
    the rate-limit error of [safeDuckDuckSearch], and the wrapper fails
    with another error than this last one. *)
Lemma retry_wrapper_counterexample :
  exists st',
    rateLimited Scenario.throttled
      (safeDuckDuckSearch Scenario.throttled Scenario.topic)
      [searchRateLimitExceeded; searchRateLimitExceeded;
       searchRateLimitExceeded]
      (Scenario.start 0) st'
    /\ executeDuckDuckSearchWithRetry Scenario.throttled Scenario.topic
         (Scenario.start 0)
       = Some (Throw searchExhausted, st')
    /\ last [searchRateLimitExceeded; searchRateLimitExceeded;
             searchRateLimitExceeded] searchExhausted
       <> searchExhausted.
Proof.
  eexists. split; [|split].
  - eapply limited_cons;
      [vm_compute; reflexivity | vm_compute; reflexivity
      | vm_compute; reflexivity |].
    eapply limited_cons;
      [vm_compute; reflexivity | vm_compute; reflexivity
      | vm_compute; reflexivity |].
    eapply limited_cons;
      [vm_compute; reflexivity | vm_compute; reflexivity
      | vm_compute; reflexivity |].
    apply limited_nil.
  - vm_compute. reflexivity.
  - simpl. discriminate.
Qed.

(** ** The handler *)

Section Handler.
Variable W : Type.
Variable env : Env W.

Lemma webPagesFrom_returns index L U (st : State W) :
  exists pages st',
    webPagesFrom env index L U st = Some (Ok pages, st')
    /\ length pages = length U.
Proof.
  revert index st. induction U as [|u U IH]; intros index st; simpl.
  - now exists [], st.
  - unfold bind at 1. unfold now at 1.
    destruct (dateNow env (world st)) as [t w].
    match goal with
    | |- context [bind (webPagesFrom env (S index) L U) _ ?s] =>
      destruct (IH (S index) s) as (pages & st' & E & Hlen)
    end.
    unfold bind. rewrite E. eexists _, _. split; [reflexivity|].
    simpl. now rewrite Hlen.
Qed.

(** Whenever [deepResearch] returns, the handler answers with status 200
    and the result, whether or not the result has learnings. *)
Lemma POST_answers_200_when_research_returns rq (st st1 : State W) r st2 :
  rq_query rq <> [] ->
  allowed env (rq_query rq) st = Some (Ok true, st1) ->
  deepResearch env (levels (depthOf rq)) (rq_query rq)
               (breadthOf rq) (depthOf rq) [] [] st1
  = Some (Ok r, st2) ->
  exists pages st3,
    POST env (Some rq) st
    = Some (Ok {| status := 200;
                  body := ResultPayload pages (learnings r) (errors r) |},
            st3).
Proof.
  intros Hq Hadm Hres. unfold POST. cbv zeta.
  destruct (rq_query rq) as [|c query] eqn:Eq; [congruence|].
  destruct (webPagesFrom_returns 0 (learnings r) (visitedUrls r) st2)
    as (pages & st3 & Epages & _).
  exists pages, st3.
  unfold tryCatch at 1. unfold bind at 1.
  rewrite Hadm. cbn [negb]. cbv beta.
  unfold tryCatch at 1. unfold bind at 1.
  rewrite Hres.
  unfold bind. rewrite Epages. reflexivity.
Qed.

(** The handler reports a failure of the operation exactly when
    [deepResearch] throws. *)
Lemma POST_answers_500_when_research_throws rq (st st1 : State W) e st2 :
  rq_query rq <> [] ->
  allowed env (rq_query rq) st = Some (Ok true, st1) ->
  deepResearch env (levels (depthOf rq)) (rq_query rq)
               (breadthOf rq) (depthOf rq) [] [] st1
  = Some (Throw e, st2) ->
  POST env (Some rq) st
  = Some (Ok {| status := 500;
                body := ErrorPayload (lit "Failed to perform deep search") |},
          st2).
Proof.
  intros Hq Hadm Hres. unfold POST. cbv zeta.
  destruct (rq_query rq) as [|c query] eqn:Eq; [congruence|].
  unfold tryCatch at 1. unfold bind at 1.
  rewrite Hadm. cbn [negb]. cbv beta.
  unfold tryCatch at 1. unfold bind at 1.
  rewrite Hres.
  reflexivity.
Qed.

Lemma webPagesFrom_finishes index L U :
  finishes (fun _ => True) (webPagesFrom env index L U).
Proof.
  revert index. induction U as [|u U IH]; intros index; simpl.
  - apply finishes_ret.
  - apply finishes_bind; [apply finishes_now|]. intros t.
    apply finishes_bind; [apply IH|]. intros pages. apply finishes_ret.
Qed.

(** The handler always answers: the fuel it gives to [deepResearch] is
    enough for every depth. *)
Lemma POST_finishes request : finishes (fun _ => True) (POST env request).
Proof.
  unfold POST. destruct request as [rq|]; [|apply finishes_ret].
  cbv zeta. destruct (rq_query rq) as [|c query]; [apply finishes_ret|].
  apply finishes_tryCatch; [|intros e; apply finishes_ret].
  apply finishes_bind.
  { unfold allowed. destruct (rateLimitsEnabled env);
      [apply finishes_await; exact I | apply finishes_ret]. }
  intros success. destruct (negb success); [apply finishes_ret|].
  apply finishes_tryCatch.
  - apply finishes_bind.
    + eapply finishes_weaken; [|apply deepResearch_finishes; lia].
      intros ev _. exact I.
    + intros r. apply finishes_bind; [apply webPagesFrom_finishes|].
      intros pages. apply finishes_ret.
  - intros e. unfold onDeepSearchError. apply finishes_ret.
Qed.

End Handler.

(** C5.  In the world whose model never produces a usable summary, the
    request for one level of research with breadth 3 is answered with
    status 200 although the result has no learning at all: the body has no
    pages, no learnings, and the six error entries of the three failed
    sub-queries. *)
Theorem POST_reports_success_without_learnings :
  exists st',
    POST Scenario.noSummaries (Some Scenario.shallowRequest)
         (Scenario.start 0)
    = Some (Ok {| status := 200;
                  body := ResultPayload [] []
                            (Scenario.threeFailures
                             ++ Scenario.threeFailures) |},
            st').
Proof. eexists. vm_compute. reflexivity. Qed.

(** ** The JSON repair *)

(** After the second replacement every quote has a backslash before it,
    the quotes that delimit keys and strings included. *)
Lemma escapeQuotesAfter_escaped (s : str) (prev : option char) :
  Repair.quotesEscaped prev (Repair.escapeQuotesAfter prev s) = true.
Proof.
  revert prev. induction s as [|c s IH]; intros prev; simpl; [reflexivity|].
  destruct (c =? QUOTE)%N eqn:Ec; simpl.
  - destruct prev as [p|]; simpl.
    + destruct (p =? BACKSLASH)%N eqn:Ep; simpl.
      * rewrite Ec, Ep. simpl. apply IH.
      * apply N.eqb_eq in Ec. subst c. apply (IH (Some QUOTE)).
    + apply N.eqb_eq in Ec. subst c. apply (IH (Some QUOTE)).
  - rewrite Ec. simpl. apply IH.
Qed.

Lemma escapeQuotes_escaped (s : str) :
  Repair.quotesEscaped None (Repair.escapeQuotes s) = true.
Proof. apply escapeQuotesAfter_escaped. Qed.

(** *** Text in which every quote is escaped is not JSON *)


Lemma tailFrom_plain (c : char) (s : str) :
  isPlain c = true -> tailFrom (c :: s) = tailFrom s.
Proof. intros H. unfold tailFrom. simpl. now rewrite H. Qed.

Lemma tailFrom_dropWhile (f : char -> bool) (s : str) :
  (forall c, f c = true -> isPlain c = true) ->
  tailFrom (dropWhile f s) = tailFrom s.
Proof.
  intros Hf. induction s as [|c s IH]; simpl; [reflexivity|].
  destruct (f c) eqn:E; [|reflexivity].
  rewrite IH. symmetry. apply tailFrom_plain. now apply Hf.
Qed.

Lemma isWs_plain (c : char) : isWs c = true -> isPlain c = true.
Proof.
  unfold isWs. rewrite !orb_true_iff, !N.eqb_eq.
  intros [[[-> | ->] | ->] | ->]; reflexivity.
Qed.

Lemma isDigit_plain (c : char) : isDigit c = true -> isPlain c = true.
Proof.
  unfold isDigit, isPlain, QUOTE, BACKSLASH.
  rewrite andb_true_iff, !N.leb_le. intros [H1 H2].
  rewrite negb_true_iff, orb_false_iff, !N.eqb_neq. lia.
Qed.

Lemma tailFrom_skipWs (s : str) : tailFrom (skipWs s) = tailFrom s.
Proof. apply tailFrom_dropWhile, isWs_plain. Qed.

Lemma tailFrom_digits (s : str) : tailFrom (dropWhile isDigit s) = tailFrom s.
Proof. apply tailFrom_dropWhile, isDigit_plain. Qed.

Lemma tailFrom_startsWith (p s : str) :
  forallb isPlain p = true ->
  startsWith p s = true ->
  tailFrom (skipn (length p) s) = tailFrom s.
Proof.
  revert s. induction p as [|x p IH]; intros s Hp H; [reflexivity|].
  destruct s as [|y s]; [discriminate H|].
  simpl in *. apply andb_true_iff in Hp. destruct Hp as [Hx Hp].
  apply andb_true_iff in H. destruct H as [Hxy H].
  apply N.eqb_eq in Hxy. subst y.
  rewrite (IH s Hp H). symmetry. now apply tailFrom_plain.
Qed.

Lemma parseDigits_tail (s : str) ds r :
  parseDigits s = Some (ds, r) -> tailFrom r = tailFrom s.
Proof.
  unfold parseDigits. destruct (takeWhile isDigit s); [discriminate|].
  intros H. inversion H; subst. apply tailFrom_digits.
Qed.

Lemma tailFrom_known (k c : char) (s : str) :
  (c =? k)%N = true -> isPlain k = true -> tailFrom (c :: s) = tailFrom s.
Proof. intros E H. apply N.eqb_eq in E. subst. now apply tailFrom_plain. Qed.

Lemma parseNumber_tail (s : str) n r :
  parseNumber s = Some (n, r) -> tailFrom r = tailFrom s.
Proof.
  unfold parseNumber.
  set (sg := match s with
             | c :: r0 => if (c =? 45)%N then ([c], r0) else ([], s)
             | [] => ([], s)
             end).
  assert (Hsg : tailFrom (snd sg) = tailFrom s).
  { subst sg. destruct s as [|c r0]; simpl; [reflexivity|].
    destruct (c =? 45)%N eqn:E; simpl; [|reflexivity].
    symmetry. now apply (tailFrom_known 45%N). }
  destruct sg as [sign s1]. simpl in Hsg.
  set (int := match s1 with
              | c :: r0 =>
                if (c =? 48)%N then Some ([c], r0)
                else if isDigit c
                     then Some (c :: takeWhile isDigit r0, dropWhile isDigit r0)
                     else None
              | [] => None
              end).
  assert (Hint : forall i s2, int = Some (i, s2) -> tailFrom s2 = tailFrom s1).
  { subst int. intros i s2. destruct s1 as [|c r0]; [discriminate|].
    destruct (c =? 48)%N eqn:E.
    - intros H. inversion H; subst. symmetry. now apply (tailFrom_known 48%N).
    - destruct (isDigit c) eqn:Ed; [|discriminate].
      intros H. inversion H; subst.
      rewrite tailFrom_digits. symmetry.
      apply tailFrom_plain. now apply isDigit_plain. }
  destruct int as [[i s2]|]; [|discriminate].
  specialize (Hint i s2 eq_refl).
  set (frac := match s2 with
               | c :: r0 =>
                 if (c =? 46)%N
                 then match parseDigits r0 with
                      | Some (ds, r') => Some (c :: ds, r')
                      | None => None
                      end
                 else Some ([], s2)
               | [] => Some ([], s2)
               end).
  assert (Hfrac : forall f s3, frac = Some (f, s3) -> tailFrom s3 = tailFrom s2).
  { subst frac. intros f s3. destruct s2 as [|c r0].
    - intros H. now inversion H.
    - destruct (c =? 46)%N eqn:E.
      + destruct (parseDigits r0) as [[ds r']|] eqn:Ed; [|discriminate].
        intros H. inversion H; subst.
        rewrite (parseDigits_tail _ Ed). symmetry.
        now apply (tailFrom_known 46%N).
      + intros H. now inversion H. }
  destruct frac as [[f s3]|]; [|discriminate].
  specialize (Hfrac f s3 eq_refl).
  match goal with
  | |- match ?e with _ => _ end = _ -> _ => set (exp := e)
  end.
  assert (Hexp : forall e s4, exp = Some (e, s4) -> tailFrom s4 = tailFrom s3).
  { subst exp. intros e s4. destruct s3 as [|c r0].
    - intros H. now inversion H.
    - destruct ((c =? 101) || (c =? 69))%N eqn:E.
      + match goal with
        | |- (let (_, _) := ?p in _) = _ -> _ => set (sgn := p)
        end.
        assert (Hsgn : tailFrom (snd sgn) = tailFrom r0).
        { subst sgn. destruct r0 as [|d r']; simpl; [reflexivity|].
          destruct ((d =? 43) || (d =? 45))%N eqn:Ed; simpl; [|reflexivity].
          apply orb_true_iff in Ed.
          symmetry. destruct Ed as [Ed|Ed];
            [now apply (tailFrom_known 43%N) | now apply (tailFrom_known 45%N)]. }
        destruct sgn as [sg0 r1]. simpl in Hsgn.
        destruct (parseDigits r1) as [[ds r']|] eqn:Ed; [|discriminate].
        intros H. inversion H; subst.
        rewrite (parseDigits_tail _ Ed), Hsgn. symmetry.
        apply orb_true_iff in E.
        destruct E as [E|E];
          [now apply (tailFrom_known 101%N) | now apply (tailFrom_known 69%N)].
      + intros H. now inversion H. }
  destruct exp as [[e s4]|]; [|discriminate].
  specialize (Hexp e s4 eq_refl).
  intros H. inversion H; subst. congruence.
Qed.

(** A quote cannot be the first quote or backslash of a text whose tail is
    in order. *)
Lemma okTail_no_quote_first (s : str) c rest :
  okTail s = true ->
  tailFrom (c :: rest) = tailFrom s ->
  (c =? QUOTE)%N = true ->
  False.
Proof.
  intros Hok Ht Hc. apply N.eqb_eq in Hc. subst c.
  unfold okTail in Hok. rewrite <- Ht in Hok.
  unfold tailFrom in Hok. simpl in Hok. discriminate.
Qed.

Ltac tails f IHv IHe IHm Hok :=
  repeat match goal with
         | E : skipWs ?s = ?x |- _ =>
           learn (eq_trans (f_equal tailFrom (eq_sym E)) (tailFrom_skipWs s))
         | E : parseNumber _ = Some _ |- _ => learn (parseNumber_tail _ E)
         | E : (?c =? ?k)%N = true |- _ =>
           match goal with
           | _ : context [c :: ?rest] |- _ =>
             learn (tailFrom_known k c rest E eq_refl)
           end
         | E : startsWith ?p ?s = true |- _ =>
           let T := fresh in
           pose proof (tailFrom_startsWith p s eq_refl E) as T;
           cbn [length lit map list_ascii_of_string] in T;
           let ty := type of T in
           revert T;
           lazymatch goal with
           | _ : ty |- _ => fail
           | _ => intro
           end
         | E : parseValue f ?s' = Some _ |- _ =>
           let Hs := fresh in
           assert (Hs : okTail s' = true)
             by (unfold okTail in *; congruence);
           learn (IHv _ _ _ Hs E); clear Hs
         | E : parseElements f ?s' = Some _ |- _ =>
           let Hs := fresh in
           assert (Hs : okTail s' = true)
             by (unfold okTail in *; congruence);
           learn (IHe _ _ _ Hs E); clear Hs
         | E : parseMembers f ?s' = Some _ |- _ =>
           let Hs := fresh in
           assert (Hs : okTail s' = true)
             by (unfold okTail in *; congruence);
           learn (IHm _ _ _ Hs E); clear Hs
         end.

Opaque skipn.

(** Parsing a text whose tail is in order consumes only plain code units:
    it cannot get past the first quote or backslash. *)
Lemma parse_stays_plain (f : nat) :
  (forall s v r,
      okTail s = true -> parseValue f s = Some (v, r) ->
      tailFrom r = tailFrom s)
  /\ (forall s vs r,
        okTail s = true -> parseElements f s = Some (vs, r) ->
        tailFrom r = tailFrom s)
  /\ (forall s ms r,
        okTail s = true -> parseMembers f s = Some (ms, r) ->
        tailFrom r = tailFrom s).
Proof.
  induction f as [|f (IHv & IHe & IHm)].
  - split; [|split]; intros s v r _ H; discriminate H.
  - split; [|split]; intros s v r Hok H;
      cbn [parseValue parseElements parseMembers] in H;
      walk H; inversion H; subst; clear H;
      tails f IHv IHe IHm Hok;
      try (exfalso; eapply okTail_no_quote_first; eassumption);
      congruence.
Qed.

Transparent skipn.

Lemma tailFrom_nil_no_quote (s : str) : tailFrom s = [] -> ~ In QUOTE s.
Proof.
  unfold tailFrom. induction s as [|c s IH]; simpl; [tauto|].
  destruct (isPlain c) eqn:E; [|discriminate].
  intros H [Hc | Hin]; [|now apply IH].
  subst c. discriminate E.
Qed.

(** A text that contains a quote and in which the first quote or backslash
    is a backslash is not JSON. *)
Lemma escaped_text_is_not_json (t : str) :
  okTail t = true -> In QUOTE t -> parse t = None.
Proof.
  intros Hok Hq. unfold parse.
  destruct (parseValue (S (length t)) t) as [[v r]|] eqn:E; [|reflexivity].
  destruct (skipWs r) as [|c r'] eqn:Er; [|reflexivity].
  exfalso. apply (tailFrom_nil_no_quote t); [|assumption].
  rewrite <- (proj1 (parse_stays_plain _) _ _ _ Hok E).
  rewrite <- tailFrom_skipWs, Er. reflexivity.
Qed.

Lemma quotesEscaped_cons prev c s :
  quotesEscaped prev (c :: s)
  = (if (c =? QUOTE)%N then afterBackslash prev else true)
    && quotesEscaped (Some c) s.
Proof. reflexivity. Qed.

(** Only the first code unit looks at what was before the text. *)
Lemma quotesEscaped_weaken (p1 p2 : option char) (s : str) :
  (afterBackslash p1 = true -> afterBackslash p2 = true) ->
  quotesEscaped p1 s = true -> quotesEscaped p2 s = true.
Proof.
  intros Hp. destruct s as [|c s]; [reflexivity|].
  rewrite !quotesEscaped_cons, !andb_true_iff. intros [H1 H2].
  split; [|assumption]. destruct (c =? QUOTE)%N; auto.
Qed.

Lemma quotesEscaped_any (p : option char) (s : str) :
  quotesEscaped None s = true -> quotesEscaped p s = true.
Proof. apply quotesEscaped_weaken. discriminate. Qed.

Lemma isPlain_not_backslash (c : char) :
  isPlain c = true -> afterBackslash (Some c) = false.
Proof.
  unfold isPlain. simpl. rewrite negb_true_iff, orb_false_iff. tauto.
Qed.

Lemma isPlain_not_quote (c : char) :
  isPlain c = true -> (c =? QUOTE)%N = false.
Proof.
  unfold isPlain. rewrite negb_true_iff, orb_false_iff. tauto.
Qed.

(** After a plain code unit the rest is as at the start of a text. *)
Lemma quotesEscaped_after_plain p c s :
  isPlain c = true ->
  quotesEscaped p (c :: s) = true -> quotesEscaped None s = true.
Proof.
  intros Hc. rewrite quotesEscaped_cons, andb_true_iff. intros [_ H].
  revert H. apply quotesEscaped_weaken.
  rewrite (isPlain_not_backslash _ Hc). discriminate.
Qed.

Lemma quotesEscaped_okTail (s : str) :
  quotesEscaped None s = true -> okTail s = true.
Proof.
  unfold okTail, tailFrom.
  induction s as [|c s IH]; intros H; [reflexivity|]. simpl.
  destruct (isPlain c) eqn:Ec.
  - apply IH. now apply (quotesEscaped_after_plain None c).
  - simpl. rewrite quotesEscaped_cons in H. simpl in H.
    unfold isPlain in Ec. rewrite negb_false_iff, orb_true_iff in Ec.
    destruct Ec as [Ec|Ec]; [|assumption].
    rewrite Ec in H. discriminate H.
Qed.

(** *** The replacements after the second keep every quote escaped *)

Lemma isSpace_plain (c : char) : isSpace c = true -> isPlain c = true.
Proof.
  intros H. unfold isPlain. rewrite negb_true_iff, orb_false_iff.
  split; apply N.eqb_neq; intros ->; discriminate H.
Qed.

Lemma quotesEscaped_dropWhile (f : char -> bool) (s : str) :
  (forall c, f c = true -> isPlain c = true) ->
  quotesEscaped None s = true ->
  quotesEscaped None (dropWhile f s) = true.
Proof.
  intros Hf. induction s as [|c s IH]; intros H; [reflexivity|]. simpl.
  destruct (f c) eqn:E; [|assumption].
  apply IH. apply (quotesEscaped_after_plain None c); auto.
Qed.

Lemma quotesEscaped_skip_prefix (p s : str) (prev : option char) :
  forallb isPlain p = true ->
  startsWith p s = true ->
  p <> [] ->
  quotesEscaped prev s = true ->
  quotesEscaped None (skipn (length p) s) = true.
Proof.
  revert s prev. induction p as [|x p IH]; intros s prev Hp Hs Hne H;
    [congruence|].
  destruct s as [|y s]; [discriminate Hs|].
  simpl in Hp, Hs. apply andb_true_iff in Hp. destruct Hp as [Hx Hp].
  apply andb_true_iff in Hs. destruct Hs as [Hxy Hs].
  apply N.eqb_eq in Hxy. subst y. simpl.
  destruct p as [|x' p].
  - simpl. now apply (quotesEscaped_after_plain prev x).
  - apply (IH s (Some x)); try assumption; [discriminate|].
    rewrite quotesEscaped_cons, andb_true_iff in H. tauto.
Qed.

Lemma quotesEscaped_prefix (a b : str) (prev : option char) :
  quotesEscaped prev (a ++ b) = true -> quotesEscaped prev a = true.
Proof.
  revert prev. induction a as [|c a IH]; intros prev; [reflexivity|].
  simpl app. rewrite !quotesEscaped_cons, !andb_true_iff.
  intros [H1 H2]. split; [assumption | now apply IH].
Qed.

Lemma quotesEscaped_snoc (a : str) (c : char) (prev : option char) :
  (c =? QUOTE)%N = false ->
  quotesEscaped prev a = true -> quotesEscaped prev (a ++ [c]) = true.
Proof.
  intros Hc. revert prev. induction a as [|x a IH]; intros prev H.
  - simpl. now rewrite Hc.
  - simpl app. rewrite quotesEscaped_cons, andb_true_iff in *.
    destruct H as [H1 H2]. split; [assumption | now apply IH].
Qed.

Lemma escapeLineBreaksIn_escaped (s : str) (inRun : bool) (pin pout : option char) :
  (afterBackslash pin = true -> afterBackslash pout = true) ->
  quotesEscaped pin s = true ->
  quotesEscaped pout (escapeLineBreaksIn inRun s) = true.
Proof.
  revert inRun pin pout.
  induction s as [|c s IH]; intros inRun pin pout Hp H; [reflexivity|].
  rewrite quotesEscaped_cons, andb_true_iff in H. destruct H as [H1 H2].
  simpl. destruct (isLineBreak c) eqn:Ec.
  - assert (Hb : afterBackslash (Some c) = false).
    { unfold isLineBreak in Ec. rewrite orb_true_iff, !N.eqb_eq in Ec.
      destruct Ec as [-> | ->]; reflexivity. }
    destruct inRun.
    + apply (IH true (Some c)); [rewrite Hb; discriminate | assumption].
    + rewrite !quotesEscaped_cons. simpl.
      apply (IH true (Some c)); [rewrite Hb; discriminate | assumption].
  - rewrite quotesEscaped_cons, andb_true_iff. split.
    + destruct (c =? QUOTE)%N; auto.
    + now apply (IH false (Some c)).
Qed.

Lemma escapeTabs_escaped (s : str) (pin pout : option char) :
  (afterBackslash pin = true -> afterBackslash pout = true) ->
  quotesEscaped pin s = true ->
  quotesEscaped pout (escapeTabs s) = true.
Proof.
  revert pin pout.
  induction s as [|c s IH]; intros pin pout Hp H; [reflexivity|].
  rewrite quotesEscaped_cons, andb_true_iff in H. destruct H as [H1 H2].
  simpl. destruct (c =? TAB)%N eqn:Ec.
  - apply N.eqb_eq in Ec. subst c.
    rewrite !quotesEscaped_cons. simpl.
    apply (IH (Some TAB)); [discriminate | assumption].
  - rewrite quotesEscaped_cons, andb_true_iff. split.
    + destruct (c =? QUOTE)%N; auto.
    + now apply (IH (Some c)).
Qed.

Lemma removeBom_escaped (s : str) :
  quotesEscaped None s = true -> quotesEscaped None (removeBom s) = true.
Proof.
  destruct s as [|c s]; [reflexivity|]. simpl.
  destruct (c =? BOM)%N eqn:Ec; [|auto].
  apply N.eqb_eq in Ec. subst c.
  apply (quotesEscaped_after_plain None BOM). reflexivity.
Qed.

Lemma removeControls_escaped (s : str) (pin pout : option char) :
  (afterBackslash pin = true -> afterBackslash pout = true) ->
  quotesEscaped pin s = true ->
  quotesEscaped pout (removeControls s) = true.
Proof.
  revert pin pout.
  induction s as [|c s IH]; intros pin pout Hp H; [reflexivity|].
  rewrite quotesEscaped_cons, andb_true_iff in H. destruct H as [H1 H2].
  unfold removeControls in *. cbn [filter].
  destruct (c <=? 31)%N eqn:Ec; cbn [negb].
  - apply (IH (Some c)); [|assumption].
    apply N.leb_le in Ec. simpl.
    destruct (c =? BACKSLASH)%N eqn:Eb; [|discriminate].
    apply N.eqb_eq in Eb. subst c. unfold BACKSLASH in Ec. lia.
  - rewrite quotesEscaped_cons, andb_true_iff. split.
    + destruct (c =? QUOTE)%N; auto.
    + now apply (IH (Some c)).
Qed.

Lemma removeFenceOpen_escaped (s : str) (pin pout : option char) :
  (afterBackslash pin = true -> afterBackslash pout = true) ->
  quotesEscaped pin s = true ->
  quotesEscaped pout (removeFenceOpen s) = true.
Proof.
  revert pin pout.
  induction s as [|c s IH]; intros pin pout Hp H; [reflexivity|].
  cbn [removeFenceOpen].
  destruct (startsWith (lit "```json") (c :: s)) eqn:Es.
  - apply quotesEscaped_any.
    apply quotesEscaped_dropWhile; [apply isSpace_plain|].
    apply (@quotesEscaped_skip_prefix (lit "```json") (c :: s) pin);
      [reflexivity | assumption | discriminate | assumption].
  - rewrite quotesEscaped_cons, andb_true_iff in *. destruct H as [H1 H2].
    split.
    + destruct (c =? QUOTE)%N; auto.
    + now apply (IH (Some c)).
Qed.

Lemma removeFenceClose_escaped (s : str) (pin pout : option char) :
  (afterBackslash pin = true -> afterBackslash pout = true) ->
  quotesEscaped pin s = true ->
  quotesEscaped pout (removeFenceClose s) = true.
Proof.
  revert pin pout.
  induction s as [|c s IH]; intros pin pout Hp H.
  - cbn [removeFenceClose]. destruct (isFenceClose []); reflexivity.
  - cbn [removeFenceClose]. destruct (isFenceClose (c :: s)); [reflexivity|].
    rewrite quotesEscaped_cons, andb_true_iff in *. destruct H as [H1 H2].
    split.
    + destruct (c =? QUOTE)%N; auto.
    + now apply (IH (Some c)).
Qed.

Lemma takeWhile_dropWhile (f : char -> bool) (s : str) :
  takeWhile f s ++ dropWhile f s = s.
Proof.
  induction s as [|c s IH]; simpl; [reflexivity|].
  destruct (f c); simpl; [now rewrite IH | reflexivity].
Qed.

Lemma takeWhile_all (f : char -> bool) (s : str) :
  forallb f (takeWhile f s) = true.
Proof.
  induction s as [|c s IH]; simpl; [reflexivity|].
  destruct (f c) eqn:E; simpl; [now rewrite E, IH | reflexivity].
Qed.

(** The code units passed over after a comma that is removed: the white
    space and the closing bracket or brace. *)
Lemma skipped_after_comma (rest : str) d tl :
  dropWhile isSpace rest = d :: tl ->
  isCloser d = true ->
  forallb isPlain (firstn (S (length (takeWhile isSpace rest))) rest) = true.
Proof.
  intros Hd Hc.
  rewrite <- (takeWhile_dropWhile isSpace rest) at 2. rewrite Hd.
  replace (S (length (takeWhile isSpace rest)))
    with (length (takeWhile isSpace rest ++ [d]))
    by (rewrite length_app; simpl; lia).
  replace (takeWhile isSpace rest ++ d :: tl)
    with ((takeWhile isSpace rest ++ [d]) ++ tl)
    by (now rewrite <- app_assoc).
  rewrite firstn_app, Nat.sub_diag, firstn_all. simpl firstn.
  rewrite app_nil_r, forallb_app. apply andb_true_iff. split.
  - pose proof (takeWhile_all isSpace rest) as H.
    rewrite forallb_forall in *. intros c Hin. apply isSpace_plain. auto.
  - simpl. rewrite andb_true_r. unfold isCloser in Hc.
    rewrite orb_true_iff, !N.eqb_eq in Hc. destruct Hc as [-> | ->];
      reflexivity.
Qed.

Lemma isCloser_not_quote (d : char) :
  isCloser d = true -> (d =? QUOTE)%N = false.
Proof.
  unfold isCloser. rewrite orb_true_iff, !N.eqb_eq.
  intros [-> | ->]; reflexivity.
Qed.

Lemma removeTrailingCommasFrom_escaped (s : str) :
  forall (skip : nat) (pin pout : option char),
    forallb isPlain (firstn skip s) = true ->
    (afterBackslash pin = true -> afterBackslash pout = true) ->
    quotesEscaped pin s = true ->
    quotesEscaped pout (removeTrailingCommasFrom skip s) = true.
Proof.
  induction s as [|c s IH]; intros skip pin pout Hskip Hp H;
    [reflexivity|].
  pose proof H as H0.
  rewrite quotesEscaped_cons, andb_true_iff in H. destruct H as [H1 H2].
  assert (Hkeep : quotesEscaped pout (c :: removeTrailingCommasFrom 0 s)
                  = true).
  { rewrite quotesEscaped_cons, andb_true_iff. split.
    - destruct (c =? QUOTE)%N; auto.
    - now apply (IH O (Some c)). }
  cbn [removeTrailingCommasFrom]. destruct skip as [|k].
  - destruct (c =? COMMA)%N eqn:Ec; [|assumption].
    destruct (dropWhile isSpace s) as [|d tl] eqn:Ed; [assumption|].
    destruct (isCloser d) eqn:Ecl; [|assumption].
    rewrite quotesEscaped_cons, andb_true_iff. split.
    + now rewrite (isCloser_not_quote _ Ecl).
    + apply N.eqb_eq in Ec. subst c.
      apply (IH _ (Some COMMA)); [|discriminate|assumption].
      eapply skipped_after_comma; eassumption.
  - simpl in Hskip. apply andb_true_iff in Hskip. destruct Hskip as [Hc Hk].
    apply (IH k (Some c)); [assumption| |assumption].
    rewrite (isPlain_not_backslash _ Hc). discriminate.
Qed.

Lemma trimEnd_prefix (s : str) : exists b, s = trimEnd s ++ b.
Proof.
  unfold trimEnd. exists (rev (takeWhile isSpace (rev s))).
  rewrite <- rev_app_distr, takeWhile_dropWhile. now rewrite rev_involutive.
Qed.

Lemma trim_escaped (s : str) :
  quotesEscaped None s = true -> quotesEscaped None (trim s) = true.
Proof.
  intros H. unfold trim.
  destruct (trimEnd_prefix (trimStart s)) as (b & Hb).
  apply (quotesEscaped_prefix _ b). rewrite <- Hb.
  unfold trimStart. apply quotesEscaped_dropWhile; [apply isSpace_plain|].
  assumption.
Qed.

(** After the chain of replacements every quote has a backslash before
    it, whatever the text was. *)
Lemma cleanChain_escaped (s : str) :
  quotesEscaped None (cleanChain s) = true.
Proof.
  unfold cleanChain, removeTrailingCommas, escapeLineBreaks.
  apply trim_escaped.
  apply (@removeTrailingCommasFrom_escaped _ O None None);
    [reflexivity | auto |].
  apply (@removeFenceClose_escaped _ None None); [auto|].
  apply (@removeFenceOpen_escaped _ None None); [auto|].
  apply (@removeControls_escaped _ None None); [auto|].
  apply removeBom_escaped.
  apply (@escapeTabs_escaped _ None None); [auto|].
  apply (@escapeLineBreaksIn_escaped _ false None None); [auto|].
  apply escapeQuotes_escaped.
Qed.

Lemma cleanJson_escaped (s : str) :
  quotesEscaped None (cleanJson s) = true.
Proof.
  unfold cleanJson. pose proof (cleanChain_escaped s) as H.
  set (t := cleanChain s) in *.
  assert (H1 : quotesEscaped None
                 (if negb (startsWithOpener t) then LBRACE :: t else t)
               = true).
  { destruct (negb (startsWithOpener t)); [|assumption].
    rewrite quotesEscaped_cons. simpl. now apply quotesEscaped_any. }
  destruct (negb (endsWithCloser _)); [|assumption].
  apply quotesEscaped_snoc; [reflexivity | assumption].
Qed.

(** *** No replacement removes a quote *)

Lemma fixInvalidEscapes_In (x : char) (s : str) :
  In x s -> In x (fixInvalidEscapes s).
Proof.
  induction s as [|c s IH]; [tauto|]. intros [<- | Hin]; cbn [fixInvalidEscapes].
  - destruct (c =? BACKSLASH)%N eqn:Ec; [|now left].
    apply N.eqb_eq in Ec. subst c.
    destruct s as [|d s']; [now left|].
    destruct (isEscapeLetter d); now left.
  - destruct (c =? BACKSLASH)%N; [|right; auto].
    destruct s as [|d s']; [destruct Hin|].
    destruct (isEscapeLetter d); [right; auto | right; right; auto].
Qed.

Lemma escapeQuotesAfter_In (x : char) (s : str) (prev : option char) :
  In x s -> In x (escapeQuotesAfter prev s).
Proof.
  revert prev. induction s as [|c s IH]; intros prev; [tauto|].
  intros H. cbn [escapeQuotesAfter].
  match goal with
  | |- In _ (if ?b then _ else _) => destruct b eqn:E
  end.
  - destruct H as [<- | Hin].
    + apply andb_true_iff in E. destruct E as [E _].
      apply N.eqb_eq in E. subst c. right. now left.
    + right. right. now apply IH.
  - destruct H as [<- | Hin]; [now left | right; now apply IH].
Qed.

Lemma dropWhile_In_quote (f : char -> bool) (s : str) :
  (forall c, f c = true -> isPlain c = true) ->
  In QUOTE s -> In QUOTE (dropWhile f s).
Proof.
  intros Hf. induction s as [|c s IH]; intros H; [destruct H|].
  cbn [dropWhile]. destruct (f c) eqn:E; [|exact H].
  destruct H as [-> | Hin]; [|auto].
  apply Hf in E. discriminate E.
Qed.

Lemma escapeLineBreaksIn_In (s : str) (inRun : bool) :
  In QUOTE s -> In QUOTE (escapeLineBreaksIn inRun s).
Proof.
  revert inRun. induction s as [|c s IH]; intros inRun H; [destruct H|].
  cbn [escapeLineBreaksIn]. destruct (isLineBreak c) eqn:E.
  - destruct H as [-> | Hin]; [discriminate E|].
    destruct inRun; [|right; right]; now apply IH.
  - destruct H as [-> | Hin]; [now left | right; now apply IH].
Qed.

Lemma escapeTabs_In (s : str) : In QUOTE s -> In QUOTE (escapeTabs s).
Proof.
  induction s as [|c s IH]; intros H; [destruct H|].
  cbn [escapeTabs]. destruct (c =? TAB)%N eqn:E.
  - destruct H as [-> | Hin]; [discriminate E|].
    right. right. now apply IH.
  - destruct H as [-> | Hin]; [now left | right; now apply IH].
Qed.

Lemma removeBom_In (s : str) : In QUOTE s -> In QUOTE (removeBom s).
Proof.
  destruct s as [|c s]; intros H; [destruct H|]. cbn [removeBom].
  destruct (c =? BOM)%N eqn:Ec; [|exact H].
  destruct H as [-> | Hin]; [discriminate Ec | assumption].
Qed.

Lemma removeControls_In (s : str) : In QUOTE s -> In QUOTE (removeControls s).
Proof.
  intros H. unfold removeControls. apply filter_In. split; [assumption|].
  reflexivity.
Qed.

Lemma skip_prefix_In_quote (p s : str) :
  startsWith p s = true ->
  ~ In QUOTE p ->
  In QUOTE s -> In QUOTE (skipn (length p) s).
Proof.
  revert s. induction p as [|x p IH]; intros s Hs Hp H; [assumption|].
  destruct s as [|y s]; [destruct H|].
  simpl in Hs. apply andb_true_iff in Hs. destruct Hs as [Hxy Hs].
  apply N.eqb_eq in Hxy. subst y. simpl.
  destruct H as [-> | H]; [exfalso; apply Hp; now left|].
  apply IH; try assumption. intros Hin. apply Hp. now right.
Qed.

Lemma removeFenceOpen_In (s : str) :
  In QUOTE s -> In QUOTE (removeFenceOpen s).
Proof.
  induction s as [|c s IH]; [tauto|]. intros H. cbn [removeFenceOpen].
  destruct (startsWith (lit "```json") (c :: s)) eqn:Es.
  - apply dropWhile_In_quote; [apply isSpace_plain|].
    apply (@skip_prefix_In_quote (lit "```json") (c :: s)); try assumption.
    intros Hin. simpl in Hin.
    repeat (destruct Hin as [Hin | Hin]; [discriminate Hin|]). assumption.
  - destruct H as [-> | H]; [now left | right; auto].
Qed.

Lemma all_space_no_quote (s : str) :
  forallb isSpace s = true -> ~ In QUOTE s.
Proof.
  rewrite forallb_forall. intros H Hin. apply H in Hin. discriminate Hin.
Qed.

Lemma startsWith_split (p s : str) :
  startsWith p s = true -> s = p ++ skipn (length p) s.
Proof.
  revert s. induction p as [|x p IH]; intros s H; [reflexivity|].
  destruct s as [|y s]; [discriminate H|].
  simpl in H. apply andb_true_iff in H. destruct H as [Hxy H].
  apply N.eqb_eq in Hxy. subst y. simpl. f_equal. now apply IH.
Qed.

Lemma isFenceClose_no_quote (s : str) :
  isFenceClose s = true -> ~ In QUOTE s.
Proof.
  unfold isFenceClose. intros H. apply andb_true_iff in H.
  destruct H as [H1 H2]. intros Hin.
  rewrite <- (takeWhile_dropWhile isSpace s) in Hin.
  apply in_app_iff in Hin. destruct Hin as [Hin | Hin].
  - now apply (all_space_no_quote _ (takeWhile_all isSpace s)).
  - rewrite (startsWith_split _ _ H1) in Hin.
    apply in_app_iff in Hin. destruct Hin as [Hin | Hin].
    + simpl in Hin.
      repeat (destruct Hin as [Hin | Hin]; [discriminate Hin|]). assumption.
    + now apply (all_space_no_quote _ H2).
Qed.

Lemma removeFenceClose_In (s : str) :
  In QUOTE s -> In QUOTE (removeFenceClose s).
Proof.
  induction s as [|c s IH]; [tauto|]. intros H. cbn [removeFenceClose].
  destruct (isFenceClose (c :: s)) eqn:E.
  - exfalso. now apply (isFenceClose_no_quote _ E).
  - destruct H as [-> | H]; [now left | right; auto].
Qed.

Lemma removeTrailingCommasFrom_In (s : str) :
  forall skip : nat,
    forallb isPlain (firstn skip s) = true ->
    In QUOTE s -> In QUOTE (removeTrailingCommasFrom skip s).
Proof.
  induction s as [|c s IH]; intros skip Hskip H; [destruct H|].
  assert (Hkeep : In QUOTE (c :: removeTrailingCommasFrom 0 s)).
  { destruct H as [-> | H]; [now left | right; now apply IH]. }
  cbn [removeTrailingCommasFrom]. destruct skip as [|k].
  - destruct (c =? COMMA)%N eqn:Ec; [|assumption].
    destruct (dropWhile isSpace s) as [|d tl] eqn:Ed; [assumption|].
    destruct (isCloser d) eqn:Ecl; [|assumption].
    right. apply IH; [eapply skipped_after_comma; eassumption|].
    destruct H as [-> | H]; [discriminate Ec | assumption].
  - simpl in Hskip. apply andb_true_iff in Hskip. destruct Hskip as [Hc Hk].
    apply IH; [assumption|].
    destruct H as [-> | H]; [discriminate Hc | assumption].
Qed.

Lemma trim_In (s : str) : In QUOTE s -> In QUOTE (trim s).
Proof.
  intros H. unfold trim, trimEnd, trimStart.
  apply (proj1 (in_rev _ _)).
  apply dropWhile_In_quote; [apply isSpace_plain|].
  apply (proj1 (in_rev _ _)).
  apply dropWhile_In_quote; [apply isSpace_plain | assumption].
Qed.

Lemma cleanJson_In (s : str) : In QUOTE s -> In QUOTE (cleanJson s).
Proof.
  intros H.
  assert (Hc : In QUOTE (cleanChain s)).
  { unfold cleanChain, removeTrailingCommas, escapeLineBreaks, escapeQuotes.
    apply trim_In.
    apply removeTrailingCommasFrom_In; [reflexivity|].
    apply removeFenceClose_In, removeFenceOpen_In, removeControls_In,
      removeBom_In, escapeTabs_In, escapeLineBreaksIn_In,
      escapeQuotesAfter_In, fixInvalidEscapes_In.
    assumption. }
  unfold cleanJson.
  assert (H1 : In QUOTE (if negb (startsWithOpener (cleanChain s))
                         then LBRACE :: cleanChain s
                         else cleanChain s)).
  { destruct (negb (startsWithOpener (cleanChain s)));
      [right; exact Hc | exact Hc]. }
  destruct (negb (endsWithCloser _)); [|exact H1].
  apply in_or_app. left. exact H1.
Qed.

(** One repair pass on a text that contains a quote gives a text that is
    not JSON. *)
Lemma cleanJson_is_not_json (s : str) :
  In QUOTE s -> parse (cleanJson s) = None.
Proof.
  intros H. apply escaped_text_is_not_json.
  - apply quotesEscaped_okTail, cleanJson_escaped.
  - now apply cleanJson_In.
Qed.

(** The repair never succeeds on a text that contains a quote: such a
    text either parses as it is or makes [retryJsonParse] fail, after its
    two passes. *)
Lemma retryJsonParse_fails_on_quoted_text (s : str) :
  In QUOTE s ->
  parse s = None ->
  retryJsonParse s = Repair.Failed failureMessage
  /\ repairPasses MAX_RETRIES s = 2%nat.
Proof.
  intros Hq Hs.
  pose proof (cleanJson_is_not_json s Hq) as H1.
  pose proof (cleanJson_is_not_json (cleanJson s) (cleanJson_In s Hq)) as H2.
  unfold retryJsonParse, MAX_RETRIES.
  cbn [retryJsonParseFrom repairPasses].
  now rewrite Hs, H1, H2.
Qed.

(** C7.  The text with one stray quote, a raw line break and a trailing
    comma does not parse as it is, and neither does it after the repair:
    the first pass puts a backslash before every quote of the text, a
    second pass changes nothing more, and [retryJsonParse] fails after its
    two passes, while the text corrected by hand parses to the expected
    object. *)
Theorem repair_fails_on_damaged_text :
  Json.parse Scenario.correctedText = Some Scenario.correctedValue
  /\ Json.parse Scenario.damagedText = None
  /\ Repair.cleanJson Scenario.damagedText = Scenario.repairedText
  /\ Json.parse Scenario.repairedText = None
  /\ Repair.cleanJson Scenario.repairedText = Scenario.repairedText
  /\ Repair.repairPasses Repair.MAX_RETRIES Scenario.damagedText = 2%nat
  /\ Repair.retryJsonParse Scenario.damagedText
     = Repair.Failed Repair.failureMessage.
Proof. repeat split; vm_compute; reflexivity. Qed.

(** ** The query generator *)

Section Generator.
Variable W : Type.
Variable env : Env W.

Lemma await_Ok_inv {A} ev (f : W -> result A * W) (st : State W) a st' :
  await env ev f st = Some (Ok a, st') ->
  exists w', f (world st) = (Ok a, w').
Proof.
  unfold await, bind, emit. simpl.
  destruct (f (world st)) as [r w] eqn:E.
  destruct (suspend env _) as [[r' st'']|]; [|discriminate].
  intros H. inversion H; subst. now exists w.
Qed.

End Generator.

(** C8, as the code has it.  For a count [n >= 0], what
    [generateSerpQueries] returns is read off the first [n] elements of the
    [queries] array recovered from the response of the model, in their
    order, so it has at most [n] items.  Nothing in the code compares the
    queries with one another. *)
Theorem generateSerpQueries_returns_prefix
    (W : Type) (env : Env W) (q : str) (n : Z) (L : option (list str))
    (st : State W) (qs : list SerpQuery) (st' : State W) :
  (0 <= n)%Z ->
  generateSerpQueries env q n L st = Some (Ok qs, st') ->
  (Z.of_nat (length qs) <= n)%Z
  /\ exists response w' queries,
       generateContent env (serpQueriesPrompt q n L) (world st)
       = (Ok response, w')
       /\ queriesArray response = Some queries
       /\ qs = map (readSerpQuery env) (firstn (Z.to_nat n) queries).
Proof.
  intros Hn H. unfold generateSerpQueries in H.
  apply bind_Ok_inv in H. destruct H as (response & st1 & Hresp & H).
  apply await_Ok_inv in Hresp. destruct Hresp as (w' & Hresp).
  unfold parseQueries in H.
  destruct (queriesArray response) as [queries|] eqn:Eq; [|discriminate].
  inversion H; subst. rewrite slice0_firstn by assumption. split.
  - rewrite length_map, length_firstn. lia.
  - now exists response, w', queries.
Qed.

Lemma generateSerpQueries_returns_prefix_witness :
  (0 <= 2)%Z
  /\ exists qs st',
       generateSerpQueries Scenario.healthy Scenario.topic 2%Z None
                           (Scenario.start 0)
       = Some (Ok qs, st')
       /\ (Z.of_nat (length qs) <= 2)%Z.
Proof.
  split; [lia|]. eexists. eexists. split.
  - vm_compute. reflexivity.
  - eapply (@generateSerpQueries_returns_prefix unit Scenario.healthy
              Scenario.topic 2%Z None (Scenario.start 0));
      [lia | vm_compute; reflexivity].
Defined.

(** C8 as it was stated does not hold: the model answers with three
    queries of which two have the same text, and all three are returned. *)
Lemma duplicate_queries_counterexample :
  exists st',
    generateSerpQueries Scenario.healthy Scenario.topic 3%Z None
                        (Scenario.start 0)
    = Some (Ok Scenario.threeQueries, st')
    /\ (Z.of_nat (length Scenario.threeQueries) <= 3)%Z
    /\ ~ NoDup (map query Scenario.threeQueries).
Proof.
  eexists. split; [vm_compute; reflexivity|]. split; [simpl; lia|].
  intros H. inversion H as [|x l Hin _]; subst.
  apply Hin. simpl. right. left. reflexivity.
Qed.

(** ** The batch of fetches of one sub-query *)

Lemma contentsOf_In rs outcomes c :
  In c (contentsOf rs outcomes)
  <-> exists i r md,
        nth_error rs i = Some r
        /\ nth_error outcomes i = Some (Ok md)
        /\ c = {| c_url := url r; markdown := md |}.
Proof.
  unfold contentsOf. revert outcomes.
  induction rs as [|r rs IH]; intros [|o os]; simpl.
  - split; [tauto | intros ([|i] & r & md & H & _); discriminate].
  - split; [tauto | intros ([|i] & r & md & H & _); discriminate].
  - split; [tauto | intros ([|i] & r' & md & _ & H & _); discriminate].
  - split.
    + intros H.
      assert (Hc : (exists md, o = Ok md
                               /\ c = {| c_url := url r; markdown := md |})
                   \/ In c (nonNull
                              (map (fun p => contentOf (fst p) (snd p))
                                   (combine rs os)))).
      { destruct o as [md|e]; simpl in H; [|now right].
        destruct H as [<- | H]; [left; now exists md | now right]. }
      destruct Hc as [(md & -> & ->) | Hc].
      * now exists O, r, md.
      * apply IH in Hc. destruct Hc as (i & r' & md & H1 & H2 & H3).
        now exists (S i), r', md.
    + intros ([|i] & r' & md & H1 & H2 & ->); simpl in H1, H2.
      * inversion H1; inversion H2; subst. simpl. now left.
      * assert (Hc : In {| c_url := url r'; markdown := md |}
                        (nonNull (map (fun p => contentOf (fst p) (snd p))
                                      (combine rs os)))).
        { apply IH. now exists i, r', md. }
        destruct o; simpl; auto.
Qed.

(** A URL whose fetches in the batch all threw is not among the URLs of
    the contents. *)
Lemma contentsOf_failed rs outcomes u :
  (forall i r, nth_error rs i = Some r -> url r = u -> failedAt outcomes i) ->
  ~ In u (map c_url (contentsOf rs outcomes)).
Proof.
  intros Hfailed Hin. apply in_map_iff in Hin.
  destruct Hin as (c & Hu & Hc). apply contentsOf_In in Hc.
  destruct Hc as (i & r & md & Hr & Ho & ->). simpl in Hu.
  destruct (Hfailed i r Hr Hu) as (e & He). congruence.
Qed.

(** When no content is left, every fetch of the batch threw. *)
Lemma contentsOf_nil rs outcomes i :
  length outcomes = length rs ->
  contentsOf rs outcomes = [] ->
  (i < length rs)%nat -> failedAt outcomes i.
Proof.
  intros Hlen Hnil Hi.
  destruct (nth_error rs i) as [r|] eqn:Hr;
    [|apply nth_error_None in Hr; lia].
  destruct (nth_error outcomes i) as [[md|e]|] eqn:Ho.
  - exfalso.
    assert (Hin : In {| c_url := url r; markdown := md |}
                     (contentsOf rs outcomes)).
    { apply contentsOf_In. now exists i, r, md. }
    rewrite Hnil in Hin. exact Hin.
  - now exists e.
  - apply nth_error_None in Ho. lia.
Qed.

Section Batch.
Variable W : Type.
Variable env : Env W.

Lemma finishes_run {A} P (m : M W A) (st : State W) r st' :
  finishes P m -> m st = Some (r, st') -> extends P st st'.
Proof.
  intros F E. destruct (F st) as (r0 & st0 & E0 & X).
  rewrite E in E0. inversion E0; subst. exact X.
Qed.

(** The first thing [processSerpResult] does is recorded with the data it
    was given. *)
Lemma processSerpResult_trace q data n m (st : State W) r st' :
  processSerpResult env q data n m st = Some (r, st') ->
  exists evs, trace st' = trace st ++ EvProcessSerpResult q data :: evs.
Proof.
  unfold processSerpResult. unfold bind at 1. unfold emit at 1.
  intros H.
  match type of H with
  | ?m ?s = _ =>
    assert (F : finishes (fun _ => True) m) by finish
  end.
  destruct (@finishes_run _ _ _ _ _ _ F H) as (evs & T & _).
  exists evs. rewrite T. simpl. now rewrite <- app_assoc.
Qed.

End Batch.

(** C9, amended.  After the search of a sub-query has returned, the
    fetches of its first five results are started together and take their
    turns in whatever order the event loop resumes them; then
    - every result has the outcome of the turns of its own fetch
      ([settles]), and the batch returns whatever these outcomes are: a
      fetch that throws does not make it throw;
    - the contents that go on are those of the results whose fetch
      returned, with the URL of the result and the text its fetch
      returned, in the order of the results; a result whose fetch threw
      has no entry among them and nothing is put in its place;
    - a URL whose fetches in the batch all threw is not among the URLs the
      sub-query adds, so it is in the [visitedUrls] of the sub-query
      exactly when it was in the [visitedUrls] the sub-query started
      from;
    - the sub-query goes on with these contents: they are the data given
      to [processSerpResult], and their URLs are the URLs added to
      [visitedUrls], both when the sub-query ends the recursion and when
      it calls [deepResearch] again. *)
Theorem failed_fetch_adds_nothing_to_batch
    (W : Type) (env : Env W) (b d : Z)
    (L U : list str) (sq : SerpQuery) (st : State W)
    (searchResults : list DuckDuckResult) (st1 : State W) :
  executeDuckDuckSearchWithRetry env (query sq) st
  = Some (Ok searchResults, st1) ->
  exists outcomes st2,
    (length (firstn 5 searchResults) <= 5)%nat
    /\ Forall2
         (fun result outcome =>
            settles env (url result) st2 st1 (AtTimer fetchMaxRetries)
                    outcome)
         (firstn 5 searchResults) outcomes
    /\ fetchContents env (firstn 5 searchResults) st1
       = Some (Ok (contentsOf (firstn 5 searchResults) outcomes), st2)
    /\ (forall c,
          In c (contentsOf (firstn 5 searchResults) outcomes)
          <-> exists i result md,
                nth_error (firstn 5 searchResults) i = Some result
                /\ nth_error outcomes i = Some (Ok md)
                /\ c = {| c_url := url result; markdown := md |})
    /\ (forall u,
          (forall i result,
              nth_error (firstn 5 searchResults) i = Some result ->
              url result = u -> failedAt outcomes i) ->
          ~ In u (map c_url (contentsOf (firstn 5 searchResults) outcomes))
          /\ (In u (U ++ map c_url
                            (contentsOf (firstn 5 searchResults) outcomes))
              <-> In u U))
    /\ branchTry env b d L U sq st
       = processResults env b d L U sq
           (contentsOf (firstn 5 searchResults) outcomes) st2
    /\ (exists r st3 evs,
          processSerpResult env (query sq)
            (contentsOf (firstn 5 searchResults) outcomes) 3 (ceilHalf b) st2
          = Some (r, st3)
          /\ trace st3
             = trace st2
               ++ EvProcessSerpResult (query sq)
                    (contentsOf (firstn 5 searchResults) outcomes) :: evs)
    /\ (forall pr st3,
          processSerpResult env (query sq)
            (contentsOf (firstn 5 searchResults) outcomes) 3 (ceilHalf b) st2
          = Some (Ok pr, st3) ->
          branchTry env b d L U sq st
          = Some (Ok (if (0 <? d - 1)%Z
                      then RecursiveCall (nextQueryOf sq pr)
                             (ceilHalf b) (d - 1)%Z
                             (L ++ pr_learnings pr)
                             (U ++ map c_url
                                     (contentsOf (firstn 5 searchResults)
                                                 outcomes))
                      else OwnResult
                             {| learnings := L ++ pr_learnings pr;
                                visitedUrls :=
                                  U ++ map c_url
                                         (contentsOf (firstn 5 searchResults)
                                                     outcomes);
                                errors := [] |}),
                  st3)).
Proof.
  intros Hsearch.
  destruct (@fetchContents_runs W env (fun _ _ => True)
              (firstn 5 searchResults) st1)
    as (outcomes & st2 & Hsettles & Hcontents & _).
  exists outcomes, st2.
  set (contents := contentsOf (firstn 5 searchResults) outcomes) in *.
  assert (Hbranch : branchTry env b d L U sq st
                    = processResults env b d L U sq contents st2).
  { unfold branchTry. erewrite bind_eq by exact Hsearch.
    cbv zeta. erewrite bind_eq by exact Hcontents. reflexivity. }
  split; [rewrite length_firstn; lia|].
  split; [assumption|].
  split; [assumption|].
  split; [intros c; apply contentsOf_In|].
  split.
  { intros u Hfailed.
    assert (Hnot : ~ In u (map c_url contents))
      by now apply contentsOf_failed.
    split; [exact Hnot|]. rewrite in_app_iff. tauto. }
  split; [assumption|].
  split.
  - destruct (@processSerpResult_finishes W env (fun _ _ => True)
                (query sq) contents 3%Z (ceilHalf b) st2)
      as (r & st3 & E & _).
    destruct (processSerpResult_trace _ _ _ _ _ _ E) as (evs & T).
    now exists r, st3, evs.
  - intros pr st3 Hpr. rewrite Hbranch. unfold processResults.
    erewrite bind_eq by exact Hpr.
    destruct (0 <? d - 1)%Z; reflexivity.
Qed.

Lemma failed_fetch_adds_nothing_to_batch_witness :
  exists rs st1 outcomes st2,
    executeDuckDuckSearchWithRetry Scenario.healthy
      (lit "lithium recovery") (Scenario.start 0)
    = Some (Ok rs, st1)
    /\ Forall2
         (fun result outcome =>
            settles Scenario.healthy (url result) st2 st1
                    (AtTimer fetchMaxRetries) outcome)
         (firstn 5 rs) outcomes
    /\ fetchContents Scenario.healthy (firstn 5 rs) st1
       = Some (Ok (contentsOf (firstn 5 rs) outcomes), st2).
Proof.
  assert (Hs : exists rs st1,
             executeDuckDuckSearchWithRetry Scenario.healthy
               (query {| query := lit "lithium recovery";
                         researchGoal := lit "processes" |})
               (Scenario.start 0)
             = Some (Ok rs, st1)).
  { eexists. eexists. vm_compute. reflexivity. }
  destruct Hs as (rs & st1 & Hs).
  destruct (@failed_fetch_adds_nothing_to_batch unit Scenario.healthy
              3%Z 1%Z [] []
              {| query := lit "lithium recovery";
                 researchGoal := lit "processes" |}
              (Scenario.start 0) rs st1 Hs)
    as (outcomes & st2 & _ & Hb & Hf & _).
  exists rs, st1, outcomes, st2. repeat split; assumption.
Defined.

(** C9 as it was stated does not hold: a URL whose fetch throws can be in
    the [visitedUrls] of the sub-query all the same.  The budget of
    content requests is used up, so both fetches of the batch throw and
    no content is left; the page of the query is in the [visitedUrls] the
    sub-query starts from, as it is when it was fetched one level up, and
    the sub-query returns it among its own. *)
Lemma visited_url_counterexample :
  exists rs st1 outcomes st2 r st3,
    executeDuckDuckSearchWithRetry Scenario.exhausted
      (lit "lithium recovery") (Scenario.start 2)
    = Some (Ok rs, st1)
    /\ Forall2
         (fun result outcome =>
            settles Scenario.exhausted (url result) st2 st1
                    (AtTimer fetchMaxRetries) outcome)
         (firstn 5 rs) outcomes
    /\ fetchContents Scenario.exhausted (firstn 5 rs) st1
       = Some (Ok (contentsOf (firstn 5 rs) outcomes), st2)
    /\ (exists result,
          nth_error (firstn 5 rs) 0 = Some result
          /\ url result = Scenario.lithiumPage)
    /\ failedAt outcomes 0
    /\ branchTry Scenario.exhausted 1 1 [] [Scenario.lithiumPage]
         {| query := lit "lithium recovery"; researchGoal := lit "processes" |}
         (Scenario.start 2)
       = Some (Ok (OwnResult r), st3)
    /\ In Scenario.lithiumPage (visitedUrls r).
Proof.
  assert (Hs : exists rs st1,
             executeDuckDuckSearchWithRetry Scenario.exhausted
               (lit "lithium recovery") (Scenario.start 2)
             = Some (Ok rs, st1)
             /\ length (firstn 5 rs) = 2%nat
             /\ (exists result,
                   nth_error (firstn 5 rs) 0 = Some result
                   /\ url result = Scenario.lithiumPage)
             /\ exists st2,
                  fetchContents Scenario.exhausted (firstn 5 rs) st1
                  = Some (Ok [], st2)).
  { eexists. eexists. split; [vm_compute; reflexivity|].
    split; [reflexivity|]. split.
    - eexists. split; [reflexivity | vm_compute; reflexivity].
    - eexists. vm_compute. reflexivity. }
  destruct Hs as (rs & st1 & Hs & Hlen & Hpage & st2' & Hnone).
  destruct (@fetchContents_runs unit Scenario.exhausted (fun _ _ => True)
              (firstn 5 rs) st1)
    as (outcomes & st2 & Hsettles & Hcontents & _).
  assert (Hnil : contentsOf (firstn 5 rs) outcomes = []).
  { congruence. }
  exists rs, st1, outcomes, st2. eexists. eexists.
  split; [exact Hs|]. split; [exact Hsettles|].
  split; [exact Hcontents|].
  split; [exact Hpage|]. split.
  - apply contentsOf_nil with (rs := firstn 5 rs).
    + symmetry. apply (Forall2_length Hsettles).
    + exact Hnil.
    + rewrite Hlen. lia.
  - split; [vm_compute; reflexivity|]. simpl. now left.
Qed.

(** In the healthy world the second result of every search is a dead
    link: its content is missing from the batch and the first result is
    kept. *)
Example dead_link_is_dropped :
  exists st',
    fetchContents Scenario.healthy
      [ {| url := lit "https://example.org/a"; title := []; description := [] |};
        {| url := Scenario.deadLink; title := []; description := [] |} ]
      (Scenario.start 0)
    = Some (Ok [ {| c_url := lit "https://example.org/a";
                    markdown := lit "Text of https://example.org/a" |} ],
            st').
Proof. eexists. vm_compute. reflexivity. Qed.

(** The fetches of a batch run together.  With 18 of 20 content requests
    used, the first attempts of both fetches are counted before the first
    fetch, whose request is answered with status 429, tries again: the
    second page is fetched, and it is the second attempt of the first
    fetch that finds the budget used up. *)
Example retry_comes_after_the_first_attempts :
  exists st',
    fetchContents Scenario.overloaded
      [ {| url := Scenario.busyLink; title := []; description := [] |};
        {| url := lit "https://example.org/a"; title := []; description := [] |} ]
      (Scenario.start 18)
    = Some (Ok [ {| c_url := lit "https://example.org/a";
                    markdown := lit "Text of https://example.org/a" |} ],
            st')
    /\ totalJinaRequests st' = 20%Z
    /\ Scenario.countAttempts Scenario.busyLink (trace st') = 2%nat.
Proof. eexists. vm_compute. repeat split. Qed.

(** * Further properties of the deep-search route *)

(** ** Runs graded by a bound *)

Section Graded.
Import Account.
Variable W : Type.
Variable env : Env W.
Variable w : kind -> nat.
Variable G : graded W.

Hypothesis G_refl : forall st, G 0 st st.
Hypothesis G_comp :
  forall n k s1 s2 s3, G n s1 s2 -> G k s2 s3 -> G (n + k) s1 s3.
Hypothesis G_mono :
  forall n k s1 s2, (n <= k)%nat -> G n s1 s2 -> G k s1 s2.
Hypothesis G_emit :
  forall ev st,
    ofFetch ev = false ->
    (kindOf ev = KLimit -> rateLimitsEnabled env = true) ->
    G (w (kindOf ev)) st
      {| totalJinaRequests := totalJinaRequests st;
         world := world st;
         trace := trace st ++ [ev] |}.
Hypothesis G_suspend :
  forall st st', suspend env st = Some (Ok tt, st') -> G 0 st st'.
Hypothesis G_world :
  forall st w',
    G 0 st {| totalJinaRequests := totalJinaRequests st;
              world := w';
              trace := trace st |}.
Hypothesis G_batch :
  forall rs, runs G (length rs * fetchCost env w) (fetchContents env rs).

Notation M := (Effects.M W).
Notation runs := (runs G).

Lemma runs_weaken {A} n k (m : M A) :
  (n <= k)%nat -> runs n m -> runs k m.
Proof.
  intros L H st. destruct (H st) as (r & st' & E & X).
  exists r, st'. split; [assumption | eauto].
Qed.

Lemma runs_ret {A} (a : A) : runs 0 (ret (W:=W) a).
Proof. intros st. exists (Ok a), st. split; [reflexivity | apply G_refl]. Qed.

Lemma runs_throw {A} e : runs 0 (throw (W:=W) (A:=A) e).
Proof. intros st. exists (Throw e), st. split; [reflexivity | apply G_refl]. Qed.

Lemma runs_bind {A B} n k (m : M A) (f : A -> M B) :
  runs n m -> (forall a, runs k (f a)) -> runs (n + k) (bind m f).
Proof.
  intros Hm Hf st. destruct (Hm st) as (r & st1 & E & X).
  unfold bind. rewrite E. destruct r as [a|e].
  - destruct (Hf a st1) as (r' & st2 & E' & X').
    exists r', st2. split; [assumption | eauto].
  - exists (Throw e), st1. split; [reflexivity|].
    eapply G_mono; [|exact X]. lia.
Qed.

Lemma runs_tryCatch {A} n k (m : M A) (h : exn -> M A) :
  runs n m -> (forall e, runs k (h e)) -> runs (n + k) (tryCatch m h).
Proof.
  intros Hm Hh st. destruct (Hm st) as (r & st1 & E & X).
  unfold tryCatch. rewrite E. destruct r as [a|e].
  - exists (Ok a), st1. split; [reflexivity|].
    eapply G_mono; [|exact X]. lia.
  - destruct (Hh e st1) as (r' & st2 & E' & X').
    exists r', st2. split; [assumption | eauto].
Qed.

Lemma runs_emit ev :
  ofFetch ev = false ->
  (kindOf ev = KLimit -> rateLimitsEnabled env = true) ->
  runs (w (kindOf ev)) (emit (W:=W) ev).
Proof.
  intros H L st. eexists _, _. split; [reflexivity|]. now apply G_emit.
Qed.

Lemma runs_suspend : runs 0 (suspend env).
Proof.
  intros st.
  assert (E : exists st', suspend env st = Some (Ok tt, st')).
  { unfold suspend. destruct (intervalElapsed env (world st)). eauto. }
  destruct E as (st' & E). exists (Ok tt), st'. split; [exact E|].
  now apply G_suspend.
Qed.

Lemma runs_delay : runs (w KDelay) (delay env).
Proof.
  unfold delay. eapply runs_weaken; [|apply runs_bind].
  2: apply (runs_emit EvDelay); [reflexivity | discriminate].
  2: intros _; apply runs_suspend.
  simpl. lia.
Qed.

Lemma runs_await {A} ev (f : W -> result A * W) :
  ofFetch ev = false ->
  (kindOf ev = KLimit -> rateLimitsEnabled env = true) ->
  runs (w (kindOf ev)) (await env ev f).
Proof.
  intros H L. unfold await.
  eapply runs_weaken; [|apply runs_bind; [now apply runs_emit|]].
  2: { intros _ st. destruct (f (world st)) as [r w'].
       match goal with
       | |- context [suspend env ?s] =>
         destruct (runs_suspend s) as (r' & st' & E & X);
         pose proof (G_world st w') as Y
       end.
       rewrite E. exists r, st'. split; [reflexivity|].
       exact (G_comp Y X). }
  simpl. lia.
Qed.

Lemma runs_now : runs 0 (now env).
Proof.
  intros st. unfold now. destruct (dateNow env (world st)) as [t w'].
  eexists _, _. split; [reflexivity | apply G_world].
Qed.

(** The functions of the route, one by one. *)

Lemma generateSerpQueries_runs q n l :
  runs (w KModel) (generateSerpQueries env q n l).
Proof.
  unfold generateSerpQueries.
  eapply runs_weaken; [|apply runs_bind].
  2: apply (runs_await (EvModel _)); [reflexivity | discriminate].
  2: { intros response. destruct (parseQueries response n);
         [apply runs_ret | apply runs_throw]. }
  simpl. lia.
Qed.

Lemma limit_runs (key : str) (e : exn) :
  runs (limitCost env w)
    (if rateLimitsEnabled env
     then bind (await env (EvLimit SearchLimiter key)
                  (searchRatelimit env key))
            (fun success => if negb success then throw e else ret tt)
     else ret tt).
Proof.
  unfold limitCost. case_eq (rateLimitsEnabled env); intros En.
  - eapply runs_weaken; [|apply runs_bind].
    2: apply (runs_await (EvLimit SearchLimiter key)); [reflexivity | auto].
    2: { intros s. destruct (negb s); [apply runs_throw | apply runs_ret]. }
    simpl. lia.
  - apply runs_ret.
Qed.

Lemma safeDuckDuckSearch_runs q :
  runs (searchAttemptCost env w) (safeDuckDuckSearch env q).
Proof.
  unfold safeDuckDuckSearch, searchAttemptCost.
  eapply runs_weaken; [|apply runs_bind; [apply limit_runs|]].
  2: { intros _. apply runs_bind; [apply runs_delay|].
       intros _. apply (runs_await (EvSearch q));
         [reflexivity | discriminate]. }
  simpl. lia.
Qed.

Lemma retryLoop_runs {A} (op : M A) ex n c :
  runs c op -> runs (n * (c + w KDelay)) (retryLoop env op ex n).
Proof.
  intros Hop. induction n as [|n IH]; simpl.
  - apply runs_throw.
  - eapply runs_weaken; [|apply runs_tryCatch; [exact Hop|]].
    2: { intros e. destruct (isRateLimit e).
         - apply runs_bind; [apply runs_delay | intros _; exact IH].
         - eapply runs_weaken; [|apply runs_throw]. apply Nat.le_0_l. }
    lia.
Qed.

Lemma runs_ext {A} n (m m' : M A) :
  (forall st, m st = m' st) -> runs n m' -> runs n m.
Proof. intros E H st. rewrite E. apply H. Qed.

Lemma executeDuckDuckSearchWithRetry_runs q :
  runs (searchCost env w) (executeDuckDuckSearchWithRetry env q).
Proof.
  unfold executeDuckDuckSearchWithRetry, searchCost.
  eapply runs_ext; [intros st; apply searchLoop_retryLoop|].
  apply retryLoop_runs, safeDuckDuckSearch_runs.
Qed.

Lemma processSerpResult_runs q data n m :
  runs (summaryCost w) (processSerpResult env q data n m).
Proof.
  unfold processSerpResult, summaryCost.
  apply runs_bind.
  - apply (runs_emit (EvProcessSerpResult q data));
      [reflexivity | discriminate].
  - intros _. eapply runs_weaken; [|apply runs_bind].
    2: apply (runs_await (EvModel _)); [reflexivity | discriminate].
    2: { intros response.
         destruct (parseLearnings response n m) as [[ls fs]|];
           [apply runs_ret | apply runs_throw]. }
    simpl. lia.
Qed.

Lemma branchTry_runs b d L U sq :
  runs (subQueryCost env w) (branchTry env b d L U sq).
Proof.
  unfold branchTry, subQueryCost.
  rewrite <- Nat.add_assoc.
  apply runs_bind; [apply executeDuckDuckSearchWithRetry_runs|].
  intros rs. cbv zeta. apply runs_bind.
  - eapply runs_weaken; [|apply G_batch].
    apply Nat.mul_le_mono_r. rewrite length_firstn. apply Nat.le_min_l.
  - intros contents. unfold processResults.
    eapply runs_weaken; [|apply runs_bind;
                           [apply processSerpResult_runs|]].
    2: { intros pr. destruct (0 <? d - 1)%Z; apply runs_ret. }
    lia.
Qed.

Lemma branch_runs (self : research W) n b d L U errors sq :
  ((0 < d - 1)%Z ->
   forall q' L' U', runs n (self q' (ceilHalf b) (d - 1)%Z L' U')) ->
  runs (subQueryCost env w + n) (branch env self b d L U errors sq).
Proof.
  intros Hself st. rewrite branch_eq.
  destruct (branchTry_runs b d L U sq st) as (r & st1 & E & X).
  rewrite E. destruct r as [x|e].
  - pose proof E as Hx; apply branchTry_returns in Hx.
    destruct x as [r0 | q' b' d' L' U']; simpl.
    + eexists _, _. split; [reflexivity|].
      eapply G_mono; [|exact X]. lia.
    + destruct Hx as (-> & -> & Hd).
      destruct (Hself Hd q' L' U' st1) as (r' & st2 & E' & X').
      rewrite E'. destruct r' as [r'|e'];
        eexists _, _; (split; [reflexivity|]); eauto.
  - eexists _, _. split; [reflexivity|].
    eapply G_mono; [|exact X]. lia.
Qed.

Lemma runBranches_runs (self : research W) n b d L U sqs :
  ((0 < d - 1)%Z ->
   forall q' L' U', runs n (self q' (ceilHalf b) (d - 1)%Z L' U')) ->
  forall errors,
    runs (length sqs * (subQueryCost env w + n))
      (runBranches env self b d L U errors sqs).
Proof.
  intros Hself. induction sqs as [|sq sqs IH]; intros errors; simpl.
  - apply runs_ret.
  - eapply runs_weaken;
      [|apply runs_bind; [apply (@branch_runs self n); exact Hself|]].
    2: { intros p. apply runs_bind; [apply IH|].
         intros q. apply runs_ret. }
    lia.
Qed.

(** What [generateSerpQueries] returns for a count that is not negative
    has at most that many elements. *)
Lemma generateSerpQueries_length q n l (st : State W) qs st' :
  (0 <= n)%Z ->
  generateSerpQueries env q n l st = Some (Ok qs, st') ->
  (length qs <= Z.to_nat n)%nat.
Proof.
  intros Hn H. unfold generateSerpQueries in H.
  apply bind_Ok_inv in H. destruct H as (response & st1 & _ & H).
  unfold parseQueries in H.
  destruct (queriesArray response) as [queries|]; [|discriminate].
  inversion H; subst. rewrite slice0_firstn by assumption.
  rewrite length_map, length_firstn. lia.
Qed.

Lemma deepResearchBody_runs (self : research W) n q b d L U :
  (0 <= b)%Z ->
  ((0 < d - 1)%Z ->
   forall q' L' U', runs n (self q' (ceilHalf b) (d - 1)%Z L' U')) ->
  runs (invocationCost w + Z.to_nat b * (subQueryCost env w + n))
    (deepResearchBody env self q b d L U).
Proof.
  intros Hb Hself st. unfold deepResearchBody, invocationCost.
  destruct (@runs_emit (EvDeepResearch q b d) eq_refl
              ltac:(discriminate) st)
    as (r0 & st0 & E0 & X0).
  unfold bind at 1. rewrite E0.
  assert (r0 = Ok tt) as -> by (unfold emit in E0; congruence).
  destruct (generateSerpQueries_runs q b (Some L) st0)
    as (r1 & st1 & E1 & X1).
  unfold bind at 1. unfold tryCatch at 1. rewrite E1.
  destruct r1 as [sqs|e].
  - apply generateSerpQueries_length in E1; [|assumption].
    destruct (runBranches_runs self b d L U sqs Hself [] st1)
      as (r2 & st2 & E2 & X2).
    unfold bind. rewrite E2.
    assert (X : G (w (kindOf (EvDeepResearch q b d)) + w KModel
                   + length sqs * (subQueryCost env w + n)) st st2)
      by eauto.
    assert (Y : G (w KDeepResearch + w KModel
                   + Z.to_nat b * (subQueryCost env w + n)) st st2).
    { eapply G_mono; [|exact X]. simpl.
      apply Nat.add_le_mono_l. now apply Nat.mul_le_mono_r. }
    destruct r2 as [p|e]; eexists _, _; (split; [reflexivity | exact Y]).
  - eexists _, _. split; [reflexivity|].
    assert (X : G (w (kindOf (EvDeepResearch q b d)) + w KModel) st st1)
      by eauto.
    eapply G_mono; [|exact X]. simpl. lia.
Qed.

Lemma deepResearch_runs (fuel : nat) :
  forall q b d L U,
    (levels d <= fuel)%nat ->
    (0 <= b)%Z ->
    runs (researchCost env w (levels d) b)
      (deepResearch env fuel q b d L U).
Proof.
  induction fuel as [|fuel IH]; intros q b d L U Hfuel Hb.
  - unfold levels in Hfuel. lia.
  - simpl deepResearch.
    assert (Hl : exists l, levels d = S l
                 /\ ((0 < d - 1)%Z -> l = levels (d - 1))).
    { exists (Nat.pred (levels d)). unfold levels. split; lia. }
    destruct Hl as (l & El & Hl). rewrite El. simpl researchCost.
    apply deepResearchBody_runs; [assumption|].
    intros Hd q' L' U'. rewrite (Hl Hd).
    apply IH.
    + unfold levels in *. lia.
    + unfold ceilHalf. apply Z.div_pos; lia.
Qed.

Lemma webPagesFrom_runs index L U : runs 0 (webPagesFrom env index L U).
Proof.
  revert index. induction U as [|u U IH]; intros index; simpl.
  - apply runs_ret.
  - apply (runs_bind (n:=0) (k:=0)); [apply runs_now|]. intros t.
    apply (runs_bind (n:=0) (k:=0)); [apply IH|]. intros pages.
    apply runs_ret.
Qed.

(** The handler. *)
Lemma allowed_runs q : runs (limitCost env w) (allowed env q).
Proof.
  unfold allowed, limitCost. case_eq (rateLimitsEnabled env); intros En.
  - apply (runs_await (EvLimit SearchLimiter q)); [reflexivity | auto].
  - apply runs_ret.
Qed.

Lemma POST_runs rq :
  (0 <= breadthOf rq)%Z ->
  runs (limitCost env w
        + researchCost env w (levels (depthOf rq)) (breadthOf rq))
    (POST env (Some rq)).
Proof.
  intros Hb. unfold POST. cbv zeta.
  set (c := researchCost env w (levels (depthOf rq)) (breadthOf rq)).
  destruct (rq_query rq) as [|c0 query].
  { eapply runs_weaken; [|apply runs_ret]. apply Nat.le_0_l. }
  apply (runs_weaken (n := limitCost env w + c + 0)); [lia|].
  apply runs_tryCatch; [|intros e; apply runs_ret].
  apply runs_bind; [apply allowed_runs|]. intros success.
  destruct (negb success).
  { eapply runs_weaken; [|apply runs_ret]. apply Nat.le_0_l. }
  apply (runs_weaken (n := c + 0 + 0)); [lia|].
  apply runs_tryCatch.
  2: { intros e. unfold onDeepSearchError. apply runs_ret. }
  apply runs_bind; [apply deepResearch_runs; [lia|exact Hb]|].
  intros r. apply (runs_bind (n:=0) (k:=0)); [apply webPagesFrom_runs|].
  intros pages. apply runs_ret.
Qed.

(** Relations that do not depend on the grade: no condition on the
    breadth is needed. *)
Section Ungraded.
Hypothesis G_any : forall n k s1 s2, G n s1 s2 -> G k s1 s2.

Lemma runs_any {A} n k (m : M A) : runs n m -> runs k m.
Proof.
  intros H st. destruct (H st) as (r & st' & E & X).
  exists r, st'. split; [assumption | eauto].
Qed.

Lemma deepResearch_runs_any (fuel : nat) :
  forall q b d L U,
    (levels d <= fuel)%nat ->
    runs 0 (deepResearch env fuel q b d L U).
Proof.
  induction fuel as [|fuel IH]; intros q b d L U Hfuel.
  - unfold levels in Hfuel. lia.
  - simpl deepResearch. unfold deepResearchBody.
    apply (runs_any (n := w KDeepResearch + (w KModel + 0))).
    apply runs_bind.
    { apply (runs_emit (EvDeepResearch q b d));
        [reflexivity | discriminate]. }
    intros _. apply runs_bind.
    { eapply runs_any. apply runs_tryCatch;
        [apply generateSerpQueries_runs | intros e; apply runs_throw]. }
    intros sqs. eapply runs_any. apply runs_bind.
    { apply (@runBranches_runs (deepResearch env fuel) 0).
      intros Hd q' L' U'. apply IH. unfold levels in *. lia. }
    intros p. apply runs_ret.
Qed.

Lemma POST_runs_any request : runs 0 (POST env request).
Proof.
  unfold POST. destruct request as [rq|]; [|apply runs_ret].
  cbv zeta. destruct (rq_query rq) as [|c query]; [apply runs_ret|].
  eapply runs_any. apply runs_tryCatch.
  2: intros e; apply runs_ret.
  apply runs_bind; [apply allowed_runs|]. intros success.
  destruct (negb success); [apply runs_ret|].
  eapply runs_any. apply runs_tryCatch.
  2: { intros e. unfold onDeepSearchError. apply runs_ret. }
  apply runs_bind; [apply deepResearch_runs_any; lia|].
  intros r. apply runs_bind; [apply webPagesFrom_runs|].
  intros pages. apply runs_ret.
Qed.

End Ungraded.

End Graded.

(** ** The turns of a batch within their allowances *)

Section Allowances.
Import Account.
Variable W : Type.
Variable env : Env W.
Variable F : allowing W.
Variable each : pending -> nat.
Variable atStart : nat.

Hypothesis F_refl : forall a st, F a a st st.
Hypothesis F_comp :
  forall a b c s1 s2 s3, F a b s1 s2 -> F b c s2 s3 -> F a c s1 s3.
Hypothesis F_frame :
  forall a b f s s', F a b s s' -> F (a + f) (b + f) s s'.
Hypothesis F_world :
  forall a st w',
    F a a st {| totalJinaRequests := totalJinaRequests st;
                world := w';
                trace := trace st |}.
Hypothesis F_resume :
  forall u p st ph st',
    resume env u p st = Some (Ok ph, st') ->
    F (each p)
      match ph with
      | Pending p' => each p'
      | Settled _ => 0
      end
      st st'.
Hypothesis F_start :
  forall st,
    F atStart (each (AtTimer fetchMaxRetries)) st
      {| totalJinaRequests := totalJinaRequests st;
         world := world st;
         trace := trace st ++ [EvDelay] |}.

Lemma allowance_Permutation (l l' : list fetching) :
  Permutation l l' -> allowance each l = allowance each l'.
Proof. unfold allowance. induction 1; simpl; lia. Qed.

Lemma allowance_snoc (l : list fetching) (f : fetching) :
  allowance each (l ++ [f]) = allowance each l + each (f_at f).
Proof. unfold allowance. rewrite map_app, list_sum_app. simpl. lia. Qed.

Lemma allowance_started index rs :
  allowance each (started index rs)
  = length rs * each (AtTimer fetchMaxRetries).
Proof.
  unfold started, allowance. revert index.
  induction rs as [|r rs IH]; intros index; simpl; [reflexivity|].
  now rewrite IH.
Qed.

Lemma runFetches_allowed fuel :
  forall suspended fulfilled (st : State W) out st',
    runFetches env fuel suspended fulfilled st = Some (Ok out, st') ->
    F (allowance each suspended) 0 st st'.
Proof.
  induction fuel as [|fuel IH]; intros suspended fulfilled st out st' H;
    destruct suspended as [|first rest];
    try (inversion H; subst; apply F_refl); try discriminate.
  assert (Hn : length (first :: rest) <> 0) by (simpl; lia).
  set (suspended := first :: rest) in *.
  assert (Hstep :
            runFetches env (S fuel) suspended fulfilled st
            = bind (pickNext env (length suspended)) (fun k =>
              bind (resume env (url (f_result (nth k suspended first)))
                      (f_at (nth k suspended first))) (fun ph =>
              match ph with
              | Pending p =>
                runFetches env fuel
                  (without k suspended
                   ++ [{| f_index := f_index (nth k suspended first);
                          f_result := f_result (nth k suspended first);
                          f_at := p |}])
                  fulfilled
              | Settled outcome =>
                runFetches env fuel (without k suspended)
                  ((f_index (nth k suspended first),
                    contentOf (f_result (nth k suspended first)) outcome)
                   :: fulfilled)
              end)) st) by reflexivity.
  rewrite Hstep in H. clear Hstep. clearbody suspended.
  apply bind_Ok_inv in H. destruct H as (k & s & Ek & H).
  apply bind_Ok_inv in H. destruct H as (ph & s1 & Er & H).
  assert (Hk : k < length suspended /\ F (allowance each suspended)
                                         (allowance each suspended) st s).
  { unfold pickNext in Ek.
    destruct (resumeNext env (length suspended) (world st)) as [k0 w'].
    injection Ek as <- <-. split; [|apply F_world].
    now apply Nat.mod_upper_bound. }
  destruct Hk as (Hk & Xk).
  set (f := nth k suspended first) in *.
  pose proof (without_Permutation suspended first Hk) as Hperm.
  fold f in Hperm. clearbody f.
  rewrite (allowance_Permutation Hperm) in *.
  unfold allowance in Xk |- *. cbn [map list_sum] in Xk |- *.
  fold (allowance each (without k suspended)) in Xk |- *.
  apply F_resume in Er.
  apply (F_frame (allowance each (without k suspended))) in Er.
  eapply F_comp; [exact Xk|]. eapply F_comp; [exact Er|].
  destruct ph as [p | outcome].
  - apply IH in H. rewrite allowance_snoc in H. simpl in H.
    now rewrite Nat.add_comm.
  - apply IH in H. exact H.
Qed.

Lemma startFetches_allowed rs :
  forall index (st : State W) suspended st',
    startFetches index rs st = Some (Ok suspended, st') ->
    suspended = started index rs
    /\ F (length rs * atStart) (allowance each suspended) st st'.
Proof.
  induction rs as [|r rs IH]; intros index st suspended st' H.
  - inversion H; subst. split; [reflexivity | apply F_refl].
  - cbn [startFetches] in H.
    apply bind_Ok_inv in H. destruct H as (p & s & Es & H).
    apply bind_Ok_inv in H. destruct H as (others & s1 & Eo & H).
    inversion H; subst. clear H.
    unfold startFetch, bind, emit, ret in Es. inversion Es; subst. clear Es.
    apply IH in Eo. destruct Eo as (-> & X). split; [reflexivity|].
    pose proof (F_start st) as X0.
    apply (F_frame (length rs * atStart)) in X0.
    apply (F_frame (each (AtTimer fetchMaxRetries))) in X.
    unfold allowance in *. cbn [map list_sum f_at length].
    replace (S (length rs) * atStart) with (atStart + length rs * atStart)
      by lia.
    eapply F_comp; [exact X0|].
    assert (F_eq : forall a b a' b' s s',
               a = a' -> b = b' -> F a b s s' -> F a' b' s s')
      by (intros; subst; assumption).
    eapply F_eq; [| |exact X]; cbn [list_sum]; apply Nat.add_comm.
Qed.

(** A batch keeps within the allowances of its fetches, whatever the
    order of their turns. *)
Lemma fetchContents_allowed rs (st : State W) :
  exists contents st',
    fetchContents env rs st = Some (Ok contents, st')
    /\ F (length rs * atStart) 0 st st'.
Proof.
  destruct (@fetchContents_runs W env (fun _ _ => True) rs st)
    as (outcomes & st' & _ & E & _).
  exists (contentsOf rs outcomes), st'. split; [exact E|].
  unfold fetchContents in E.
  apply bind_Ok_inv in E. destruct E as (suspended & s & Es & E).
  apply bind_Ok_inv in E. destruct E as (fulfilled & s1 & Er & E).
  inversion E; subst. clear E.
  apply startFetches_allowed in Es. destruct Es as (_ & Xs).
  apply runFetches_allowed in Er.
  eapply F_comp; eassumption.
Qed.

End Allowances.

(** ** One turn of a fetch *)

Section Turn.
Variable W : Type.
Variable env : Env W.

Lemma suspend_outcome (st st' : State W) :
  suspend env st = Some (Ok tt, st') ->
  trace st' = trace st
  /\ (totalJinaRequests st' = totalJinaRequests st
      \/ totalJinaRequests st' = 0%Z)
  /\ ((forall w, fst (intervalElapsed env w) = false) ->
      totalJinaRequests st' = totalJinaRequests st).
Proof.
  unfold suspend.
  destruct (intervalElapsed env (world st)) as [fired w'] eqn:E.
  intros H. injection H as <-. simpl. split; [reflexivity|]. split.
  - destruct fired; auto.
  - intros Hno. specialize (Hno (world st)). rewrite E in Hno.
    simpl in Hno. now subst fired.
Qed.

Lemma caught_outcome k e (st : State W) ph st' :
  caught k e st = Some (Ok ph, st') ->
  totalJinaRequests st' = totalJinaRequests st
  /\ ((trace st' = trace st ++ [EvDelay] /\ ph = Pending (AtTimer k))
      \/ (trace st' = trace st /\ exists e', ph = Settled (Throw e'))).
Proof.
  unfold caught. destruct (isRateLimit e); intros H.
  - unfold bind, emit, ret in H. injection H as <- <-. simpl. auto.
  - unfold ret in H. injection H as <- <-. eauto.
Qed.

Lemma requestGet_outcome k u (st : State W) ph st' :
  requestGet env k u st = Some (Ok ph, st') ->
  totalJinaRequests st' = totalJinaRequests st
  /\ trace st' = trace st ++ [EvHttpGet u]
  /\ exists answer, ph = Pending (AtGet k answer).
Proof.
  unfold requestGet, bind, emit, request, ret. simpl.
  destruct (axiosGet env u (world st)) as [answer w'].
  intros H. injection H as <- <-. simpl. eauto.
Qed.

(** What a turn does, by the [await] the fetch was at: the events it
    adds, what it does to the counter, counted from the value [t] the
    counter has once the fetch is resumed, and where it leaves the
    fetch. *)
Lemma resume_outcome u p (st : State W) ph st' :
  resume env u p st = Some (Ok ph, st') ->
  exists t evs,
    (t = totalJinaRequests st \/ t = 0%Z)
    /\ ((forall w, fst (intervalElapsed env w) = false) ->
        t = totalJinaRequests st)
    /\ trace st' = trace st ++ evs
    /\ ((p = AtTimer 0
         /\ totalJinaRequests st' = t /\ evs = []
         /\ ph = Settled (Throw fetchExhausted))
        \/ (exists k,
               p = AtTimer (S k) /\ (contentFetch env <= t)%Z
               /\ totalJinaRequests st' = t
               /\ evs = [EvFetchJinaContent u; EvDelay]
               /\ ph = Pending (AtTimer k))
        \/ (exists k answer,
               p = AtTimer (S k) /\ (t < contentFetch env)%Z
               /\ totalJinaRequests st' = (t + 1)%Z
               /\ rateLimitsEnabled env = true
               /\ evs = [EvFetchJinaContent u;
                         EvLimit FetchContentLimiter u]
               /\ ph = Pending (AtLimiter k answer))
        \/ (exists k answer,
               p = AtTimer (S k) /\ (t < contentFetch env)%Z
               /\ totalJinaRequests st' = (t + 1)%Z
               /\ rateLimitsEnabled env = false
               /\ evs = [EvFetchJinaContent u; EvHttpGet u]
               /\ ph = Pending (AtGet k answer))
        \/ (exists k answer,
               p = AtLimiter k (Ok true)
               /\ totalJinaRequests st' = t
               /\ evs = [EvHttpGet u]
               /\ ph = Pending (AtGet k answer))
        \/ (exists k,
               ((exists answer, p = AtLimiter k answer /\ answer <> Ok true)
                \/ (exists error, p = AtGet k (Throw error)))
               /\ totalJinaRequests st' = t
               /\ ((evs = [EvDelay] /\ ph = Pending (AtTimer k))
                   \/ (evs = [] /\ exists e, ph = Settled (Throw e))))
        \/ (exists k data,
               p = AtGet k (Ok data)
               /\ totalJinaRequests st' = t /\ evs = []
               /\ ph = Settled (Ok data))).
Proof.
  intros H. unfold resume in H.
  apply bind_Ok_inv in H. destruct H as ([] & s & Es & H).
  apply suspend_outcome in Es. destruct Es as (Ts & Hs & Hno).
  exists (totalJinaRequests s).
  assert (Hcaught : forall k e,
             caught k e s = Some (Ok ph, st') ->
             exists evs,
               trace st' = trace st ++ evs
               /\ totalJinaRequests st' = totalJinaRequests s
               /\ ((evs = [EvDelay] /\ ph = Pending (AtTimer k))
                   \/ (evs = [] /\ exists e', ph = Settled (Throw e')))).
  { intros k e Hc. apply caught_outcome in Hc.
    destruct Hc as (Hc & [(Tc & ->) | (Tc & e' & ->)]).
    - exists [EvDelay]. rewrite Tc, Ts. auto.
    - exists []. rewrite Tc, Ts, app_nil_r. eauto 6. }
  assert (Hget : forall k,
             requestGet env k u s = Some (Ok ph, st') ->
             totalJinaRequests st' = totalJinaRequests s
             /\ trace st' = trace st ++ [EvHttpGet u]
             /\ exists answer, ph = Pending (AtGet k answer)).
  { intros k Hg. apply requestGet_outcome in Hg. now rewrite Ts in Hg. }
  destruct p as [[|k] | k [[|]|error] | k [data|error]].
  - (* the loop is over *)
    cbn [enterLoop] in H. unfold ret in H. injection H as <- <-.
    exists []. split; [exact Hs|]. split; [exact Hno|].
    split; [now rewrite Ts, app_nil_r|]. left. auto.
  - (* an attempt *)
    cbn [enterLoop] in H.
    apply bind_Ok_inv in H. destruct H as ([] & s1 & E1 & H).
    unfold emit in E1. injection E1 as <-.
    apply bind_Ok_inv in H. destruct H as (total & s2 & E2 & H).
    unfold getTotal in E2. injection E2 as <- <-. cbn [totalJinaRequests] in H.
    destruct (contentFetch env <=? totalJinaRequests s)%Z eqn:Eb.
    + apply Z.leb_le in Eb.
      assert (Hrl : isRateLimit (Error (lit "Global Jina rate limit exceeded"))
                    = true) by (vm_compute; reflexivity).
      unfold caught in H. rewrite Hrl in H.
      unfold bind, emit, ret in H. injection H as <- <-.
      exists [EvFetchJinaContent u; EvDelay].
      split; [exact Hs|]. split; [exact Hno|].
      split; [simpl; rewrite Ts, <- app_assoc; reflexivity|].
      right. left. exists k. auto.
    + apply Z.leb_gt in Eb.
      apply bind_Ok_inv in H. destruct H as ([] & s3 & E3 & H).
      unfold setTotal in E3. injection E3 as <-.
      destruct (rateLimitsEnabled env) eqn:En.
      * unfold bind, emit, request, ret in H. simpl in H.
        destruct (fetchContentRatelimit env u (world s)) as [answer w'].
        injection H as <- <-.
        exists [EvFetchJinaContent u; EvLimit FetchContentLimiter u].
        split; [exact Hs|]. split; [exact Hno|].
        split; [simpl; rewrite Ts, <- app_assoc; reflexivity|].
        right. right. left. exists k, answer. auto 6.
      * apply requestGet_outcome in H. simpl in H.
        destruct H as (Ht & Tr & answer & ->).
        exists [EvFetchJinaContent u; EvHttpGet u].
        split; [exact Hs|]. split; [exact Hno|].
        split; [rewrite Tr, Ts, <- app_assoc; reflexivity|].
        right. right. right. left. exists k, answer. auto 6.
  - (* the rate limiter let the fetch through *)
    cbn [negb] in H. apply Hget in H. destruct H as (Ht & Tr & answer & ->).
    exists [EvHttpGet u]. split; [exact Hs|]. split; [exact Hno|].
    split; [exact Tr|]. do 4 right. left. exists k, answer. auto.
  - (* the rate limiter refused *)
    cbn [negb] in H. apply Hcaught in H. destruct H as (evs & Tr & Ht & Hc).
    exists evs. split; [exact Hs|]. split; [exact Hno|].
    split; [exact Tr|]. do 5 right. left. exists k. split; [|auto].
    left. exists (Ok false). split; [reflexivity | discriminate].
  - (* the rate limiter threw *)
    apply Hcaught in H. destruct H as (evs & Tr & Ht & Hc).
    exists evs. split; [exact Hs|]. split; [exact Hno|].
    split; [exact Tr|]. do 5 right. left. exists k. split; [|auto].
    left. exists (Throw error). split; [reflexivity | discriminate].
  - (* the request returned *)
    unfold ret in H. injection H as <- <-.
    exists []. split; [exact Hs|]. split; [exact Hno|].
    split; [now rewrite Ts, app_nil_r|]. do 6 right. exists k, data. auto.
  - (* the request threw *)
    apply Hcaught in H. destruct H as (evs & Tr & Ht & Hc).
    exists evs. split; [exact Hs|]. split; [exact Hno|].
    split; [exact Tr|]. do 5 right. left. exists k. split; [|auto].
    right. now exists error.
Qed.

End Turn.

(** ** The three gradings *)

Section Gradings.
Import Account.
Variable W : Type.
Variable env : Env W.

Lemma weight_app w (a b : list event) :
  weight w (a ++ b) = weight w a + weight w b.
Proof. unfold weight. now rewrite map_app, list_sum_app. Qed.


Section Weighs.
Variable w : kind -> nat.





Lemma suspend_trace (st st' : State W) r :
  suspend env st = Some (r, st') -> trace st' = trace st.
Proof.
  unfold suspend. destruct (intervalElapsed env (world st)).
  intros H. inversion H. reflexivity.
Qed.



(** A turn of a fetch adds no more weight than its allowance goes down
    by. *)
Lemma resume_spends u p (st : State W) ph st' :
  resume env u p st = Some (Ok ph, st') ->
  spends w (pendingCost env w p)
    match ph with
    | Pending p' => pendingCost env w p'
    | Settled _ => 0
    end
    st st'.
Proof.
  intros H. apply resume_outcome in H.
  destruct H as (t & evs & _ & _ & T & H).
  exists evs. split; [exact T|].
  unfold pendingCost, fetchAttemptCost, limitCost.
  destruct H as [(-> & _ & -> & ->)
    | [(k & -> & _ & _ & -> & ->)
    | [(k & a & -> & _ & _ & -> & -> & ->)
    | [(k & a & -> & _ & _ & -> & -> & ->)
    | [(k & a & -> & _ & -> & ->)
    | [(k & Hp & _ & [(-> & ->) | (-> & e & ->)])
    | (k & data & -> & _ & -> & ->)]]]]]];
    try (destruct Hp as [(a & -> & _) | (e' & ->)]);
    unfold weight; simpl; lia.
Qed.

Lemma fetchContents_weighs rs :
  runs (weighs w) (length rs * fetchCost env w) (fetchContents env rs).
Proof.
  intros st.
  destruct (@fetchContents_allowed W env (spends w) (pendingCost env w)
              (fetchCost env w)) with (rs := rs) (st := st)
    as (contents & st' & E & evs & T & C).
  - intros a s. exists []. split; [now rewrite app_nil_r|].
    unfold weight. simpl. lia.
  - intros a b c s1 s2 s3 (e1 & T1 & C1) (e2 & T2 & C2).
    exists (e1 ++ e2). split; [now rewrite T2, T1, app_assoc|].
    rewrite weight_app. lia.
  - intros a b f s s' (e & T & C). exists e. split; [exact T | lia].
  - intros a s w'. exists []. split; [simpl; now rewrite app_nil_r|].
    unfold weight. simpl. lia.
  - intros u p s ph s'. apply resume_spends.
  - intros s. exists [EvDelay]. split; [reflexivity|].
    unfold weight, fetchCost, pendingCost. simpl. lia.
  - exists (Ok contents), st'. split; [exact E|].
    exists evs. split; [exact T | lia].
Qed.


End Weighs.


End Gradings.

Section Gradings_of_state.
Import Account.
Variable W : Type.
Variable env : Env W.

Lemma count_app k (a b : list event) :
  count k (a ++ b) = count k a + count k b.
Proof. apply weight_app. Qed.

Section Unlimited.
Hypothesis disabled : rateLimitsEnabled env = false.

Lemma fetchContents_unlimited rs n :
  runs (@unlimited W) n (fetchContents env rs).
Proof.
  intros st.
  destruct (@fetchContents_weighs W env (only KLimit) rs st)
    as (r & st' & E & evs & T & C).
  exists r, st'. split; [exact E|]. exists evs. split; [exact T|].
  unfold fetchCost, fetchAttemptCost, limitCost in C.
  rewrite disabled in C. simpl in C. unfold count. lia.
Qed.

Lemma POST_unlimited request : runs (@unlimited W) 0 (POST env request).
Proof.
  apply (@POST_runs_any W env (fun _ => 0)).
  - intros st. exists []. split; [now rewrite app_nil_r | reflexivity].
  - intros n k s1 s2 s3 (e1 & T1 & C1) (e2 & T2 & C2).
    exists (e1 ++ e2). split; [now rewrite T2, T1, app_assoc|].
    rewrite count_app. lia.
  - intros n k s1 s2 _ H. exact H.
  - intros ev st _ Hl. exists [ev]. split; [reflexivity|].
    destruct ev; try reflexivity.
    specialize (Hl eq_refl). congruence.
  - intros st st' H. apply suspend_trace in H. exists [].
    split; [now rewrite app_nil_r | reflexivity].
  - intros st w'. exists []. split; [simpl; now rewrite app_nil_r | reflexivity].
  - intros rs. apply fetchContents_unlimited.
  - intros n k s1 s2 H. exact H.
Qed.

End Unlimited.

Lemma suspend_total (st st' : State W) r :
  suspend env st = Some (r, st') ->
  totalJinaRequests st' = totalJinaRequests st
  \/ totalJinaRequests st' = 0%Z.
Proof.
  unfold suspend. destruct (intervalElapsed env (world st)) as [[|] w'];
    intros H; inversion H; simpl; auto.
Qed.

Lemma fetchContents_capped rs n :
  runs (capped env) n (fetchContents env rs).
Proof.
  intros st.
  destruct (@fetchContents_allowed W env (fun _ _ => capped env 0)
              (fun _ => 0) 0) with (rs := rs) (st := st)
    as (contents & st' & E & C); unfold capped.
  - intros a s. lia.
  - intros a b c s1 s2 s3 H1 H2. lia.
  - intros a b f s s' H. exact H.
  - intros a s w'. simpl. lia.
  - intros u p s ph s' H. apply resume_outcome in H.
    destruct H as (t & evs & Ht & _ & _ & H).
    assert (Hc : (totalJinaRequests s' = t
                  \/ (t < contentFetch env
                      /\ totalJinaRequests s' = t + 1))%Z).
    { destruct H as [(_ & -> & _)
        | [(k & _ & _ & -> & _)
        | [(k & a & _ & Hlt & -> & _)
        | [(k & a & _ & Hlt & -> & _)
        | [(k & a & _ & -> & _)
        | [(k & _ & -> & _)
        | (k & data & _ & -> & _)]]]]]]; auto. }
    destruct Ht as [-> | ->]; lia.
  - intros s. simpl. lia.
  - exists (Ok contents), st'. split; [exact E | exact C].
Qed.

Lemma POST_capped request : runs (capped env) 0 (POST env request).
Proof.
  apply (@POST_runs_any W env (fun _ => 0)); unfold capped.
  - intros st. lia.
  - intros n k s1 s2 s3 H1 H2. lia.
  - intros n k s1 s2 _ H. exact H.
  - intros ev st _ _. simpl. lia.
  - intros st st' H. apply suspend_total in H. lia.
  - intros st w'. simpl. lia.
  - intros rs. apply fetchContents_capped.
  - intros n k s1 s2 H. exact H.
Qed.

Section Metered.
Hypothesis no_reset : forall w, fst (intervalElapsed env w) = false.

Lemma suspend_no_reset (st st' : State W) r :
  suspend env st = Some (r, st') ->
  totalJinaRequests st' = totalJinaRequests st /\ trace st' = trace st.
Proof.
  unfold suspend. pose proof (no_reset (world st)) as H.
  destruct (intervalElapsed env (world st)) as [f w']. simpl in H. subst f.
  intros E. inversion E. simpl. auto.
Qed.

(** A turn of a fetch sends a request to the content extractor only when
    the fetch was counted, in this turn or in the one before. *)
Lemma resume_pays u p (st : State W) ph st' :
  resume env u p st = Some (Ok ph, st') ->
  pays env (prepaid p)
    match ph with
    | Pending p' => prepaid p'
    | Settled _ => 0
    end
    st st'.
Proof.
  intros H. apply resume_outcome in H.
  destruct H as (t & evs & _ & Ht & T & H). specialize (Ht no_reset).
  subst t. exists evs. split; [exact T|].
  destruct H as [(-> & E & -> & ->)
    | [(k & -> & _ & E & -> & ->)
    | [(k & a & -> & Hlt & E & _ & -> & ->)
    | [(k & a & -> & Hlt & E & _ & -> & ->)
    | [(k & a & -> & E & -> & ->)
    | [(k & Hp & E & [(-> & ->) | (-> & e & ->)])
    | (k & data & -> & E & -> & ->)]]]]]];
    try (destruct Hp as [(a & -> & _) | (e' & ->)]);
    rewrite E; try (destruct a as [[|]|]);
    unfold count, weight, prepaid; simpl; lia.
Qed.

Lemma fetchContents_metered rs n :
  runs (metered env) n (fetchContents env rs).
Proof.
  intros st.
  destruct (@fetchContents_allowed W env (pays env) prepaid 0)
    with (rs := rs) (st := st)
    as (contents & st' & E & evs & T & C & B).
  - intros a s. exists []. split; [now rewrite app_nil_r|].
    unfold count, weight. simpl. lia.
  - intros a b c s1 s2 s3 (e1 & T1 & C1 & B1) (e2 & T2 & C2 & B2).
    exists (e1 ++ e2). split; [now rewrite T2, T1, app_assoc|].
    rewrite count_app. lia.
  - intros a b f s s' (e & T & C & B). exists e. split; [exact T | lia].
  - intros a s w'. exists []. split; [simpl; now rewrite app_nil_r|].
    unfold count, weight. simpl. lia.
  - intros u p s ph s'. apply resume_pays.
  - intros s. exists [EvDelay]. split; [reflexivity|].
    unfold count, weight, prepaid. simpl. lia.
  - exists (Ok contents), st'. split; [exact E|].
    exists evs. split; [exact T|]. rewrite Nat.mul_0_r in C. lia.
Qed.

Lemma deepResearch_metered q b d L U :
  runs (metered env) 0 (deepResearch env (levels d) q b d L U).
Proof.
  apply (@deepResearch_runs_any W env (fun _ => 0)); unfold metered.
  - intros st. exists []. split; [now rewrite app_nil_r|].
    unfold count, weight. simpl. lia.
  - intros n k s1 s2 s3 (e1 & T1 & C1 & B1) (e2 & T2 & C2 & B2).
    exists (e1 ++ e2). split; [now rewrite T2, T1, app_assoc|].
    rewrite count_app. lia.
  - intros n k s1 s2 _ H. exact H.
  - intros ev st Hf _. exists [ev]. split; [reflexivity|].
    destruct ev as [ | [|] k | | | | | | ]; try discriminate Hf;
      unfold count, weight; simpl; lia.
  - intros st st' H. apply suspend_no_reset in H. destruct H as (Ht & Tr).
    exists []. split; [now rewrite app_nil_r|].
    unfold count, weight. simpl. lia.
  - intros st w'. exists []. split; [simpl; now rewrite app_nil_r|].
    unfold count, weight. simpl. lia.
  - intros rs. apply fetchContents_metered.
  - intros n k s1 s2 H. exact H.
  - apply Nat.le_refl.
Qed.

End Metered.

End Gradings_of_state.

(** ** The answers of the handler *)

Section Answers.
Variable W : Type.
Variable env : Env W.

(** The handler always answers, in one of five ways. *)
Lemma POST_cases request (st : State W) :
  exists resp st',
    POST env request st = Some (Ok resp, st')
    /\ (resp = {| status := 400;
                  body := ErrorPayload (lit "Invalid request") |}
        \/ (resp = {| status := 400;
                      body := ErrorPayload (lit "Query parameter is required") |}
            /\ st' = st)
        \/ (resp = {| status := 429;
                      body := ErrorPayload (lit "Too many requests") |}
            /\ rateLimitsEnabled env = true)
        \/ resp = {| status := 500;
                     body := ErrorPayload (lit "Failed to perform deep search") |}
        \/ (exists rq st1 r st2 pages,
               request = Some rq
               /\ deepResearch env (levels (depthOf rq)) (rq_query rq)
                    (breadthOf rq) (depthOf rq) [] [] st1
                  = Some (Ok r, st2)
               /\ length pages = length (visitedUrls r)
               /\ resp = {| status := 200;
                            body := ResultPayload pages (learnings r)
                                      (errors r) |})).
Proof.
  destruct request as [rq|].
  2: { eexists _, _. split; [reflexivity|]. auto. }
  unfold POST. cbv zeta.
  destruct (rq_query rq) as [|c query] eqn:Eq.
  { eexists _, _. split; [reflexivity|]. auto. }
  unfold tryCatch at 1. unfold bind at 1.
  assert (Hallowed :
            exists r st1, allowed env (c :: query) st = Some (r, st1)
                          /\ (r = Ok false -> rateLimitsEnabled env = true)).
  { unfold allowed. destruct (rateLimitsEnabled env).
    - destruct (@finishes_await W env bool (fun _ => True)
                  (EvLimit SearchLimiter (c :: query))
                  (searchRatelimit env (c :: query)) I st)
        as (r & st1 & E & _).
      exists r, st1. auto.
    - eexists _, _. split; [reflexivity|]. discriminate. }
  destruct Hallowed as (r0 & st1 & E0 & Hen). rewrite E0.
  destruct r0 as [success|e].
  2: { eexists _, _. split; [reflexivity|]. auto. }
  destruct success; cbn [negb]; cbv beta.
  2: { eexists _, _. split; [reflexivity|]. right. right. left. auto. }
  unfold tryCatch at 1. unfold bind at 1.
  destruct (@deepResearch_finishes W env (levels (depthOf rq))
              (c :: query) (breadthOf rq) (depthOf rq) [] []
              (Nat.le_refl _) st1) as (r1 & st2 & E1 & _).
  rewrite E1. destruct r1 as [r|e].
  - destruct (webPagesFrom_returns env 0 (learnings r) (visitedUrls r) st2)
      as (pages & st3 & E2 & Hlen).
    unfold bind. rewrite E2. eexists _, _. split; [reflexivity|].
    right. right. right. right.
    exists rq, st1, r, st2, pages. rewrite Eq. auto.
  - eexists _, _. split; [reflexivity|]. auto.
Qed.

End Answers.

(** ** What a run costs *)




(** With the defaults of the handler, breadth 4 and depth 2: at most 5
    invocations and 12 sub-queries, so at most 17 requests to the language
    model, 36 searches and 120 requests to the content extractor. *)
Example default_request_work :
  Account.maxInvocations (levels 2) 4 = 5
  /\ Account.maxSubQueries (levels 2) 4 = 12.
Proof. split; reflexivity. Qed.

(** ** The handler *)


(** X3.  With rate limiting switched off, as it is in the configuration
    that is shipped, no rate limiter is consulted while a request is
    handled, neither by the handler nor by a search nor by a content
    fetch, and no request is answered with status 429. *)
Theorem rate_limiters_unused_when_disabled
    (W : Type) (env : Env W) (request : option DeepSearchRequest)
    (st : State W) :
  rateLimitsEnabled env = false ->
  exists resp st' evs,
    POST env request st = Some (Ok resp, st')
    /\ trace st' = trace st ++ evs
    /\ Account.count Account.KLimit evs = 0
    /\ status resp <> 429%Z.
Proof.
  intros Hoff.
  destruct (POST_cases env request st) as (resp & st' & E & H).
  destruct (@POST_unlimited W env Hoff request st)
    as (r & st'' & E' & evs & T & C).
  rewrite E in E'. inversion E'; subst.
  exists resp, st'', evs. repeat split; try assumption.
  destruct H as [-> | [(-> & _) | [(-> & Hon) | [-> | H]]]];
    try discriminate; [congruence|].
  destruct H as (rq & st1 & r & st2 & pages & _ & _ & _ & ->). discriminate.
Qed.

Lemma rate_limiters_unused_when_disabled_witness :
  Config.rateLimits_enabled Config.CONFIG = false
  /\ exists resp st' evs,
       POST (Config.configured Config.CONFIG Scenario.healthy)
            (Some Scenario.shallowRequest) (Scenario.start 0)
       = Some (Ok resp, st')
       /\ trace st' = trace (Scenario.start 0) ++ evs
       /\ Account.count Account.KLimit evs = 0
       /\ status resp <> 429%Z.
Proof.
  split; [reflexivity|].
  apply (@rate_limiters_unused_when_disabled unit
           (Config.configured Config.CONFIG Scenario.healthy)
           (Some Scenario.shallowRequest) (Scenario.start 0)).
  reflexivity.
Defined.

(** ** The global budget of content fetches *)

(** X4.  Handling a request never leaves the counter of content fetches
    above the configured budget: after the handler has answered, the
    counter is at most the budget, or at most what it was before if that
    was more (and at most 0 for a budget below 0).  This holds whether or
    not the counter is reset on the way. *)
Theorem counter_stays_within_budget
    (W : Type) (env : Env W) (request : option DeepSearchRequest)
    (st : State W) :
  exists resp st',
    POST env request st = Some (Ok resp, st')
    /\ (totalJinaRequests st'
        <= Z.max (totalJinaRequests st) (Z.max 0 (contentFetch env)))%Z.
Proof.
  destruct (POST_cases env request st) as (resp & st' & E & _).
  destruct (POST_capped env request st) as (r & st'' & E' & C).
  rewrite E in E'. inversion E'; subst.
  exists resp, st''. split; assumption.
Qed.

(** X5.  As long as the counter is not reset, a call of [deepResearch]
    sends at most as many requests to the content extractor as the budget
    has left, [contentFetch - totalJinaRequests], and none when the budget
    is used up; this holds whatever the breadth and the depth, and however
    many sub-queries fetch pages. *)
Theorem content_requests_within_budget
    (W : Type) (env : Env W) (q : str) (b d : Z) (L U : list str)
    (st : State W) :
  (forall w, fst (intervalElapsed env w) = false) ->
  exists r st' evs,
    deepResearch env (levels d) q b d L U st = Some (r, st')
    /\ trace st' = trace st ++ evs
    /\ (Z.of_nat (Account.count Account.KHttpGet evs)
        <= Z.max 0 (contentFetch env - totalJinaRequests st))%Z.
Proof.
  intros Hno.
  destruct (@deepResearch_metered W env Hno q b d L U st)
    as (r & st' & E & evs & T & C & B).
  exists r, st', evs. repeat split; try assumption. lia.
Qed.

Lemma content_requests_within_budget_witness :
  (forall w, fst (intervalElapsed Scenario.healthy w) = false)
  /\ exists r st' evs,
       deepResearch Scenario.healthy (levels 2) Scenario.topic 4%Z 2%Z [] []
                    (Scenario.start 17) = Some (r, st')
       /\ trace st' = trace (Scenario.start 17) ++ evs
       /\ (Z.of_nat (Account.count Account.KHttpGet evs) <= 3)%Z.
Proof.
  split; [reflexivity|].
  apply (@content_requests_within_budget unit Scenario.healthy
           Scenario.topic 4%Z 2%Z [] [] (Scenario.start 17)).
  reflexivity.
Defined.

(** ** How [deepResearch] fails *)

Section Failures.
Variable W : Type.
Variable env : Env W.



End Failures.


(** ** The summary of a sub-query *)

(** X7.  [processSerpResult], called with counts that are not negative,
    comes to an end.  When it returns, its learnings are read off the
    first [numLearnings] elements of the [learnings] array of the JSON
    object found in the answer of the model, its follow-up questions off
    the first [numFollowUpQuestions] elements of the [followUpQuestions]
    array, in their order, so there are at most that many of each.  When
    it throws, either the request to the model threw, and the error is
    that one, or the error is Failed to process search results. *)
Theorem processSerpResult_returns_prefixes
    (W : Type) (env : Env W) (q : str) (data : list Content) (n m : Z)
    (st : State W) :
  (0 <= n)%Z ->
  (0 <= m)%Z ->
  exists r st',
    processSerpResult env q data n m st = Some (r, st')
    /\ let prompt := serpResultPrompt q (compact (map markdown data)) n m in
       match r with
       | Ok pr =>
         (Z.of_nat (length (pr_learnings pr)) <= n)%Z
         /\ (Z.of_nat (length (followUpQuestions pr)) <= m)%Z
         /\ exists response w' jsonStr parsed ls fs,
              generateContent env prompt (world st) = (Ok response, w')
              /\ Extract.jsonOf response = Some jsonStr
              /\ Json.parse jsonStr = Some parsed
              /\ Json.get parsed (lit "learnings") = Some (JArray ls)
              /\ Json.get parsed (lit "followUpQuestions") = Some (JArray fs)
              /\ pr_learnings pr
                 = map (readString env) (firstn (Z.to_nat n) ls)
              /\ followUpQuestions pr
                 = map (readString env) (firstn (Z.to_nat m) fs)
       | Throw e =>
         e = Error (lit "Failed to process search results")
         \/ exists w', generateContent env prompt (world st) = (Throw e, w')
       end.
Proof.
  intros Hn Hm.
  destruct (@processSerpResult_finishes W env (fun _ _ => True) q data n m st)
    as (r & st' & E & _).
  exists r, st'. split; [exact E|]. cbv zeta.
  unfold processSerpResult in E. unfold bind at 1 in E.
  unfold emit at 1 in E. cbv zeta in E.
  set (prompt := serpResultPrompt q (compact (map markdown data)) n m) in *.
  unfold bind, await, bind, emit in E. simpl in E.
  destruct (generateContent env prompt (world st)) as [[response|e0] w'] eqn:Eg;
    simpl in E;
    match type of E with
    | context [suspend env ?s] =>
      destruct (suspend env s) as [[r' s']|] eqn:Es; [|discriminate]
    end.
  - unfold parseLearnings in E.
    destruct (Extract.jsonOf response) as [jsonStr|] eqn:Ej.
    2: { inversion E; subst. now left. }
    destruct (parse jsonStr) as [parsed|] eqn:Ep.
    2: { inversion E; subst. now left. }
    destruct (get parsed (lit "learnings")) as [[ | | | |ls| ]|] eqn:El;
      try (inversion E; subst; now left).
    destruct (get parsed (lit "followUpQuestions")) as [[ | | | |fs| ]|]
      eqn:Ef; try (inversion E; subst; now left).
    inversion E; subst. simpl.
    rewrite !slice0_firstn by assumption.
    rewrite !length_map, !length_firstn.
    split; [lia|]. split; [lia|].
    exists response, w', jsonStr, parsed, ls, fs. auto 10.
  - inversion E; subst. right. now exists w'.
Qed.

Lemma processSerpResult_returns_prefixes_witness :
  (0 <= 3)%Z /\ (0 <= 2)%Z
  /\ exists r st',
       processSerpResult Scenario.healthy Scenario.topic [] 3%Z 2%Z
                         (Scenario.start 0) = Some (r, st').
Proof.
  split; [lia|]. split; [lia|].
  destruct (@processSerpResult_returns_prefixes unit Scenario.healthy
              Scenario.topic [] 3%Z 2%Z (Scenario.start 0)
              ltac:(lia) ltac:(lia)) as (r & st' & E & _).
  now exists r, st'.
Defined.

(** ** Extracting the JSON text *)

Lemma lazyBody_spec (s g : str) :
  Extract.lazyBody s = Some g ->
  exists body post, g = body ++ [RBRACE] /\ s = g ++ post.
Proof.
  revert g. induction s as [|c s IH]; intros g; cbn [Extract.lazyBody];
    [discriminate|].
  destruct ((c =? RBRACE)%N
            && startsWith (lit "```") (dropWhile isSpace s)) eqn:E.
  - intros H. inversion H; subst.
    apply andb_prop in E. destruct E as (Ec & _).
    apply N.eqb_eq in Ec. subst c. now exists [], s.
  - destruct (Extract.lazyBody s) as [g'|]; [|discriminate].
    intros H. inversion H; subst.
    destruct (IH g' eq_refl) as (body & post & -> & ->).
    exists (c :: body), post. split; [reflexivity|].
    simpl. now rewrite <- app_assoc.
Qed.

Lemma dropWhile_suffix (f : char -> bool) (s : str) :
  exists pre, s = pre ++ dropWhile f s.
Proof.
  induction s as [|c s (pre & IH)]; simpl.
  - now exists [].
  - destruct (f c).
    + exists (c :: pre). simpl. now rewrite <- IH.
    + now exists [].
Qed.

Lemma groupAfterSpace_spec (s g : str) :
  Extract.groupAfterSpace s = Some g ->
  exists pre body post,
    g = LBRACE :: body ++ [RBRACE] /\ s = pre ++ g ++ post.
Proof.
  unfold Extract.groupAfterSpace.
  destruct (dropWhile_suffix isSpace s) as (pre & Hs).
  destruct (dropWhile isSpace s) as [|c rest]; [discriminate|].
  destruct (c =? LBRACE)%N eqn:Ec; [|discriminate].
  apply N.eqb_eq in Ec. subst c.
  destruct (Extract.lazyBody rest) as [b|] eqn:El; [|discriminate].
  intros H. injection H as <-.
  destruct (lazyBody_spec _ El) as (body & post & -> & Hr).
  exists pre, body, post. split; [reflexivity|].
  rewrite Hs. rewrite Hr. reflexivity.
Qed.

Lemma skipn_suffix {A} n (s : list A) :
  exists pre, s = pre ++ skipn n s.
Proof. exists (firstn n s). symmetry. apply firstn_skipn. Qed.

Lemma fencedAt_spec (s g : str) :
  Extract.fencedAt s = Some g ->
  exists pre body post,
    g = LBRACE :: body ++ [RBRACE] /\ s = pre ++ g ++ post.
Proof.
  unfold Extract.fencedAt.
  destruct (startsWith (lit "```") s); [|discriminate].
  destruct (skipn_suffix 3 s) as (p3 & H3).
  destruct (skipn_suffix 4 (skipn 3 s)) as (p4 & H4).
  assert (Hgroup : forall t p,
             s = p ++ t ->
             Extract.groupAfterSpace t = Some g ->
             exists pre body post,
               g = LBRACE :: body ++ [RBRACE] /\ s = pre ++ g ++ post).
  { intros t p Hp Hg.
    destruct (groupAfterSpace_spec _ Hg) as (pre & body & post & Eg & Et).
    exists (p ++ pre), body, post. split; [assumption|].
    rewrite Hp, Et. now rewrite <- app_assoc. }
  cbv zeta. destruct (startsWith (lit "json") (skipn 3 s)).
  - destruct (Extract.groupAfterSpace (skipn 4 (skipn 3 s))) as [g'|] eqn:E4.
    + intros H. injection H as <-.
      apply (Hgroup (skipn 4 (skipn 3 s)) (p3 ++ p4)); [|exact E4].
      rewrite <- app_assoc, <- H4. exact H3.
    + intros H. now apply (Hgroup (skipn 3 s) p3 H3).
  - intros H. now apply (Hgroup (skipn 3 s) p3 H3).
Qed.

Lemma matchFenced_spec (s g : str) :
  Extract.matchFenced s = Some g ->
  exists pre body post,
    g = LBRACE :: body ++ [RBRACE] /\ s = pre ++ g ++ post.
Proof.
  induction s as [|c s IH].
  - discriminate.
  - cbn [Extract.matchFenced].
    destruct (Extract.fencedAt (c :: s)) as [g'|] eqn:E.
    + intros H. injection H as <-. now apply fencedAt_spec.
    + intros H. destruct (IH H) as (pre & body & post & Eg & Es).
      exists (c :: pre), body, post. split; [assumption|].
      simpl. now rewrite Es.
Qed.

Lemma dropWhile_split (f : char -> bool) (s : str) :
  exists pre,
    s = pre ++ dropWhile f s
    /\ Forall (fun c => f c = true) pre
    /\ match dropWhile f s with
       | [] => True
       | c :: _ => f c = false
       end.
Proof.
  induction s as [|c s (pre & Hs & Hp & Hd)]; simpl.
  - exists []. repeat split; constructor.
  - destruct (f c) eqn:E.
    + exists (c :: pre). simpl. rewrite <- Hs.
      repeat split; [constructor; assumption | assumption].
    + exists []. repeat split; [constructor | assumption].
Qed.

Lemma first_occurrence (x : char) (pre body p rest : str) :
  ~ In x pre ->
  pre ++ x :: body = p ++ x :: rest ->
  exists k, body = k ++ rest.
Proof.
  revert p. induction pre as [|y pre IH]; intros p Hnot E.
  - destruct p as [|z p]; simpl in E.
    + injection E as ->. now exists [].
    + injection E as <- ->. exists (p ++ [x]).
      now rewrite <- app_assoc.
  - destruct p as [|z p]; simpl in E.
    + injection E as -> _. exfalso. apply Hnot. now left.
    + injection E as _ E.
      apply (IH p (fun H => Hnot (or_intror H)) E).
Qed.

(** The second pattern: from the first opening brace of the text to the
    last closing brace after it. *)
Lemma matchBraces_spec (s : str) :
  match Extract.matchBraces s with
  | Some g =>
    exists pre body post,
      g = LBRACE :: body ++ [RBRACE]
      /\ s = pre ++ g ++ post
      /\ ~ In LBRACE pre
      /\ ~ In RBRACE post
  | None =>
    forall pre mid post, s <> pre ++ LBRACE :: mid ++ RBRACE :: post
  end.
Proof.
  unfold Extract.matchBraces.
  destruct (dropWhile_split (fun c => negb (c =? LBRACE)%N) s)
    as (pre & Hs & Hpre & Hhd).
  assert (Hnot : ~ In LBRACE pre).
  { intros Hin. rewrite Forall_forall in Hpre. apply Hpre in Hin.
    now rewrite N.eqb_refl in Hin. }
  destruct (dropWhile (fun c => negb (c =? LBRACE)%N) s) as [|c body].
  { rewrite app_nil_r in Hs. subst pre.
    intros p m q E. apply Hnot. rewrite E.
    apply in_or_app. right. now left. }
  apply negb_false_iff, N.eqb_eq in Hhd. subst c.
  destruct (dropWhile_split (fun c => negb (c =? RBRACE)%N) (rev body))
    as (tl & Hb & Htl & Hhd).
  assert (Hnot' : ~ In RBRACE (rev tl)).
  { intros Hin. apply in_rev in Hin.
    rewrite Forall_forall in Htl. apply Htl in Hin.
    now rewrite N.eqb_refl in Hin. }
  assert (Hbody : body = rev (dropWhile (fun c => negb (c =? RBRACE)%N)
                                 (rev body)) ++ rev tl).
  { rewrite <- rev_app_distr, <- Hb. now rewrite rev_involutive. }
  destruct (dropWhile (fun c => negb (c =? RBRACE)%N) (rev body))
    as [|c r].
  - simpl in Hbody. intros p m q E.
    assert (Hin : In RBRACE body).
    { rewrite Hs in E.
      destruct (first_occurrence _ _ _ _ _ Hnot E) as (k & ->).
      apply in_or_app. right. apply in_or_app. right. now left. }
    rewrite Hbody in Hin. now apply Hnot'.
  - apply negb_false_iff, N.eqb_eq in Hhd. subst c.
    exists pre, (rev r), (rev tl). simpl in Hbody.
    split; [reflexivity|]. split; [|split; assumption].
    rewrite Hs at 1. rewrite Hbody at 1. simpl.
    now rewrite <- !app_assoc.
Qed.

(** X8.  The JSON text taken from an answer of the model, when there is
    one, is a contiguous part of the answer that begins with an opening
    brace and ends with a closing brace; and there is none exactly when the
    answer has no opening brace with a closing brace somewhere after it. *)
Theorem jsonOf_is_a_braced_part (response : str) :
  match Extract.jsonOf response with
  | Some jsonStr =>
    exists pre body post,
      jsonStr = LBRACE :: body ++ [RBRACE]
      /\ response = pre ++ jsonStr ++ post
  | None =>
    forall pre mid post, response <> pre ++ LBRACE :: mid ++ RBRACE :: post
  end.
Proof.
  unfold Extract.jsonOf.
  destruct (Extract.matchFenced response) as [g|] eqn:Ef.
  - now apply matchFenced_spec.
  - pose proof (matchBraces_spec response) as H.
    destruct (Extract.matchBraces response) as [g|]; [|exact H].
    destruct H as (pre & body & post & Eg & Es & _).
    now exists pre, body, post.
Qed.

(** ** What the repair returns *)

Lemma startsWithOpener_app (s t : str) :
  startsWithOpener s = true -> startsWithOpener (s ++ t) = true.
Proof. destruct s; simpl; [discriminate | trivial]. Qed.

Lemma cleanJson_wrapped (s : str) :
  startsWithOpener (cleanJson s) = true
  /\ endsWithCloser (cleanJson s) = true.
Proof.
  unfold cleanJson. cbv zeta.
  set (c := cleanChain s).
  assert (H1 : startsWithOpener
                 (if negb (startsWithOpener c) then LBRACE :: c else c)
               = true).
  { destruct (startsWithOpener c) eqn:E; simpl; [exact E | reflexivity]. }
  set (c1 := if negb (startsWithOpener c) then LBRACE :: c else c) in *.
  destruct (endsWithCloser c1) eqn:E; simpl.
  - split; assumption.
  - split; [now apply startsWithOpener_app|].
    unfold endsWithCloser. rewrite rev_app_distr. reflexivity.
Qed.

(** A text that begins with a brace or a bracket parses, if at all, to
    an object or an array. *)
Lemma parse_opener (s : str) (v : value) :
  startsWithOpener s = true ->
  parse s = Some v ->
  (exists ms, v = JObject ms) \/ (exists xs, v = JArray xs).
Proof.
  unfold parse. destruct s as [|c rest]; [discriminate|].
  intros Ho. cbn [length parseValue].
  assert (Hws : skipWs (c :: rest) = c :: rest).
  { unfold skipWs. simpl in *.
    apply orb_prop in Ho. destruct Ho as [Ho|Ho];
      apply N.eqb_eq in Ho; subst c; reflexivity. }
  rewrite Hws. simpl in Ho.
  destruct (c =? LBRACE)%N eqn:Eb.
  - destruct (skipWs rest) as [|d rest']; [discriminate|].
    destruct (d =? RBRACE)%N.
    + destruct (skipWs rest'); intros H; inversion H; eauto.
    + destruct (parseMembers _ _) as [[ms r]|]; [|discriminate].
      destruct (skipWs r); intros H; inversion H; eauto.
  - rewrite orb_false_r in Ho. rewrite Ho.
    destruct (skipWs rest) as [|d rest']; [discriminate|].
    destruct (d =? RBRACKET)%N.
    + destruct (skipWs rest'); intros H; inversion H; eauto.
    + destruct (parseElements _ _) as [[vs r]|]; [|discriminate].
      destruct (skipWs r); intros H; inversion H; eauto.
Qed.

(** X9.  The text handed to the parser after a repair pass always begins
    with an opening brace or bracket and ends with a closing one, whatever
    the text was.  So what [retryJsonParse] returns is the value of the
    text as it was given, or else an object or an array: a repaired text
    never yields a number, a string, a boolean or null. *)
Theorem repaired_text_is_wrapped (s : str) :
  startsWithOpener (cleanJson s) = true
  /\ endsWithCloser (cleanJson s) = true
  /\ forall v,
       retryJsonParse s = Parsed v ->
       parse s = Some v
       \/ (exists ms, v = JObject ms)
       \/ (exists xs, v = JArray xs).
Proof.
  split; [apply cleanJson_wrapped|]. split; [apply cleanJson_wrapped|].
  intros v. unfold retryJsonParse, MAX_RETRIES.
  cbn [retryJsonParseFrom].
  destruct (parse s) as [v0|] eqn:E0.
  { intros H. inversion H; subst. now left. }
  destruct (parse (cleanJson s)) as [v1|] eqn:E1.
  { intros H. inversion H; subst. right.
    eapply parse_opener; [apply cleanJson_wrapped | exact E1]. }
  destruct (parse (cleanJson (cleanJson s))) as [v2|] eqn:E2.
  { intros H. inversion H; subst. right.
    eapply parse_opener; [apply cleanJson_wrapped | exact E2]. }
  discriminate.
Qed.

(** X10.  On a text that contains a double quote the repair never
    helps: [retryJsonParse] returns the value of the text when the text is
    valid JSON as it stands, and fails otherwise, after two passes that
    cannot succeed.  The passes put a backslash before every quote, those
    around keys and strings included, and no JSON text begins its first
    string with a backslash. *)
Theorem repair_never_rescues_quoted_text (s : str) :
  In QUOTE s ->
  retryJsonParse s
  = match parse s with
    | Some v => Parsed v
    | None => Failed failureMessage
    end
  /\ (parse s = None ->
      parse (cleanJson s) = None
      /\ parse (cleanJson (cleanJson s)) = None).
Proof.
  intros Hq. split.
  - destruct (parse s) as [v|] eqn:E.
    + unfold retryJsonParse, MAX_RETRIES. cbn [retryJsonParseFrom].
      now rewrite E.
    + now apply retryJsonParse_fails_on_quoted_text.
  - intros _. split.
    + now apply cleanJson_is_not_json.
    + apply cleanJson_is_not_json. now apply cleanJson_In.
Qed.

Lemma repair_never_rescues_quoted_text_witness :
  In QUOTE Scenario.damagedText
  /\ retryJsonParse Scenario.damagedText = Failed failureMessage.
Proof.
  assert (Hq : In QUOTE Scenario.damagedText).
  { unfold Scenario.damagedText. simpl. right. now left. }
  split; [exact Hq|].
  destruct (repair_never_rescues_quoted_text Scenario.damagedText Hq)
    as (E & _).
  rewrite E. vm_compute. reflexivity.
Defined.

(** ** Retries that succeed *)

(** X11.  A search whose first attempts are refused as rate-limited is
    tried again, and the result of the first attempt that succeeds is the
    result of the wrapper, provided that attempt is among the first three;
    likewise for a content fetch and its two attempts.  Nothing else is
    done after the successful attempt. *)
Theorem retry_returns_first_success
    (W : Type) (env : Env W) (q u : str) :
  (forall es st st1 rs st2,
      (length es < 3)%nat ->
      rateLimited env (safeDuckDuckSearch env q) es st st1 ->
      safeDuckDuckSearch env q st1 = Some (Ok rs, st2) ->
      executeDuckDuckSearchWithRetry env q st = Some (Ok rs, st2))
  /\ (forall es st st0 st1 md st2,
        (length es < 2)%nat ->
        delay env st = Some (Ok tt, st0) ->
        rateLimited env (fetchJinaContent env u) es st0 st1 ->
        fetchJinaContent env u st1 = Some (Ok md, st2) ->
        fetchJinaContentWithRetry env u st = Some (Ok md, st2)).
Proof.
  split.
  - intros es st st1 rs st2 Hlen Hes Hop.
    unfold executeDuckDuckSearchWithRetry. rewrite searchLoop_retryLoop.
    unfold searchMaxRetries.
    replace 3%nat with (length es + S (2 - length es))%nat by lia.
    eapply retryLoop_success; eassumption.
  - intros es st st0 st1 md st2 Hlen Hd Hes Hop.
    unfold fetchJinaContentWithRetry. erewrite bind_eq by eassumption.
    rewrite fetchLoop_retryLoop. unfold fetchMaxRetries.
    replace 2%nat with (length es + S (1 - length es))%nat by lia.
    eapply retryLoop_success; eassumption.
Qed.

Lemma retry_returns_first_success_witness :
  exists st1 rs st2,
    rateLimited Recovering.world
      (safeDuckDuckSearch Recovering.world Scenario.topic)
      [searchRateLimitExceeded; searchRateLimitExceeded]
      (Recovering.start 2) st1
    /\ safeDuckDuckSearch Recovering.world Scenario.topic st1
       = Some (Ok rs, st2)
    /\ executeDuckDuckSearchWithRetry Recovering.world Scenario.topic
         (Recovering.start 2)
       = Some (Ok rs, st2).
Proof.
  destruct (@retry_returns_first_success nat Recovering.world
              Scenario.topic Scenario.topic) as (Hsearch & _).
  assert (Hes : exists st1,
             rateLimited Recovering.world
               (safeDuckDuckSearch Recovering.world Scenario.topic)
               [searchRateLimitExceeded; searchRateLimitExceeded]
               (Recovering.start 2) st1).
  { eexists.
    eapply limited_cons;
      [vm_compute; reflexivity | vm_compute; reflexivity
      | vm_compute; reflexivity |].
    eapply limited_cons;
      [vm_compute; reflexivity | vm_compute; reflexivity
      | vm_compute; reflexivity |].
    apply limited_nil. }
  destruct Hes as (st1 & Hes).
  assert (Hop : exists rs st2,
             safeDuckDuckSearch Recovering.world Scenario.topic st1
             = Some (Ok rs, st2)).
  { inversion Hes as [|e es s s1 s2 s3 H1 _ H2 Hes']; subst.
    vm_compute in H1. inversion H1; subst. clear H1.
    vm_compute in H2. inversion H2; subst. clear H2.
    inversion Hes' as [|e es s s1 s2 s3 H1 _ H2 Hes'']; subst.
    vm_compute in H1. inversion H1; subst. clear H1.
    vm_compute in H2. inversion H2; subst. clear H2.
    inversion Hes''; subst.
    eexists. eexists. vm_compute. reflexivity. }
  destruct Hop as (rs & st2 & Hop).
  exists st1, rs, st2. split; [exact Hes|]. split; [exact Hop|].
  apply (Hsearch [searchRateLimitExceeded; searchRateLimitExceeded]
           (Recovering.start 2) st1);
    [simpl; lia | exact Hes | exact Hop].
Defined.

(** ** The pages of the answer *)

Section Pages.
Variable W : Type.
Variable env : Env W.

Lemma webPagesFrom_pages index L U (st : State W) :
  exists pages st',
    webPagesFrom env index L U st = Some (Ok pages, st')
    /\ trace st' = trace st
    /\ totalJinaRequests st' = totalJinaRequests st
    /\ map wp_url pages = U
    /\ map name pages = U
    /\ map snippet pages = map (snippetOf L) (seq index (length U))
    /\ Forall2
         (fun i p =>
            exists t,
              id p = lit "deep-" ++ ofZ t ++ lit "-" ++ ofZ (Z.of_nat i))
         (seq index (length U)) pages.
Proof.
  revert index st. induction U as [|u U IH]; intros index st; simpl.
  - exists [], st. repeat split; constructor.
  - unfold bind at 1. unfold now at 1.
    destruct (dateNow env (world st)) as [t w].
    match goal with
    | |- context [bind (webPagesFrom env (S index) L U) _ ?s] =>
      destruct (IH (S index) s) as (pages & st' & E & T & C & Hu & Hn & Hs & F)
    end.
    unfold bind. rewrite E. eexists _, _. split; [reflexivity|].
    simpl in *. rewrite Hu, Hn, Hs.
    repeat split; try assumption.
    constructor; [now exists t | assumption].
Qed.

End Pages.

(** X12.  The pages of an answer are made from the visited URLs alone,
    one page per URL and in their order, each with the URL as its address
    and as its name and with an identifier that ends with its index.  The
    snippet of the page at index [i] is the learning at index [i] when
    there is one and it is not empty, and the text No learning available
    otherwise: learnings are paired with pages by position, pages beyond
    the learnings get the placeholder, and learnings beyond the pages are
    in no snippet.  Making the pages changes neither the trace nor the
    counter. *)
Theorem pages_pair_urls_with_learnings_by_index
    (W : Type) (env : Env W) (L U : list str) (st : State W) :
  exists pages st',
    webPagesFrom env 0 L U st = Some (Ok pages, st')
    /\ trace st' = trace st
    /\ totalJinaRequests st' = totalJinaRequests st
    /\ map wp_url pages = U
    /\ map name pages = U
    /\ map snippet pages
       = map (fun i =>
                match nth_error L i with
                | Some (c :: s) => c :: s
                | _ => lit "No learning available"
                end)
             (seq 0 (length U))
    /\ Forall2
         (fun i p =>
            exists t,
              id p = lit "deep-" ++ ofZ t ++ lit "-" ++ ofZ (Z.of_nat i))
         (seq 0 (length U)) pages.
Proof. apply webPagesFrom_pages. Qed.

(** * The report routes *)

(** ** The monad of the report routes *)

Section Service_lemmas.
Variable W : Type.

Lemma state_eta (st : Service.State W) :
  {| Service.world := Service.world st; Service.calls := Service.calls st |}
  = st.
Proof. now destruct st. Qed.

(** The pauses of [retryJsonParse] change nothing of its outcome, which
    is the one of the function without them, and there is one pause per
    repair pass. *)
Lemma retryJsonParseFrom_outcome k (s : str) (st : Service.State W) :
  Service.retryJsonParseFrom k s st
  = (match Repair.retryJsonParseFrom k s with
     | Parsed v => Ok v
     | Failed m => Throw (Error m)
     end,
     {| Service.world := Service.world st;
        Service.calls :=
          Service.calls st
          ++ repeat (Service.Wait 1000) (repairPasses k s) |}).
Proof.
  revert s st. induction k as [|k IH]; intros s st; simpl;
    destruct (parse s) as [v|] eqn:E.
  - unfold Service.ret. now rewrite app_nil_r, state_eta.
  - unfold Service.throw. now rewrite app_nil_r, state_eta.
  - unfold Service.ret. now rewrite app_nil_r, state_eta.
  - unfold Service.bind, Service.wait. rewrite IH. simpl.
    now rewrite <- app_assoc.
Qed.

Lemma lookup_last (k : str) (v : value) (ms : list (str * value)) :
  lookup k (ms ++ [(k, v)]) = Some v.
Proof.
  induction ms as [|[k' v'] ms IH]; simpl.
  - now rewrite (proj2 (eqb_eq k k) eq_refl).
  - now rewrite IH.
Qed.

Lemma lookup_other (k k' : str) (v : value) (ms : list (str * value)) :
  k' <> k -> lookup k' (ms ++ [(k, v)]) = lookup k' ms.
Proof.
  intros Hk. induction ms as [|[k0 v0] ms IH]; simpl.
  - destruct (eqb k' k) eqn:E; [|reflexivity].
    apply eqb_eq in E. contradiction.
  - now rewrite IH.
Qed.

(** A text that begins with an opening brace parses, if at all, to an
    object. *)
Lemma parse_brace (s : str) (v : value) :
  parse (LBRACE :: s) = Some v -> exists ms, v = JObject ms.
Proof.
  unfold parse. cbn [length parseValue].
  change (skipWs (LBRACE :: s)) with (LBRACE :: s).
  cbv iota. rewrite N.eqb_refl.
  destruct (skipWs s) as [|d rest']; [discriminate|].
  destruct (d =? RBRACE)%N.
  - destruct (skipWs rest'); intros H; inversion H; eauto.
  - destruct (parseMembers _ _) as [[ms r]|]; [|discriminate].
    destruct (skipWs r); intros H; inversion H; eauto.
Qed.

Lemma matchBraces_brace (response jsonMatch : str) :
  Extract.matchBraces response = Some jsonMatch ->
  exists rest, jsonMatch = LBRACE :: rest.
Proof.
  pose proof (matchBraces_spec response) as H. intros E. rewrite E in H.
  destruct H as (pre & body & post & -> & _). eauto.
Qed.

End Service_lemmas.

(** ** From the answer of the model to the answer of the handler *)

(** X14.  In both report handlers, what is answered once the model has
    responded depends on the text from the first opening brace of the
    response to its last closing brace.  Without such a text the answer is
    500, Invalid report format.  When the text is valid JSON, it is an
    object and the answer is 200 with that object and the sources of the
    request as its [sources], whatever it had under that name, and
    everything else as the model wrote it; nothing is checked about the
    object.  When the text is not valid JSON and holds a double quote, the
    answer is 500, Failed to parse report format after retries, given
    after two pauses of one second. *)
Theorem answer_follows_the_braced_text
    (W : Type) (response : str) (sources : value) (st : Service.State W) :
  match Extract.matchBraces response with
  | None =>
    Service.answerWith response sources st
    = (Ok (Service.failure 500 "Invalid report format"), st)
  | Some jsonMatch =>
    match parse jsonMatch with
    | Some reportData =>
      exists members sent,
        reportData = JObject members
        /\ Service.answerWith response sources st
           = (Ok {| Service.status := 200;
                    Service.body := Service.ReportBody sent |}, st)
        /\ get sent (lit "sources") = Some sources
        /\ forall k, k <> lit "sources" -> get sent k = get reportData k
    | None =>
      In QUOTE jsonMatch ->
      Service.answerWith response sources st
      = (Ok (Service.failure 500
               "Failed to parse report format after retries"),
         {| Service.world := Service.world st;
            Service.calls :=
              Service.calls st
              ++ [Service.Wait 1000; Service.Wait 1000] |})
    end
  end.
Proof.
  unfold Service.answerWith.
  destruct (Extract.matchBraces response) as [jsonMatch|] eqn:Em;
    [|reflexivity].
  unfold Service.tryCatch, Service.bind, Service.retryJsonParse.
  rewrite retryJsonParseFrom_outcome.
  destruct (parse jsonMatch) as [reportData|] eqn:Ep.
  - destruct (matchBraces_brace _ Em) as (rest & ->).
    destruct (parse_brace _ Ep) as (members & ->).
    exists members, (JObject (members ++ [(lit "sources", sources)])).
    split; [reflexivity|]. split.
    + unfold MAX_RETRIES. cbn [Repair.retryJsonParseFrom repairPasses].
      rewrite Ep. simpl. now rewrite app_nil_r, state_eta.
    + split; [apply lookup_last | intros k Hk; now apply lookup_other].
  - intros Hq.
    destruct (retryJsonParse_fails_on_quoted_text jsonMatch Hq Ep)
      as (Hr & Hn).
    unfold retryJsonParse in Hr. rewrite Hr, Hn. reflexivity.
Qed.

(** A response whose braces hold a stray quote: the answer comes after
    two pauses and reports that the report could not be parsed. *)
Example answer_to_damaged_text :
  Service.answerWith (lit "Here you are: " ++ Scenario.damagedText)
    (JArray []) Desk.start
  = (Ok (Service.failure 500 "Failed to parse report format after retries"),
     {| Service.world := tt;
        Service.calls := [Service.Wait 1000; Service.Wait 1000] |}).
Proof. vm_compute. reflexivity. Qed.

(** ** The calls of the report routes *)

Section Report_calls.
Variable W : Type.
Variable services : Service.Services W.
Variable settings : Config.Settings.

Notation State := (Service.State W).

Lemma await_calls {A} c (f : W -> result A * W) (st : State) :
  Service.calls (snd (Service.await c f st)) = Service.calls st ++ [c].
Proof. unfold Service.await. now destruct (f (Service.world st)). Qed.

Lemma allowed_calls key (st : State) :
  Service.calls (snd (Service.allowed services settings key st))
  = Service.calls st
    ++ (if Config.rateLimits_enabled settings
        then [Service.Limit (lit key)] else []).
Proof.
  unfold Service.allowed. destruct (Config.rateLimits_enabled settings).
  - apply await_calls.
  - simpl. now rewrite app_nil_r.
Qed.

Lemma repairPasses_le k (s : str) : (repairPasses k s <= k)%nat.
Proof.
  revert s. induction k as [|k IH]; intros s; simpl;
    destruct (parse s); try lia.
  specialize (IH (cleanJson s)). lia.
Qed.

(** Whatever the model answered, the handlers answer 200 or 500 after
    at most two pauses of one second, and call nothing. *)
Lemma answerWith_outcome response sources (st : State) :
  exists resp n,
    Service.answerWith response sources st
    = (Ok resp,
       {| Service.world := Service.world st;
          Service.calls :=
            Service.calls st ++ repeat (Service.Wait 1000) n |})
    /\ (n <= 2)%nat
    /\ (Service.status resp = 200%Z \/ Service.status resp = 500%Z).
Proof.
  unfold Service.answerWith.
  destruct (Extract.matchBraces response) as [jsonMatch|].
  2: { exists (Service.failure 500 "Invalid report format"), O.
       split; [|split; [lia | now right]].
       cbn [repeat]. now rewrite app_nil_r, state_eta. }
  unfold Service.tryCatch, Service.bind, Service.retryJsonParse.
  rewrite retryJsonParseFrom_outcome.
  pose proof (repairPasses_le MAX_RETRIES jsonMatch) as Hn.
  set (n := repairPasses MAX_RETRIES jsonMatch) in *.
  destruct (Repair.retryJsonParseFrom MAX_RETRIES jsonMatch) as [v|m].
  - destruct (Service.assignSources v sources) as [sent|e].
    + eexists _, n. split; [reflexivity|]. split; [exact Hn | now left].
    + eexists _, n. split; [reflexivity|]. split; [exact Hn | now right].
  - eexists _, n. split; [reflexivity|]. split; [exact Hn | now right].
Qed.

Lemma deepSeekAttempt_calls p m t (st : State) :
  Service.calls (snd (Report.deepSeekAttempt services p m t st))
  = Service.calls st ++ [Service.DeepSeek m p t].
Proof.
  unfold Report.deepSeekAttempt, Service.bind, Service.await.
  destruct (Service.deepseek services m p t (Service.world st))
    as [[[|c cs]|e] w]; reflexivity.
Qed.

(** The three attempts of [generateWithDeepSeek], written out. *)
Lemma generateWithDeepSeek_unrolled p m t (st : State) :
  Report.generateWithDeepSeek services p m t st
  = Service.tryCatch (Report.deepSeekAttempt services p m t)
      (fun _ =>
         Service.bind (Service.wait 2000) (fun _ =>
         Service.tryCatch (Report.deepSeekAttempt services p m t)
           (fun _ =>
              Service.bind (Service.wait 4000)
                (fun _ => Report.deepSeekAttempt services p m t)))) st.
Proof.
  unfold Report.generateWithDeepSeek, Report.deepSeekMaxRetries.
  change (Z.to_nat 3) with 3%nat. cbn [Report.deepSeekLoop].
  change (0 + 1 <? Report.deepSeekMaxRetries)%Z with true.
  change (0 + 1 + 1 <? Report.deepSeekMaxRetries)%Z with true.
  change (0 + 1 + 1 + 1 <? Report.deepSeekMaxRetries)%Z with false.
  change (2 ^ (0 + 1) * 1000)%Z with 2000%Z.
  change (2 ^ (0 + 1 + 1) * 1000)%Z with 4000%Z.
  cbv iota.
  unfold Service.tryCatch, Service.bind, Service.wait, Service.throw.
  destruct (Report.deepSeekAttempt services p m t st) as [[a1|e1] s1];
    [reflexivity|].
  match goal with
  | |- context [Report.deepSeekAttempt services p m t ?s] =>
    destruct (Report.deepSeekAttempt services p m t s) as [[a2|e2] s2]
  end; [reflexivity|].
  match goal with
  | |- context [Report.deepSeekAttempt services p m t ?s] =>
    destruct (Report.deepSeekAttempt services p m t s) as [[a3|e3] s3]
  end; reflexivity.
Qed.

Lemma generateWithDeepSeek_calls p m t (st : State) :
  let sent := Service.DeepSeek m p t in
  exists cs,
    Service.calls (snd (Report.generateWithDeepSeek services p m t st))
    = Service.calls st ++ cs
    /\ match fst (Report.generateWithDeepSeek services p m t st) with
       | Ok _ =>
         In cs [ [sent];
                 [sent; Service.Wait 2000; sent];
                 [sent; Service.Wait 2000; sent; Service.Wait 4000; sent] ]
       | Throw e =>
         cs = [sent; Service.Wait 2000; sent; Service.Wait 4000; sent]
         /\ exists st2,
              fst (Report.deepSeekAttempt services p m t st2) = Throw e
       end.
Proof.
  cbv zeta. rewrite generateWithDeepSeek_unrolled.
  unfold Service.tryCatch, Service.bind, Service.wait.
  pose proof (deepSeekAttempt_calls p m t st) as H1.
  destruct (Report.deepSeekAttempt services p m t st) as [[a1|e1] s1] eqn:E1;
    simpl in H1.
  { simpl. eexists. split; [exact H1|]. now left. }
  match goal with
  | |- context [Report.deepSeekAttempt services p m t ?s] =>
    pose proof (deepSeekAttempt_calls p m t s) as H2;
    destruct (Report.deepSeekAttempt services p m t s) as [[a2|e2] s2] eqn:E2
  end; simpl in H2.
  { simpl. eexists. split.
    - rewrite H2, H1, <- !app_assoc. reflexivity.
    - right. now left. }
  match goal with
  | |- context [Report.deepSeekAttempt services p m t ?s] =>
    pose proof (deepSeekAttempt_calls p m t s) as H3;
    destruct (Report.deepSeekAttempt services p m t s) as [[a3|e3] s3] eqn:E3
  end; simpl in H3.
  { simpl. eexists. split.
    - rewrite H3, H2, H1, <- !app_assoc. reflexivity.
    - right. right. now left. }
  simpl. eexists. split.
  - rewrite H3, H2, H1, <- !app_assoc. reflexivity.
  - split; [reflexivity|]. eexists. rewrite E3. reflexivity.
Qed.

End Report_calls.

(** ** The retries of [generateWithDeepSeek] *)

(** X13.  [generateWithDeepSeek] is three attempts in a row: a second
    attempt two seconds after a first one that threw, a third attempt four
    seconds after a second one that threw, and the outcome of the third
    attempt as it is.  Every error is retried, whatever it is; when the
    function throws, it has made three requests and the error is the one
    of the third; the error of its last line, Failed to get response from
    DeepSeek API after all retries, is never thrown. *)
Theorem generateWithDeepSeek_is_three_attempts
    (W : Type) (services : Service.Services W)
    (systemPrompt model : str) (maxTokens : Z) (st : Service.State W) :
  let attempt := Report.deepSeekAttempt services systemPrompt model maxTokens in
  let sent := Service.DeepSeek model systemPrompt maxTokens in
  Report.generateWithDeepSeek services systemPrompt model maxTokens st
  = Service.tryCatch attempt
      (fun _ =>
         Service.bind (Service.wait 2000) (fun _ =>
         Service.tryCatch attempt
           (fun _ =>
              Service.bind (Service.wait 4000) (fun _ => attempt)))) st
  /\ exists cs,
       Service.calls
         (snd (Report.generateWithDeepSeek services systemPrompt model
                 maxTokens st))
       = Service.calls st ++ cs
       /\ match fst (Report.generateWithDeepSeek services systemPrompt model
                       maxTokens st) with
          | Ok _ =>
            In cs [ [sent];
                    [sent; Service.Wait 2000; sent];
                    [sent; Service.Wait 2000; sent; Service.Wait 4000; sent] ]
          | Throw e =>
            cs = [sent; Service.Wait 2000; sent; Service.Wait 4000; sent]
            /\ exists st2, fst (attempt st2) = Throw e
          end.
Proof.
  cbv zeta. split.
  - apply generateWithDeepSeek_unrolled.
  - apply generateWithDeepSeek_calls.
Qed.

(** ** What the report handlers call *)

Section Calling.
Variable W : Type.

Notation M := (Service.M W).
Notation calling := (@Service.calling W).

Lemma calling_ret {A} Q (a : A) : calling Q (Service.ret a).
Proof.
  intros st. exists []. split; [simpl; now rewrite app_nil_r | constructor].
Qed.

Lemma calling_throw {A} Q e : calling (A:=A) Q (Service.throw e).
Proof.
  intros st. exists []. split; [simpl; now rewrite app_nil_r | constructor].
Qed.

Lemma calling_bind {A B} Q (m : M A) (k : A -> M B) :
  calling Q m -> (forall a, calling Q (k a)) -> calling Q (Service.bind m k).
Proof.
  intros Hm Hk st. destruct (Hm st) as (c1 & E1 & F1).
  unfold Service.bind. destruct (m st) as [[a|e] s1]; simpl in E1.
  - destruct (Hk a s1) as (c2 & E2 & F2). exists (c1 ++ c2). split.
    + now rewrite E2, E1, app_assoc.
    + apply Forall_app. now split.
  - now exists c1.
Qed.

Lemma calling_tryCatch {A} Q (m : M A) (h : exn -> M A) :
  calling Q m -> (forall e, calling Q (h e)) ->
  calling Q (Service.tryCatch m h).
Proof.
  intros Hm Hh st. destruct (Hm st) as (c1 & E1 & F1).
  unfold Service.tryCatch. destruct (m st) as [[a|e] s1]; simpl in E1.
  - now exists c1.
  - destruct (Hh e s1) as (c2 & E2 & F2). exists (c1 ++ c2). split.
    + now rewrite E2, E1, app_assoc.
    + apply Forall_app. now split.
Qed.

Lemma calling_await {A} (Q : Service.call -> Prop) c
    (f : W -> result A * W) :
  Q c -> calling Q (Service.await c f).
Proof.
  intros H st. exists [c]. split; [apply await_calls | now constructor].
Qed.

Lemma calling_wait (Q : Service.call -> Prop) ms :
  Q (Service.Wait ms) -> calling Q (Service.wait ms).
Proof. intros H st. exists [Service.Wait ms]. split; [reflexivity | now constructor]. Qed.

Lemma calling_weaken {A} (Q Q' : Service.call -> Prop) (m : M A) :
  (forall c, Q c -> Q' c) -> calling Q m -> calling Q' m.
Proof.
  intros HQ Hm st. destruct (Hm st) as (cs & E & F).
  exists cs. split; [exact E|]. eapply Forall_impl; eassumption.
Qed.

End Calling.

Ltac calls_step :=
  match goal with
  | |- Service.calling _ (Service.ret _) => apply calling_ret
  | |- Service.calling _ (Service.throw _) => apply calling_throw
  | |- Service.calling _ (Service.bind _ _) => apply calling_bind; [|intros ?]
  | |- Service.calling _ (Service.tryCatch _ _) =>
    apply calling_tryCatch; [|intros ?]
  | |- Service.calling _ (Service.await _ _) => apply calling_await
  | |- Service.calling _ (Service.wait _) => apply calling_wait
  | |- Service.calling _ (if ?b then _ else _) => destruct b
  | |- Service.calling _ (match ?x with _ => _ end) => destruct x
  end.

Section Report_handlers.
Variable W : Type.
Variable services : Service.Services W.

Notation isWait := (fun c => exists ms, c = Service.Wait ms).

Lemma retryJsonParseFrom_calling k (s : str) :
  Service.calling (W:=W) isWait (Service.retryJsonParseFrom k s).
Proof.
  revert s. induction k as [|k IH]; intros s; cbn [Service.retryJsonParseFrom];
    destruct (parse s); repeat calls_step; eauto.
Qed.

Lemma answerWith_calling response sources :
  Service.calling (W:=W) isWait (Service.answerWith response sources).
Proof.
  unfold Service.answerWith, Service.retryJsonParse.
  destruct (Extract.matchBraces response); [|apply calling_ret].
  apply calling_tryCatch; [|intros e; apply calling_ret].
  apply calling_bind; [apply retryJsonParseFrom_calling|].
  intros v. destruct (Service.assignSources v sources);
    [apply calling_ret | apply calling_throw].
Qed.

Lemma deepSeekLoop_calling k n p m t :
  Service.calling
    (fun c => c = Service.DeepSeek m p t \/ exists ms, c = Service.Wait ms)
    (Report.deepSeekLoop services k n p m t).
Proof.
  revert n. induction k as [|k IH]; intros n; cbn [Report.deepSeekLoop].
  - apply calling_throw.
  - unfold Report.deepSeekAttempt. repeat calls_step; eauto.
Qed.


Lemma generate_calling p model t :
  Service.calling (fun _ => True) (Report.generate services p model t).
Proof.
  assert (Hd : forall m,
             Service.calling (fun _ => True)
               (Report.generateWithDeepSeek services p m t)).
  { intros m. eapply calling_weaken; [|apply deepSeekLoop_calling]. auto. }
  unfold Report.generate, Report.asNullable, Report.generateWithGemini,
    Report.generateWithOpenAI, Report.generateWithAnthropic.
  repeat match goal with
         | |- Service.calling _ (Report.generateWithDeepSeek _ _ _ _) =>
           apply Hd
         | _ => calls_step
         end; exact I.
Qed.

(** With a model of the shipped configuration, the calls are to Gemini
    Flash, to Gemini Flash Thinking or to DeepSeek. *)
Lemma generate_calling_shipped p model t :
  In model [lit "gemini-flash"; lit "gemini-flash-thinking";
            lit "chat"; lit "reasoner"] ->
  Service.calling (fun c => Service.flashOrDeepSeek c = true)
    (Report.generate services p (Some model) t).
Proof.
  intros [<- | [<- | [<- | [<- | []]]]];
    unfold Report.generate; cbn [Report.named];
    repeat match goal with
           | |- context [eqb ?a ?b] =>
             let v := eval vm_compute in (eqb a b) in
             change (eqb a b) with v
           end; cbv iota;
    unfold Report.asNullable, Report.generateWithGemini,
      Report.generateWithDeepSeek.
  - repeat match goal with
           | |- context [eqb ?a ?b] =>
             let v := eval vm_compute in (eqb a b) in
             change (eqb a b) with v
           end; cbv iota.
    repeat calls_step; reflexivity.
  - repeat match goal with
           | |- context [eqb ?a ?b] =>
             let v := eval vm_compute in (eqb a b) in
             change (eqb a b) with v
           end; cbv iota.
    repeat calls_step; reflexivity.
  - apply calling_bind; [|intros r; apply calling_ret].
    eapply calling_weaken; [|apply deepSeekLoop_calling].
    intros c [-> | (ms & ->)]; reflexivity.
  - apply calling_bind; [|intros r; apply calling_ret].
    eapply calling_weaken; [|apply deepSeekLoop_calling].
    intros c [-> | (ms & ->)]; reflexivity.
Qed.

Section Settings.
Variable settings : Config.Settings.
Variable systemPromptOf : Report.ReportRequest -> str.

Notation State := (Service.State W).
Notation POST := (Report.POST services settings systemPromptOf).

(** A request is let through by the checks of the platform and of the
    model only when both are in the configuration and enabled. *)
Lemma refusal_None platform model :
  Report.refusal settings platform model = None ->
  exists platformConfig modelConfig,
    Report.own (Config.platforms settings) platform = Some platformConfig
    /\ Config.p_enabled platformConfig = true
    /\ Report.own (Config.models platformConfig) (Report.text model)
       = Some modelConfig
    /\ Config.m_enabled modelConfig = true.
Proof.
  unfold Report.refusal, Report.getProperty.
  destruct (Report.own (Config.platforms settings) platform) as [pc|].
  2: { destruct (existsb _ _); discriminate. }
  destruct (Config.p_enabled pc) eqn:Ep; cbn [negb]; [|discriminate].
  destruct (Report.own (Config.models pc) (Report.text model)) as [mc|]
    eqn:Eo.
  2: { destruct (existsb _ _); discriminate. }
  destruct (Config.m_enabled mc) eqn:Em; cbn [negb]; [|discriminate].
  intros _. exists pc, mc. auto.
Qed.

Lemma refusal_status platform model answer :
  Report.refusal settings platform model = Some answer ->
  Service.status answer = 400%Z.
Proof.
  unfold Report.refusal.
  destruct (Report.getProperty (Config.platforms settings) platform)
    as [pc| |]; try (intros H; inversion H; reflexivity).
  destruct (negb (Config.p_enabled pc)); [intros H; inversion H; reflexivity|].
  destruct (Report.getProperty (Config.models pc) (Report.text model))
    as [mc| |]; try (intros H; inversion H; reflexivity).
  destruct (negb (Config.m_enabled mc)); intros H; inversion H; reflexivity.
Qed.

(** The part of the handler after the checks: the model is asked and its
    response answered. *)
Lemma generation_outcome (Q : Service.call -> Prop) p model t sources
    (st : State) :
  Service.calling Q (Report.generate services p model t) ->
  (forall ms, Q (Service.Wait ms)) ->
  exists resp st' cs,
    Service.tryCatch
      (Service.bind (Report.generate services p model t) (fun response =>
       match response with
       | Some (c :: r) => Service.answerWith (c :: r) sources
       | _ => Service.throw (Error (lit "No response from model"))
       end))
      (fun _ =>
         Service.ret (Service.failure 500 "Failed to generate report content"))
      st
    = (Ok resp, st')
    /\ Service.calls st' = Service.calls st ++ cs
    /\ Forall Q cs
    /\ (Service.status resp = 200%Z \/ Service.status resp = 500%Z).
Proof.
  intros Hg Hw. destruct (Hg st) as (c1 & E1 & F1).
  unfold Service.tryCatch, Service.bind.
  destruct (Report.generate services p model t st) as [[response|e] s1];
    simpl in E1.
  2: { eexists _, _, c1. split; [reflexivity|]. simpl. auto. }
  destruct response as [[|c r]|].
  1, 3: eexists _, _, c1; (split; [reflexivity|]); simpl; auto.
  destruct (answerWith_outcome (c :: r) sources s1)
    as (resp & n & E2 & _ & Hs).
  rewrite E2. eexists resp, _, (c1 ++ repeat (Service.Wait 1000) n).
  split; [reflexivity|]. simpl. split; [now rewrite E1, app_assoc|].
  split; [|exact Hs]. apply Forall_app. split; [exact F1|].
  clear E2. induction n; simpl; constructor; auto.
Qed.

(** The handler, case by case. *)
Lemma report_POST_cases request (st : State) :
  exists resp st' cs,
    POST request st = (Ok resp, st')
    /\ Service.calls st' = Service.calls st ++ cs
    /\ ((Service.status resp = 500%Z /\ cs = [])
        \/ (Config.rateLimits_enabled settings = true
            /\ (Service.status resp = 500%Z \/ Service.status resp = 429%Z)
            /\ cs = [Service.Limit (lit "report")])
        \/ (exists body,
               request = Some body
               /\ Report.refusal settings (Report.platformOf body)
                    (Report.modelOf body) = Some resp
               /\ Service.status resp = 400%Z
               /\ cs = if Config.rateLimits_enabled settings
                       then [Service.Limit (lit "report")] else [])
        \/ (exists body cs',
               request = Some body
               /\ Report.refusal settings (Report.platformOf body)
                    (Report.modelOf body) = None
               /\ (Service.status resp = 200%Z
                   \/ Service.status resp = 500%Z)
               /\ cs = (if Config.rateLimits_enabled settings
                        then [Service.Limit (lit "report")] else []) ++ cs'
               /\ forall Q : Service.call -> Prop,
                    Service.calling Q
                      (Report.generate services (systemPromptOf body)
                         (Report.modelOf body)
                         match Report.maxTokens body with
                         | Some n => n
                         | None => 8192%Z
                         end) ->
                    (forall ms, Q (Service.Wait ms)) ->
                    Forall Q cs')).
Proof.
  unfold Report.POST. destruct request as [body|].
  2: { eexists _, st, []. split; [reflexivity|].
       split; [now rewrite app_nil_r|]. left. auto. }
  cbv zeta. unfold Service.tryCatch at 1. unfold Service.bind at 1.
  pose proof (allowed_calls services settings "report" st) as Ha.
  destruct (Service.allowed services settings "report" st)
    as [[success|e] s1] eqn:Eallowed; simpl in Ha.
  2: { unfold Service.allowed in Eallowed.
       destruct (Config.rateLimits_enabled settings) eqn:En;
         [|discriminate].
       eexists _, s1, _. split; [reflexivity|]. split; [exact Ha|].
       right. left. simpl. auto. }
  destruct success; cbn [negb].
  2: { unfold Service.allowed in Eallowed.
       destruct (Config.rateLimits_enabled settings) eqn:En;
         [|discriminate].
       eexists _, s1, _. split; [reflexivity|]. split; [exact Ha|].
       right. left. simpl. auto. }
  destruct (Report.refusal settings (Report.platformOf body)
              (Report.modelOf body)) as [answer|] eqn:Er.
  { eexists answer, s1, _. split; [reflexivity|]. split; [exact Ha|].
    right. right. left. exists body.
    split; [reflexivity|]. split; [exact Er|].
    split; [now apply refusal_status in Er | reflexivity]. }
  destruct (@generation_outcome (fun _ => True) (systemPromptOf body)
              (Report.modelOf body)
              match Report.maxTokens body with
              | Some n => n
              | None => 8192%Z
              end
              (Report.sources body) s1
              (generate_calling _ _ _) (fun _ => I))
    as (resp & st' & cs' & E & Ec & _ & Hs).
  exists resp, st'. eexists.
  split; [unfold Service.tryCatch in *; rewrite E; reflexivity|].
  split; [rewrite Ec, Ha, <- app_assoc; reflexivity|].
  right. right. right. exists body, cs'.
  split; [reflexivity|]. split; [exact Er|]. split; [exact Hs|].
  split; [reflexivity|].
  intros Q Hg Hw.
  destruct (@generation_outcome Q (systemPromptOf body)
              (Report.modelOf body)
              match Report.maxTokens body with
              | Some n => n
              | None => 8192%Z
              end
              (Report.sources body) s1 Hg Hw)
    as (resp2 & st2 & cs2 & E2 & Ec2 & F2 & _).
  rewrite E in E2. injection E2 as <- <-.
  rewrite Ec in Ec2. apply app_inv_head in Ec2. now subst cs2.
Qed.

End Settings.
End Report_handlers.

(** ** The shipped configuration *)

Lemma text_Some_inv (model : option str) (name : str) :
  eqb (Report.text model) name = true ->
  name <> lit "undefined" ->
  model = Some name.
Proof.
  intros H Hn. apply eqb_eq in H. destruct model as [m|]; simpl in H.
  - now subst.
  - now subst.
Qed.

(** In the shipped configuration the checks let four combinations
    through: the two Gemini Flash models of Google and the two models of
    DeepSeek. *)
Lemma refusal_shipped platform model :
  Report.refusal Config.CONFIG platform model = None ->
  exists m,
    model = Some m
    /\ In (platform, m)
         [ (lit "google", lit "gemini-flash");
           (lit "google", lit "gemini-flash-thinking");
           (lit "deepseek", lit "chat");
           (lit "deepseek", lit "reasoner") ].
Proof.
  intros H. apply refusal_None in H.
  destruct H as (pc & mc & Hp & Ep & Hm & Em).
  unfold Config.CONFIG in Hp. cbn [Config.platforms Report.own] in Hp.
  destruct (eqb platform (lit "google")) eqn:E1.
  { apply eqb_eq in E1. subst platform. injection Hp as <-.
    cbn [Config.models Report.own] in Hm.
    destruct (eqb (Report.text model) (lit "gemini-flash")) eqn:M1.
    { apply text_Some_inv in M1; [|discriminate].
      exists (lit "gemini-flash"). simpl. auto. }
    destruct (eqb (Report.text model) (lit "gemini-flash-thinking")) eqn:M2.
    { apply text_Some_inv in M2; [|discriminate].
      exists (lit "gemini-flash-thinking"). simpl. auto. }
    destruct (eqb (Report.text model) (lit "gemini-exp")) eqn:M3;
      [|discriminate].
    injection Hm as <-. discriminate. }
  destruct (eqb platform (lit "openai")) eqn:E2.
  { injection Hp as <-. discriminate. }
  destruct (eqb platform (lit "anthropic")) eqn:E3.
  { injection Hp as <-. discriminate. }
  destruct (eqb platform (lit "deepseek")) eqn:E4; [|discriminate].
  apply eqb_eq in E4. subst platform. injection Hp as <-.
  cbn [Config.models Report.own] in Hm.
  destruct (eqb (Report.text model) (lit "chat")) eqn:M1.
  { apply text_Some_inv in M1; [|discriminate].
    exists (lit "chat"). simpl. auto. }
  destruct (eqb (Report.text model) (lit "reasoner")) eqn:M2;
    [|discriminate].
  apply text_Some_inv in M2; [|discriminate].
  exists (lit "reasoner"). simpl. auto 6.
Qed.

(** A request without a model is turned down by the shipped
    configuration, whatever its platform. *)
Lemma refusal_shipped_without_model platform :
  exists answer,
    Report.refusal Config.CONFIG platform None = Some answer
    /\ Service.status answer = 400%Z.
Proof.
  destruct (Report.refusal Config.CONFIG platform None) as [answer|] eqn:E.
  - exists answer. split; [reflexivity|]. now apply refusal_status in E.
  - apply refusal_shipped in E. destruct E as (m & Hm & _). discriminate.
Qed.

(** X15.  The report handler always answers, with status 200, 400, 429
    or 500, and it asks a language model only for a request that names a
    platform and a model which the configuration both has and has
    enabled: the part of [platformModel] before the first double
    underscore is a platform of the configuration that is enabled, and the
    part after it a model of that platform that is enabled.  A request
    answered with 400 or 429 has reached no model. *)
Theorem report_asks_a_model_only_when_enabled
    (W : Type) (services : Service.Services W) (settings : Config.Settings)
    (systemPromptOf : Report.ReportRequest -> str)
    (request : option Report.ReportRequest) (st : Service.State W) :
  exists resp st' cs,
    Report.POST services settings systemPromptOf request st = (Ok resp, st')
    /\ Service.calls st' = Service.calls st ++ cs
    /\ In (Service.status resp) [200; 400; 429; 500]%Z
    /\ (Service.status resp = 400%Z \/ Service.status resp = 429%Z ->
        existsb Service.asksModel cs = false)
    /\ (existsb Service.asksModel cs = true ->
        exists body platformConfig modelConfig,
          request = Some body
          /\ Report.own (Config.platforms settings) (Report.platformOf body)
             = Some platformConfig
          /\ Config.p_enabled platformConfig = true
          /\ Report.own (Config.models platformConfig)
               (Report.text (Report.modelOf body))
             = Some modelConfig
          /\ Config.m_enabled modelConfig = true).
Proof.
  destruct (report_POST_cases services settings systemPromptOf request st)
    as (resp & st' & cs & E & Ec & H).
  exists resp, st', cs. split; [exact E|]. split; [exact Ec|].
  destruct H as [(Hs & ->)
    | [(En & Hs & ->)
    | [(body & -> & Hr & Hs & ->)
    | (body & cs' & -> & Hr & Hs & -> & _)]]].
  - rewrite Hs. simpl. split; [tauto|]. split; [reflexivity | discriminate].
  - split; [destruct Hs as [-> | ->]; simpl; tauto|].
    split; [reflexivity | discriminate].
  - rewrite Hs. simpl. split; [tauto|].
    destruct (Config.rateLimits_enabled settings);
      (split; [reflexivity | discriminate]).
  - split; [destruct Hs as [-> | ->]; simpl; tauto|]. split.
    + intros [H | H]; rewrite H in Hs; destruct Hs; discriminate.
    + intros _. apply refusal_None in Hr.
      destruct Hr as (pc & mc & H1 & H2 & H3 & H4).
      now exists body, pc, mc.
Qed.

(** X16.  With the shipped configuration, a request whose
    [platformModel] has no double underscore is answered with 400 and
    nothing is called, whatever the rest of the request: the model is then
    [undefined], and no platform has a model of that name.  This is so for
    a request that leaves [platformModel] out, although the handler gives it
    a default: the default has no double underscore, and is taken as a
    whole for the name of a platform. *)
Theorem request_without_model_is_refused
    (W : Type) (services : Service.Services W)
    (systemPromptOf : Report.ReportRequest -> str)
    (body : Report.ReportRequest) (st : Service.State W) :
  Report.modelOf body = None ->
  exists resp,
    Report.POST services Config.CONFIG systemPromptOf (Some body) st
    = (Ok resp, st)
    /\ Service.status resp = 400%Z
    /\ (Report.platformModel body = None ->
        resp = Service.failure 400
                 "google-gemini-flash platform is not enabled").
Proof.
  intros Hmodel.
  destruct (refusal_shipped_without_model (Report.platformOf body))
    as (answer & Hr & Hs).
  exists answer. split; [|split; [exact Hs|]].
  - unfold Report.POST. cbv zeta. unfold Service.allowed.
    change (Config.rateLimits_enabled Config.CONFIG) with false. cbv iota.
    unfold Service.tryCatch, Service.bind, Service.ret. cbn [negb].
    rewrite Hmodel, Hr. reflexivity.
  - intros Hnone.
    assert (Hp : Report.platformOf body = lit "google-gemini-flash").
    { unfold Report.platformOf, Report.platformModelOf. rewrite Hnone.
      vm_compute. reflexivity. }
    rewrite Hp in Hr. vm_compute in Hr. injection Hr as <-.
    vm_compute. reflexivity.
Qed.

Lemma request_without_model_is_refused_witness :
  Report.modelOf (Desk.reportRequest None) = None
  /\ Report.POST Desk.services Config.CONFIG Desk.promptOf
       (Some (Desk.reportRequest None)) Desk.start
     = (Ok (Service.failure 400
              "google-gemini-flash platform is not enabled"),
        Desk.start).
Proof.
  split; [vm_compute; reflexivity|].
  destruct (@request_without_model_is_refused unit Desk.services
              Desk.promptOf (Desk.reportRequest None) Desk.start)
    as (resp & E & _ & H); [vm_compute; reflexivity|].
  rewrite E. now rewrite (H eq_refl).
Defined.

(** X17.  With the shipped configuration the report handler calls
    nothing but Gemini Flash, Gemini Flash Thinking and DeepSeek, and
    pauses: whatever the request, it calls no rate limiter, and neither
    OpenAI nor Anthropic nor the experimental Gemini model.  When it asks a
    model, the request names one of the four combinations of platform and
    model that are enabled. *)
Theorem shipped_configuration_reaches_flash_and_deepseek
    (W : Type) (services : Service.Services W)
    (systemPromptOf : Report.ReportRequest -> str)
    (request : option Report.ReportRequest) (st : Service.State W) :
  exists resp st' cs,
    Report.POST services Config.CONFIG systemPromptOf request st
    = (Ok resp, st')
    /\ Service.calls st' = Service.calls st ++ cs
    /\ forallb Service.flashOrDeepSeek cs = true
    /\ (existsb Service.asksModel cs = true ->
        exists body m,
          request = Some body
          /\ Report.modelOf body = Some m
          /\ In (Report.platformOf body, m)
               [ (lit "google", lit "gemini-flash");
                 (lit "google", lit "gemini-flash-thinking");
                 (lit "deepseek", lit "chat");
                 (lit "deepseek", lit "reasoner") ]).
Proof.
  destruct (report_POST_cases services Config.CONFIG systemPromptOf
              request st)
    as (resp & st' & cs & E & Ec & H).
  exists resp, st', cs. split; [exact E|]. split; [exact Ec|].
  destruct H as [(Hs & ->)
    | [(En & _)
    | [(body & -> & Hr & Hs & ->)
    | (body & cs' & -> & Hr & Hs & -> & Hcs)]]].
  - split; [reflexivity | discriminate].
  - discriminate En.
  - split; [reflexivity | discriminate].
  - apply refusal_shipped in Hr. destruct Hr as (m & Hm & Hin).
    change (Config.rateLimits_enabled Config.CONFIG) with false.
    cbv iota. cbn [app]. split.
    + apply forallb_forall. intros c Hc.
      assert (F : Forall (fun c => Service.flashOrDeepSeek c = true) cs').
      { apply Hcs; [|reflexivity]. rewrite Hm.
        apply generate_calling_shipped.
        simpl in Hin. simpl.
        destruct Hin as [H | [H | [H | [H | []]]]];
          injection H as _ <-; auto. }
      rewrite Forall_forall in F. now apply F.
    + intros _. now exists body, m.
Qed.

(** ** The deep-report handler *)

(** X18.  The deep-report handler always answers, with status 200, 429
    or 500.  It asks one model at most once, Gemini Flash Thinking with at
    most 8192 tokens of output, whatever model the request names, with the
    prompt made for one article per learning; it does so for every readable
    request that the rate limiter does not stop, and an answer with status
    200 comes from that one call. *)
Theorem deep_report_asks_flash_thinking_once
    (W : Type) (services : Service.Services W) (settings : Config.Settings)
    (generateSystemPrompt : list DeepReport.Article -> str -> str -> str -> str)
    (request : option DeepReport.DeepReportRequest)
    (st : Service.State W) :
  exists resp st' cs,
    DeepReport.POST services settings generateSystemPrompt request st
    = (Ok resp, st')
    /\ Service.calls st' = Service.calls st ++ cs
    /\ In (Service.status resp) [200; 429; 500]%Z
    /\ (filter Service.asksModel cs = []
        \/ exists body,
             request = Some body
             /\ length (DeepReport.articlesFrom 0 (DeepReport.sources body)
                          (DeepReport.learnings body))
                = length (DeepReport.learnings body)
             /\ filter Service.asksModel cs
                = [ Service.GeminiFlashThinking
                      (generateSystemPrompt
                         (DeepReport.articlesFrom 0 (DeepReport.sources body)
                            (DeepReport.learnings body))
                         (DeepReport.prompt body)
                         (DeepReport.orDefault (DeepReport.citationStyle body)
                            "APA 7th Edition")
                         (DeepReport.orDefault (DeepReport.wordCount body)
                            "1500"))
                      8192 ])
    /\ (Service.status resp = 200%Z -> filter Service.asksModel cs <> []).
Proof.
  unfold DeepReport.POST. destruct request as [body|].
  2: { eexists _, st, []. split; [reflexivity|].
       split; [now rewrite app_nil_r|]. simpl.
       split; [tauto|]. split; [now left | discriminate]. }
  cbv zeta. unfold Service.tryCatch at 1. unfold Service.bind at 1.
  pose proof (allowed_calls services settings "deep-report" st) as Ha.
  assert (Hlim : filter Service.asksModel
                   (if Config.rateLimits_enabled settings
                    then [Service.Limit (lit "deep-report")] else []) = [])
    by (destruct (Config.rateLimits_enabled settings); reflexivity).
  destruct (Service.allowed services settings "deep-report" st)
    as [[success|e] s1]; simpl in Ha.
  2: { eexists _, s1, _. split; [reflexivity|]. split; [exact Ha|].
       simpl. split; [tauto|]. split; [now left|]. discriminate. }
  destruct success; cbn [negb].
  2: { eexists _, s1, _. split; [reflexivity|]. split; [exact Ha|].
       simpl. split; [tauto|]. split; [now left|]. discriminate. }
  set (articles := DeepReport.articlesFrom 0 (DeepReport.sources body)
                     (DeepReport.learnings body)).
  set (systemPrompt := generateSystemPrompt articles _ _ _).
  assert (Hlen : length articles = length (DeepReport.learnings body)).
  { subst articles. generalize 0%nat.
    induction (DeepReport.learnings body) as [|l ls IH]; intros i; simpl;
      [reflexivity | now rewrite IH]. }
  unfold Service.tryCatch, Service.bind.
  pose proof (await_calls (Service.GeminiFlashThinking systemPrompt 8192)
                (Service.geminiFlashThinkingModel services systemPrompt 8192)
                s1) as Hc.
  destruct (Service.await (Service.GeminiFlashThinking systemPrompt 8192)
              (Service.geminiFlashThinkingModel services systemPrompt 8192)
              s1) as [[response|e] s2]; simpl in Hc.
  - destruct (answerWith_outcome response
                (JArray (map DeepReport.sourceValue (DeepReport.sources body)))
                s2) as (resp & n & E & _ & Hs).
    rewrite E. eexists resp, _, _. split; [reflexivity|]. simpl.
    split; [rewrite Hc, Ha, <- !app_assoc; reflexivity|].
    split; [destruct Hs as [-> | ->]; simpl; tauto|].
    assert (Hf : filter Service.asksModel
                   ((if Config.rateLimits_enabled settings
                     then [Service.Limit (lit "deep-report")] else [])
                    ++ [Service.GeminiFlashThinking systemPrompt 8192]
                    ++ repeat (Service.Wait 1000) n)
                 = [Service.GeminiFlashThinking systemPrompt 8192]).
    { rewrite filter_app, Hlim. simpl. f_equal.
      clear. induction n; simpl; auto. }
    rewrite Hf. split; [|discriminate].
    right. exists body. auto.
  - eexists _, s2, _. split; [reflexivity|].
    split; [rewrite Hc, Ha, <- app_assoc; reflexivity|]. simpl.
    split; [tauto|].
    assert (Hf : filter Service.asksModel
                   ((if Config.rateLimits_enabled settings
                     then [Service.Limit (lit "deep-report")] else [])
                    ++ [Service.GeminiFlashThinking systemPrompt 8192])
                 = [Service.GeminiFlashThinking systemPrompt 8192]).
    { rewrite filter_app, Hlim. reflexivity. }
    rewrite Hf. split; [|discriminate].
    right. exists body. auto.
Qed.
